(** * codecov-mcp-server: the API client and the response summarizers

    A shallow embedding of [src/services/codecov-client.ts],
    [src/tools/coverage.ts], [src/tools/repository.ts] and
    [src/tools/comparison.ts], with the properties of the summaries and of
    the client proved over it.

    Modelling conventions.
    - A JavaScript [number] that the code treats as a measure (a coverage
      percentage, a hit count) is the exact rational value of the binary64
      number, a [Q]. Arithmetic rounds as the runtime does: [x - y] and
      [parseFloat] give the binary64 number nearest the exact result, ties
      to the even mantissa (magnitudes stay below 2^1024). [toFixed] is
      the ECMAScript algorithm for magnitudes below 10^21 (above it the
      runtime switches to exponent notation).
    - A number that the code treats as an integer (a line number, a count,
      a page) is a [Z]; the model is exact on JavaScript's safe integers.
    - A field is an [option] wherever the code tests it for absence
      ([?.], [??], [!== null], truthiness); [None] is [undefined] or
      [null], which these tests do not tell apart. The [coverage] of the
      totals is also tested with [!== undefined], which lets [null]
      through: there [None] is [undefined] and [Some JS.null] is [null].
    - Exceptions are values of [exn]; code that can throw returns a
      [completion]. *)

From Stdlib Require Import ZArith QArith Qround Qabs Qpower.
From Stdlib Require Import Strings.String Strings.Ascii.
From Stdlib Require Import Numbers.DecimalString Numbers.DecimalPos.
From Stdlib Require Import Lists.List Sorting.Sorted Sorting.Permutation.
From stdpp Require Import gmap strings list.
From Stdlib Require Import Lqa.

Open Scope string_scope.

(** ** The runtime primitives the sources call *)

Module JS.

Definition number : Type := Q.

(** [x === 0], [x > 0] and [x >= 0] on numbers. *)
Definition is_zero (x : number) : bool := Qeq_bool x 0.
Definition gt_zero (x : number) : bool := negb (Qle_bool x 0).
Definition ge_zero (x : number) : bool := Qle_bool 0 x.

(** A value that may be [null]. *)
Inductive nullable (A : Type) :=
| null
| just (a : A).
Arguments null {A}.
Arguments just {A}.

(** [v ?? undefined], and the reading of [v?.p]: [undefined] and [null]
    are alike. *)
Definition nullish {A} (v : option (nullable A)) : option A :=
  match v with
  | Some (just a) => Some a
  | _ => None
  end.

(** The binary64 number nearest to a rational, ties to the even
    mantissa (IEEE 754 roundTiesToEven): the mantissa has 53 bits, the
    exponent of its last bit is at least -1074. [ilog2 x] is the
    integer part of the binary logarithm of a positive [x]. *)
Definition pow2 (e : Z) : Q := (2 ^ e)%Q.

Definition ilog2 (x : Q) : Z :=
  let k := (Z.log2 (Qnum x) - Z.log2 (Zpos (Qden x)))%Z in
  if Qle_bool (pow2 k) x then k else (k - 1)%Z.

Definition round_half_even (q : Q) : Z :=
  let f := Qfloor q in
  match ((q - inject_Z f) ?= (1 # 2))%Q with
  | Lt => f
  | Gt => (f + 1)%Z
  | Eq => if Z.even f then f else (f + 1)%Z
  end.

Definition exponent (a : Q) : Z := Z.max (ilog2 a - 52) (-1074).

Definition round_magnitude (a : Q) : Q :=
  (inject_Z (round_half_even (a / pow2 (exponent a))) * pow2 (exponent a))%Q.

Definition binary64 (x : Q) : number :=
  if Qeq_bool x 0 then 0%Q
  else Qred ((if Qle_bool 0 x then 1 else -1) * round_magnitude (Qabs x))%Q.

(** [x - y] on numbers: the exact difference of the two binary64
    numbers, rounded. (A rational that is not a binary64 number stands
    for the number literal of that value.) *)
Definition minus (x y : number) : number :=
  binary64 (binary64 x - binary64 y)%Q.

(** [ToNumber] of a number that may be [null]: [null] counts as [0]. *)
Definition Number (v : nullable number) : number :=
  match v with
  | just x => x
  | null => 0%Q
  end.

(** Template-literal and [String(n)] rendering of an integer. *)
Definition String_of_integer (z : Z) : string :=
  NilZero.string_of_int (Z.to_int z).

(** ["s".repeat(n)] *)
Fixpoint repeat (s : string) (n : nat) : string :=
  match n with
  | O => ""
  | S n' => s ++ repeat s n'
  end.

(** [Number.prototype.toFixed(f)], ECMAScript 21.1.3.3: the sign is
    split off, [n] is the integer closest to [x * 10^f] (the larger one
    on a tie), and its decimal digits are padded with zeros on the left
    up to [f + 1] characters before the point is inserted. *)
Definition toFixed (x : number) (f : nat) : string :=
  let s := if Qle_bool 0 x then "" else "-" in
  let x := Qabs x in
  let n := Qfloor (x * inject_Z (10 ^ Z.of_nat f) + (1 # 2)) in
  let m := String_of_integer n in
  let m :=
    match f with
    | O => m
    | _ =>
        let k := String.length m in
        let m := if (k <=? f)%nat then repeat "0" (f + 1 - k) ++ m else m in
        let k := String.length m in
        substring 0 (k - f) m ++ "." ++ substring (k - f) f m
    end in
  s ++ m.

(** [arr.join(sep)] on an array of strings. *)
Definition join (sep : string) (l : list string) : string :=
  String.concat sep l.

(** [arr.slice(0, n)] *)
Definition slice0 {A} (n : nat) (l : list A) : list A := firstn n l.

(** [s.substring(0, n)] *)
Definition substring0 (n : nat) (s : string) : string := substring 0 n s.

(** [v + s] where [v] may be [undefined]: string concatenation renders
    [undefined] by its name. *)
Definition plus (v : option string) (s : string) : string :=
  match v with
  | Some x => x ++ s
  | None => "undefined" ++ s
  end.

(** [s.split(sep)] for a one-character separator. *)
Fixpoint split (sep : ascii) (s : string) : list string :=
  match s with
  | EmptyString => [""]
  | String c rest =>
      if Ascii.eqb c sep then "" :: split sep rest
      else
        match split sep rest with
        | piece :: pieces => String c piece :: pieces
        | [] => [String c ""]
        end
  end.

(** [parseFloat(s)], ECMAScript 19.2.4, on the decimal notation without
    exponent: leading white space is skipped, then the longest prefix
    [sign? digits (. digits)?] or [sign? . digits] is read, and the
    result is the binary64 number nearest its value. [None] is [NaN]. *)
Definition is_digit (c : ascii) : bool :=
  let n := N_of_ascii c in ((48 <=? n) && (n <=? 57))%N.

Definition is_white (c : ascii) : bool :=
  let n := N_of_ascii c in ((9 <=? n) && (n <=? 13) || (n =? 32))%N.

Fixpoint skip_white (s : string) : string :=
  match s with
  | String c rest => if is_white c then skip_white rest else s
  | EmptyString => s
  end.

(** The digits at the head of [s], and what follows them. *)
Fixpoint span_digits (s : string) : string * string :=
  match s with
  | String c rest =>
      if is_digit c then
        let (ds, tail) := span_digits rest in (String c ds, tail)
      else ("", s)
  | EmptyString => ("", "")
  end.

(** The value of a string of decimal digits. *)
Fixpoint digits_value (acc : Z) (ds : string) : Z :=
  match ds with
  | String c rest => digits_value (10 * acc + (Z.of_N (N_of_ascii c) - 48)) rest
  | EmptyString => acc
  end.

Definition parse_unsigned (s : string) : option Q :=
  let (int_part, tail) := span_digits s in
  let frac_part :=
    match tail with
    | String "." tail' => fst (span_digits tail')
    | _ => ""
    end in
  if (String.length int_part + String.length frac_part =? 0)%nat then None
  else
    Some (inject_Z (digits_value 0 int_part)
          + inject_Z (digits_value 0 frac_part)
            / inject_Z (10 ^ Z.of_nat (String.length frac_part)))%Q.

Definition decimal_prefix (s : string) : option Q :=
  match skip_white s with
  | String "+" rest => parse_unsigned rest
  | String "-" rest => Qopp <$> parse_unsigned rest
  | t => parse_unsigned t
  end.

Definition parseFloat (s : string) : option number :=
  binary64 <$> decimal_prefix s.

(** [v || 0] on a number that may be [NaN]. *)
Definition or_zero (v : option number) : number :=
  match v with
  | Some q => if Qeq_bool q 0 then 0%Q else q
  | None => 0%Q
  end.

(** [Array.prototype.sort(comparefn)], ECMAScript 23.1.3.30: the sort is
    stable, and [comparefn(a, b) > 0] puts [b] first. For a consistent
    [comparefn] the result is the one of any stable sort; insertion from
    the right is the one written here. *)
Fixpoint sort_insert {A} (comparefn : A -> A -> number) (x : A) (l : list A)
    : list A :=
  match l with
  | [] => [x]
  | y :: l' =>
      if gt_zero (comparefn x y) then y :: sort_insert comparefn x l'
      else x :: l
  end.

Fixpoint Array_sort {A} (comparefn : A -> A -> number) (l : list A) : list A :=
  match l with
  | [] => []
  | x :: l' => sort_insert comparefn x (Array_sort comparefn l')
  end.

End JS.

(** ** [src/constants.ts] *)

Module Constants.
Definition CODECOV_API_BASE_URL : string := "https://api.codecov.io/api/v2".
Definition DEFAULT_SERVICE : string := "github".
Definition DEFAULT_PAGE_SIZE : Z := 25.
Definition MAX_PAGE_SIZE : Z := 100.
End Constants.

(** ** [src/types.ts]: the backend's responses *)

Module LineCoverage.
(** [coverage]: [None] is [null] (the line is not relevant), [0] a miss,
    a positive number a hit count. *)
Record t := mk {
  line_number : Z;
  coverage : option JS.number;
  is_partial_hit : option bool
}.
End LineCoverage.

Module CoverageTotals.
Record t := mk {
  files : Z;
  lines : Z;
  hits : Z;
  misses : Z;
  partials : Z;
  coverage : option (JS.nullable JS.number);
  branches : Z;
  methods : Z;
  complexity_total : Z;
  complexity_ratio : option JS.number
}.
End CoverageTotals.

Module FileCoverageReport.
Record t := mk {
  name : string;
  totals : option CoverageTotals.t;
  line_coverage : option (list LineCoverage.t);
  commit_sha : string;
  commit_file_url : string
}.
End FileCoverageReport.

Module TotalsResponse.
(** The body of [totals/]: [{ totals, commit_sha }]. *)
Record t := mk {
  totals : CoverageTotals.t;
  commit_sha : string
}.
End TotalsResponse.

Module CoverageTreeNode.
#[warnings="-register-all"]
Inductive t := mk {
  name : string;
  full_path : string;
  coverage : option JS.number;
  lines : Z;
  hits : Z;
  partials : Z;
  misses : Z;
  children : option (list t)
}.
End CoverageTreeNode.

Module CommitAuthor.
Record t := mk {
  username : option string;
  name : option string
}.
End CommitAuthor.

Module Commit.
Record t := mk {
  commitid : string;
  message : option string;
  timestamp : string;
  ci_passed : option bool;
  author : option CommitAuthor.t;
  branch : option string;
  totals : option CoverageTotals.t;
  state : string
}.
End Commit.

Module Repository.
Record t := mk {
  name : string;
  private : bool;
  updatestamp : option string;
  author_username : string;
  author_service : string;
  language : option string;
  branch : string;
  active : bool;
  activated : bool;
  totals : option CoverageTotals.t
}.
End Repository.

Module CommitReference.
Record t := mk {
  commitid : option string;
  branch : option string
}.
End CommitReference.

Module PullRequest.
Record t := mk {
  pullid : Z;
  title : option string;
  state : string;
  updatestamp : option string;
  author : option CommitAuthor.t;
  base : option CommitReference.t;
  head : option CommitReference.t
}.
End PullRequest.

Module PaginatedResponse.
Record t (T : Type) := mk {
  count : Z;
  next : option string;
  previous : option string;
  results : list T;
  total_pages : Z
}.
Arguments mk {T}.
Arguments count {T}.
Arguments next {T}.
Arguments previous {T}.
Arguments results {T}.
Arguments total_pages {T}.
End PaginatedResponse.

Module PatchTotals.
Record t := mk {
  hits : Z;
  misses : Z;
  partials : Z;
  coverage : option JS.number
}.
End PatchTotals.

Module FileStats.
Record t := mk { added : Z; removed : Z }.
End FileStats.

Module FileChangeSummary.
Record t := mk { hits : Z; misses : Z; partials : Z }.
End FileChangeSummary.

Module FileTotals.
Record t := mk {
  base : option CoverageTotals.t;
  head : option CoverageTotals.t;
  patch : option PatchTotals.t
}.
End FileTotals.

Module ComparisonFile.
Record t := mk {
  name : string;
  totals : FileTotals.t;
  has_diff : bool;
  stats : option FileStats.t;
  change_summary : option FileChangeSummary.t
}.
End ComparisonFile.

Module ComparisonTotals.
Record t := mk {
  base : option CoverageTotals.t;
  head : CoverageTotals.t;
  patch : option PatchTotals.t
}.
End ComparisonTotals.

Module CoverageComparison.
Record t := mk {
  base_commit : option string;
  head_commit : string;
  totals : ComparisonTotals.t;
  files : list ComparisonFile.t;
  untracked : list string;
  has_unmerged_base_commits : bool
}.
End CoverageComparison.

Module ApiErrorBody.
(** [interface CodecovApiError] of [types.ts]: the body of a failed
    response. *)
Record t := mk {
  detail : option string;
  message : option string
}.
End ApiErrorBody.

(** ** Exceptions and completions *)

Module AxiosError.
(** What [axios] throws: [response] is absent when no HTTP response was
    received (network failure, timeout). *)
Record response := mkResponse {
  status : Z;
  data : option ApiErrorBody.t
}.
Record t := mk {
  response_ : option response;
  message : string
}.
End AxiosError.

Module CodecovApiError.
(** [class CodecovApiError extends Error] *)
Record t := mk {
  message : string;
  statusCode : option Z;
  detail : option string
}.
End CodecovApiError.

Inductive exn :=
| Error (message : string)
| ApiError (e : CodecovApiError.t)
| Axios (e : AxiosError.t)
| NotAnError.

(** [error instanceof Error ? error.message : fallback] *)
Definition message_of (error : exn) (fallback : string) : string :=
  match error with
  | Error m => m
  | ApiError e => CodecovApiError.message e
  | Axios e => AxiosError.message e
  | NotAnError => fallback
  end.

Inductive completion (A : Type) :=
| Return (a : A)
| Throw (e : exn).
Arguments Return {A}.
Arguments Throw {A}.

(** Sequencing of code that may throw, and [arr.map(f)] for an [f] that
    may: the first throw, in the order of the array, ends the map. *)
#[global] Instance completion_ret : MRet completion := fun A a => Return a.
#[global] Instance completion_bind : MBind completion := fun A B k c =>
  match c with
  | Return a => k a
  | Throw e => Throw e
  end.

Fixpoint Array_map {A B} (f : A -> completion B) (l : list A)
    : completion (list B) :=
  match l with
  | [] => Return []
  | x :: l' =>
      match f x with
      | Return y =>
          match Array_map f l' with
          | Return ys => Return (y :: ys)
          | Throw e => Throw e
          end
      | Throw e => Throw e
      end
  end.

(** ** The process: environment, client slot, and the requests issued *)

Inductive param :=
| PString (s : string)
| PNumber (z : Z)
| PBoolean (b : bool).

Module Request.
Record t := mk {
  url : string;
  params : gmap string param
}.
End Request.

Module CodecovClient.
(** The instance state: the token of the [Authorization] header and the
    default service. *)
Record t := mk {
  apiToken : string;
  defaultService : string
}.
End CodecovClient.

Module World.
Record t := mk {
  CODECOV_API_TOKEN : option string;
  clientInstance : option CodecovClient.t;
  requests : list Request.t
}.
End World.

(** Code that reads or writes the process state and may throw. *)
Definition M (A : Type) : Type := World.t -> completion A * World.t.

#[global] Instance M_ret : MRet M := fun A a w => (Return a, w).
#[global] Instance M_bind : MBind M := fun A B k m w =>
  match m w with
  | (Return a, w') => k a w'
  | (Throw e, w') => (Throw e, w')
  end.
Definition throw {A} (e : exn) : M A := fun w => (Throw e, w).
Definition try_catch {A} (body : M A) (handler : exn -> M A) : M A :=
  fun w =>
    match body w with
    | (Return a, w') => (Return a, w')
    | (Throw e, w') => handler e w'
    end.

(** Truthiness of optional values, as [if (v)] and [v || d] read them. *)
Definition truthy_string (v : option string) : bool :=
  match v with
  | Some s => negb (String.eqb s "")
  | None => false
  end.
Definition truthy_number (v : option Z) : bool :=
  match v with
  | Some z => negb (z =? 0)%Z
  | None => false
  end.

(** [a || b] on optional strings, and [a || d] for a string [d]. *)
Definition or_string (a b : option string) : option string :=
  if truthy_string a then a else b.
Definition or_default (a : option string) (d : string) : string :=
  match a with
  | Some s => if truthy_string a then s else d
  | None => d
  end.

(** ** [src/services/codecov-client.ts] *)

Module Client.

(** [encodeURIComponent] on the UTF-8 bytes of a well-formed string:
    the unreserved characters stand for themselves, every other byte
    becomes [%XX]. *)
Definition hex_digit (n : N) : ascii :=
  match n with
  | 0 => "0" | 1 => "1" | 2 => "2" | 3 => "3" | 4 => "4" | 5 => "5"
  | 6 => "6" | 7 => "7" | 8 => "8" | 9 => "9" | 10 => "A" | 11 => "B"
  | 12 => "C" | 13 => "D" | 14 => "E" | _ => "F"
  end%N%char.

Definition unreserved (c : ascii) : bool :=
  let n := N_of_ascii c in
  ((65 <=? n) && (n <=? 90) || (97 <=? n) && (n <=? 122)
   || (48 <=? n) && (n <=? 57)
   || existsb (Ascii.eqb c)
        ["-"; "_"; "."; "!"; "~"; "*"; "'"; "("; ")"]%char)%N.

Fixpoint encodeURIComponent (s : string) : string :=
  match s with
  | EmptyString => ""
  | String c rest =>
      if unreserved c then String c (encodeURIComponent rest)
      else
        let n := N_of_ascii c in
        String "%" (String (hex_digit (n / 16)) (String (hex_digit (n mod 16))
                                                  (encodeURIComponent rest)))
  end.

(** [constructor(apiToken, defaultService = DEFAULT_SERVICE)];
    [axios.create] only records the configuration. *)
Definition new (apiToken : string) (defaultService : option string)
    : M CodecovClient.t :=
  if String.eqb apiToken "" then
    throw (Error "CODECOV_API_TOKEN is required. Set it as an environment variable.")
  else
    mret (CodecovClient.mk apiToken
            (default Constants.DEFAULT_SERVICE defaultService)).

(** [handleError(error): never]: the value it throws. *)
Definition handleError (error : exn) : exn :=
  match error with
  | Axios axiosError =>
      let status := AxiosError.status <$> AxiosError.response_ axiosError in
      let data := AxiosError.response_ axiosError ≫= AxiosError.data in
      let detail :=
        or_string (data ≫= ApiErrorBody.detail) (data ≫= ApiErrorBody.message) in
      if bool_decide (status = Some 401%Z) then
        ApiError (CodecovApiError.mk
          "Authentication failed. Check your CODECOV_API_TOKEN." status detail)
      else if bool_decide (status = Some 403%Z) then
        ApiError (CodecovApiError.mk
          "Access denied. You may not have permission to access this resource."
          status detail)
      else if bool_decide (status = Some 404%Z) then
        ApiError (CodecovApiError.mk
          "Resource not found. Check the owner, repo, or path." status detail)
      else if bool_decide (status = Some 429%Z) then
        ApiError (CodecovApiError.mk
          "Rate limit exceeded. Try again later." status detail)
      else
        ApiError (CodecovApiError.mk
          (or_default detail
             (or_default (Some (AxiosError.message axiosError)) "Unknown API error"))
          status detail)
  | Error message => ApiError (CodecovApiError.mk message None None)
  | ApiError e =>
      ApiError (CodecovApiError.mk (CodecovApiError.message e) None None)
  | NotAnError => ApiError (CodecovApiError.mk "Unknown error occurred" None None)
  end.

(** [service || this.defaultService] *)
Definition getService (this : CodecovClient.t) (service : option string) : string :=
  or_default service (CodecovClient.defaultService this).

(** [await this.client.get<T>(url, { params })]: the request goes out,
    and the backend answers with a body or the call throws. *)
Definition get {T} (backend : Request.t -> completion T)
    (url : string) (params : gmap string param) : M T :=
  fun w =>
    let request := Request.mk url params in
    (backend request,
     World.mk (World.CODECOV_API_TOKEN w) (World.clientInstance w)
              (World.requests w ++ [request])).

(** [if (v) params.key = v] for a string and for a number, and
    [if (v !== undefined) params.key = v] for a boolean. *)
Definition set_string (key : string) (v : option string)
    (params : gmap string param) : gmap string param :=
  match v with
  | Some s => if truthy_string v then <[key := PString s]> params else params
  | None => params
  end.
Definition set_number (key : string) (v : option Z)
    (params : gmap string param) : gmap string param :=
  match v with
  | Some z => if truthy_number v then <[key := PNumber z]> params else params
  | None => params
  end.
Definition set_defined_boolean (key : string) (v : option bool)
    (params : gmap string param) : gmap string param :=
  match v with
  | Some b => <[key := PBoolean b]> params
  | None => params
  end.

(** [if (names?.length) params.names = names.join(",")] *)
Definition set_names (names : option (list string))
    (params : gmap string param) : gmap string param :=
  match names with
  | Some names =>
      if (0 <? length names)%nat
      then <["names" := PString (JS.join "," names)]> params
      else params
  | None => params
  end.

(** [options?.pageSize || DEFAULT_PAGE_SIZE] *)
Definition page_size (pageSize : option Z) : Z :=
  match pageSize with
  | Some z => if truthy_number pageSize then z else Constants.DEFAULT_PAGE_SIZE
  | None => Constants.DEFAULT_PAGE_SIZE
  end.

Module ListRepositoriesOptions.
Record t := mk {
  service : option string;
  page : option Z;
  pageSize : option Z;
  active : option bool;
  names : option (list string)
}.
End ListRepositoriesOptions.

Definition listRepositories (this : CodecovClient.t)
    (backend : Request.t -> completion (PaginatedResponse.t Repository.t))
    (owner : string) (options : option ListRepositoriesOptions.t)
    : M (PaginatedResponse.t Repository.t) :=
  try_catch
    (let service := getService this (options ≫= ListRepositoriesOptions.service) in
     let params : gmap string param :=
       {[ "page_size" := PNumber (page_size (options ≫= ListRepositoriesOptions.pageSize)) ]} in
     let params := set_number "page" (options ≫= ListRepositoriesOptions.page) params in
     let params :=
       set_defined_boolean "active" (options ≫= ListRepositoriesOptions.active) params in
     let params := set_names (options ≫= ListRepositoriesOptions.names) params in
     get backend ("/" ++ service ++ "/" ++ owner ++ "/repos/") params)
    (fun error => throw (handleError error)).

Definition getRepository (this : CodecovClient.t)
    (backend : Request.t -> completion Repository.t)
    (owner repo : string) (service : option string) : M Repository.t :=
  try_catch
    (let svc := getService this service in
     get backend ("/" ++ svc ++ "/" ++ owner ++ "/repos/" ++ repo ++ "/") ∅)
    (fun error => throw (handleError error)).

Module RefOptions.
(** The options of [getCoverageTotals] and [getFileCoverage]. *)
Record t := mk {
  service : option string;
  sha : option string;
  branch : option string
}.
End RefOptions.

Definition getCoverageTotals (this : CodecovClient.t)
    (backend : Request.t -> completion TotalsResponse.t)
    (owner repo : string) (options : option RefOptions.t) : M TotalsResponse.t :=
  try_catch
    (let service := getService this (options ≫= RefOptions.service) in
     let params : gmap string param := ∅ in
     let params := set_string "sha" (options ≫= RefOptions.sha) params in
     let params := set_string "branch" (options ≫= RefOptions.branch) params in
     get backend ("/" ++ service ++ "/" ++ owner ++ "/repos/" ++ repo ++ "/totals/")
         params)
    (fun error => throw (handleError error)).

Definition getFileCoverage (this : CodecovClient.t)
    (backend : Request.t -> completion FileCoverageReport.t)
    (owner repo path : string) (options : option RefOptions.t)
    : M FileCoverageReport.t :=
  try_catch
    (let service := getService this (options ≫= RefOptions.service) in
     let params : gmap string param := ∅ in
     let params := set_string "sha" (options ≫= RefOptions.sha) params in
     let params := set_string "branch" (options ≫= RefOptions.branch) params in
     let encodedPath := encodeURIComponent path in
     get backend
         ("/" ++ service ++ "/" ++ owner ++ "/repos/" ++ repo ++ "/file_report/"
          ++ encodedPath ++ "/")
         params)
    (fun error => throw (handleError error)).

Module TreeOptions.
Record t := mk {
  service : option string;
  sha : option string;
  branch : option string;
  path : option string;
  depth : option Z
}.
End TreeOptions.

Definition getCoverageTree (this : CodecovClient.t)
    (backend : Request.t -> completion (list CoverageTreeNode.t))
    (owner repo : string) (options : option TreeOptions.t)
    : M (list CoverageTreeNode.t) :=
  try_catch
    (let service := getService this (options ≫= TreeOptions.service) in
     let params : gmap string param := ∅ in
     let params := set_string "sha" (options ≫= TreeOptions.sha) params in
     let params := set_string "branch" (options ≫= TreeOptions.branch) params in
     let params := set_string "path" (options ≫= TreeOptions.path) params in
     let params := set_number "depth" (options ≫= TreeOptions.depth) params in
     get backend ("/" ++ service ++ "/" ++ owner ++ "/repos/" ++ repo ++ "/report/tree")
         params)
    (fun error => throw (handleError error)).

Module CompareOptions.
Record t := mk {
  service : option string;
  base : option string;
  head : option string;
  pullid : option Z
}.
End CompareOptions.

Definition compareCoverage (this : CodecovClient.t)
    (backend : Request.t -> completion CoverageComparison.t)
    (owner repo : string) (options : CompareOptions.t) : M CoverageComparison.t :=
  try_catch
    (let service := getService this (CompareOptions.service options) in
     let params : gmap string param := ∅ in
     let params := set_string "base" (CompareOptions.base options) params in
     let params := set_string "head" (CompareOptions.head options) params in
     let params := set_number "pullid" (CompareOptions.pullid options) params in
     get backend ("/" ++ service ++ "/" ++ owner ++ "/repos/" ++ repo ++ "/compare/")
         params)
    (fun error => throw (handleError error)).

Module ListCommitsOptions.
Record t := mk {
  service : option string;
  page : option Z;
  pageSize : option Z;
  branch : option string
}.
End ListCommitsOptions.

Definition listCommits (this : CodecovClient.t)
    (backend : Request.t -> completion (PaginatedResponse.t Commit.t))
    (owner repo : string) (options : option ListCommitsOptions.t)
    : M (PaginatedResponse.t Commit.t) :=
  try_catch
    (let service := getService this (options ≫= ListCommitsOptions.service) in
     let params : gmap string param :=
       {[ "page_size" := PNumber (page_size (options ≫= ListCommitsOptions.pageSize)) ]} in
     let params := set_number "page" (options ≫= ListCommitsOptions.page) params in
     let params := set_string "branch" (options ≫= ListCommitsOptions.branch) params in
     get backend ("/" ++ service ++ "/" ++ owner ++ "/repos/" ++ repo ++ "/commits/")
         params)
    (fun error => throw (handleError error)).

Module ListPullRequestsOptions.
Record t := mk {
  service : option string;
  page : option Z;
  pageSize : option Z;
  state : option string
}.
End ListPullRequestsOptions.

Definition listPullRequests (this : CodecovClient.t)
    (backend : Request.t -> completion (PaginatedResponse.t PullRequest.t))
    (owner repo : string) (options : option ListPullRequestsOptions.t)
    : M (PaginatedResponse.t PullRequest.t) :=
  try_catch
    (let service := getService this (options ≫= ListPullRequestsOptions.service) in
     let params : gmap string param :=
       {[ "page_size" := PNumber (page_size (options ≫= ListPullRequestsOptions.pageSize)) ]} in
     let params := set_number "page" (options ≫= ListPullRequestsOptions.page) params in
     let params := set_string "state" (options ≫= ListPullRequestsOptions.state) params in
     get backend ("/" ++ service ++ "/" ++ owner ++ "/repos/" ++ repo ++ "/pulls/")
         params)
    (fun error => throw (handleError error)).

(** [getCodecovClient()]: the singleton slot [clientInstance] is filled
    on first use from [process.env.CODECOV_API_TOKEN]. *)
Definition getCodecovClient : M CodecovClient.t :=
  fun w =>
    match World.clientInstance w with
    | Some instance => (Return instance, w)
    | None =>
        let token := World.CODECOV_API_TOKEN w in
        if negb (truthy_string token) then
          (Throw (Error ("CODECOV_API_TOKEN environment variable is required. "
             ++ "Get your token from Codecov settings: Settings > Access > Generate Token")),
           w)
        else
          match new (default "" token) None w with
          | (Return instance, w') =>
              (Return instance,
               World.mk (World.CODECOV_API_TOKEN w') (Some instance)
                        (World.requests w'))
          | (Throw e, w') => (Throw e, w')
          end
    end.

End Client.

(** ** The tool handlers' common frame *)

Module Tool.

Record TextContent := mkText { type_ : string; text : string }.

Record Result := mkResult {
  content : list TextContent;
  isError : option bool
}.

(** [async (args) => { try { ...; return { content: [{ type: "text",
    text }] }; } catch (error) { ... } }]: [body] is what the [try]
    block computes, the text of the success result. *)
Definition handler (body : M string) (w : World.t) : Result * World.t :=
  match body w with
  | (Return text, w') => (mkResult [mkText "text" text] None, w')
  | (Throw error, w') =>
      let message := message_of error "Unknown error" in
      (mkResult [mkText "text" ("Error: " ++ message)] (Some true), w')
  end.

(** A summary that reads a property of [undefined] or of [null] throws
    a [TypeError]; the message is the one of V8. *)
Definition TypeError_toFixed : exn :=
  Error "Cannot read properties of undefined (reading 'toFixed')".

Definition TypeError_toFixed_null : exn :=
  Error "Cannot read properties of null (reading 'toFixed')".

Definition lift {A} (c : completion A) : M A := fun w => (c, w).

(** The result that the [catch] block returns for [message]. *)
Definition error_result (message : string) : Result :=
  mkResult [mkText "text" ("Error: " ++ message)] (Some true).

End Tool.

(** ** [src/tools/coverage.ts] *)

Module CoverageTools.

(** *** [codecov_get_coverage_totals] *)

Module TotalsSummary.
Record t := mk {
  coverage_percentage : string;
  lines_total : Z;
  lines_covered : Z;
  lines_missed : Z;
  lines_partial : Z;
  files_count : Z;
  branches : Z;
  methods : Z;
  complexity_total : Z;
  complexity_ratio : option string;
  commit_sha : string
}.
End TotalsSummary.

Definition totals_summary (result : TotalsResponse.t) : TotalsSummary.t :=
  let totals := TotalsResponse.totals result in
  TotalsSummary.mk
    (JS.plus ((fun c => JS.toFixed c 2)
                <$> JS.nullish (CoverageTotals.coverage totals)) "%")
    (CoverageTotals.lines totals)
    (CoverageTotals.hits totals)
    (CoverageTotals.misses totals)
    (CoverageTotals.partials totals)
    (CoverageTotals.files totals)
    (CoverageTotals.branches totals)
    (CoverageTotals.methods totals)
    (CoverageTotals.complexity_total totals)
    ((fun c => JS.toFixed c 2) <$> CoverageTotals.complexity_ratio totals)
    (TotalsResponse.commit_sha result).

Module TotalsArgs.
Record t := mk {
  owner : string;
  repo : string;
  service : option string;
  branch : option string;
  sha : option string
}.
End TotalsArgs.

Definition codecov_get_coverage_totals
    (JSON_stringify : TotalsSummary.t -> string)
    (backend : Request.t -> completion TotalsResponse.t)
    (args : TotalsArgs.t) : World.t -> Tool.Result * World.t :=
  Tool.handler
    (client ← Client.getCodecovClient;
     result ← Client.getCoverageTotals client backend
                (TotalsArgs.owner args) (TotalsArgs.repo args)
                (Some (Client.RefOptions.mk (TotalsArgs.service args)
                         (TotalsArgs.sha args) (TotalsArgs.branch args)));
     mret (JSON_stringify (totals_summary result))).

(** *** [codecov_get_file_coverage] *)


(** The three accumulators of the handler's loop over [line_coverage]. *)
Record classes := mkClasses {
  missedLines : list Z;
  coveredLines : list Z;
  partialLines : list Z
}.

Definition truthy (b : option bool) : bool :=
  match b with Some true => true | _ => false end.

(** One iteration of [for (const line of lineCoverage)]. *)
Definition classify_step (acc : classes) (line : LineCoverage.t) : classes :=
  match LineCoverage.coverage line with
  | None => acc
  | Some c =>
      if JS.is_zero c then
        mkClasses (missedLines acc ++ [LineCoverage.line_number line])
                  (coveredLines acc) (partialLines acc)
      else if JS.gt_zero c then
        if truthy (LineCoverage.is_partial_hit line) then
          mkClasses (missedLines acc) (coveredLines acc)
                    (partialLines acc ++ [LineCoverage.line_number line])
        else
          mkClasses (missedLines acc)
                    (coveredLines acc ++ [LineCoverage.line_number line])
                    (partialLines acc)
      else acc
  end.

Definition classify (lineCoverage : list LineCoverage.t) : classes :=
  fold_left classify_step lineCoverage (mkClasses [] [] []).

(** [start === end ? `${start}` : `${start}-${end}`] *)
Definition render_range (start end_ : Z) : string :=
  if (start =? end_)%Z then JS.String_of_integer start
  else JS.String_of_integer start ++ "-" ++ JS.String_of_integer end_.

(** The loop [for (let i = 1; i <= lines.length; i++)] of [groupLines],
    as a recursion on [lines.slice(i)]: the empty suffix is the last
    round, [i = lines.length], which pushes the open range. *)
Fixpoint groupLines_loop (rest : list Z) (start end_ : Z)
    (ranges : list string) : list string :=
  match rest with
  | [] => ranges ++ [render_range start end_]
  | x :: rest' =>
      if (x =? end_ + 1)%Z then groupLines_loop rest' start x ranges
      else groupLines_loop rest' x x (ranges ++ [render_range start end_])
  end.

Definition groupLines (lines : list Z) : string :=
  match lines with
  | [] => "none"
  | x :: rest => JS.join ", " (groupLines_loop rest x x [])
  end.


Module FileSummary.
Record t := mk {
  file : string;
  commit_sha : string;
  coverage_percentage : string;
  totals_lines : option Z;
  totals_hits : option Z;
  totals_misses : option Z;
  totals_partials : option Z;
  uncovered_lines : string;
  partial_lines : string;
  uncovered_line_count : nat;
  commit_file_url : string
}.
End FileSummary.

Definition file_summary (result : FileCoverageReport.t) : FileSummary.t :=
  let lineCoverage := default [] (FileCoverageReport.line_coverage result) in
  let cls := classify lineCoverage in
  FileSummary.mk
    (FileCoverageReport.name result)
    (FileCoverageReport.commit_sha result)
    (JS.plus ((fun c => JS.toFixed c 2)
                <$> JS.nullish (FileCoverageReport.totals result
                                ≫= CoverageTotals.coverage)) "%")
    (CoverageTotals.lines <$> FileCoverageReport.totals result)
    (CoverageTotals.hits <$> FileCoverageReport.totals result)
    (CoverageTotals.misses <$> FileCoverageReport.totals result)
    (CoverageTotals.partials <$> FileCoverageReport.totals result)
    (groupLines (missedLines cls))
    (groupLines (partialLines cls))
    (length (missedLines cls))
    (FileCoverageReport.commit_file_url result).

Module FileArgs.
Record t := mk {
  owner : string;
  repo : string;
  path : string;
  service : option string;
  branch : option string;
  sha : option string
}.
End FileArgs.

Definition codecov_get_file_coverage
    (JSON_stringify : FileSummary.t -> string)
    (backend : Request.t -> completion FileCoverageReport.t)
    (args : FileArgs.t) : World.t -> Tool.Result * World.t :=
  Tool.handler
    (client ← Client.getCodecovClient;
     result ← Client.getFileCoverage client backend
                (FileArgs.owner args) (FileArgs.repo args) (FileArgs.path args)
                (Some (Client.RefOptions.mk (FileArgs.service args)
                         (FileArgs.sha args) (FileArgs.branch args)));
     mret (JSON_stringify (file_summary result))).

(** *** [codecov_get_coverage_tree] *)

(** The two icons as the source file spells them, in UTF-8: U+011F
    U+0178 U+201C for a directory, and the same followed by U+201E for a
    file. *)
Definition icon_dir : string :=
  String (ascii_of_nat 196) (String (ascii_of_nat 159)
    (String (ascii_of_nat 197) (String (ascii_of_nat 184)
      (String (ascii_of_nat 226) (String (ascii_of_nat 128)
        (String (ascii_of_nat 156) "")))))).
Definition icon_file : string :=
  String (ascii_of_nat 196) (String (ascii_of_nat 159)
    (String (ascii_of_nat 197) (String (ascii_of_nat 184)
      (String (ascii_of_nat 226) (String (ascii_of_nat 128)
        (String (ascii_of_nat 156) (String (ascii_of_nat 226)
          (String (ascii_of_nat 128) (String (ascii_of_nat 158) ""))))))))).

(** [node.children && node.children.length > 0] *)
Definition isDir (node : CoverageTreeNode.t) : bool :=
  match CoverageTreeNode.children node with
  | Some children => (0 <? length children)%nat
  | None => false
  end.

(** The first line of [formatNode(node, depth)], before the children are
    appended. *)
Definition node_line (node : CoverageTreeNode.t) (depth : nat) : string :=
  let indent := JS.repeat "  " depth in
  let coverage :=
    default "N/A" ((fun c => JS.toFixed c 1) <$> CoverageTreeNode.coverage node) in
  let icon := if isDir node then icon_dir else icon_file in
  indent ++ icon ++ " " ++ CoverageTreeNode.name node ++ " - " ++ coverage
    ++ "% (" ++ JS.String_of_integer (CoverageTreeNode.hits node) ++ "/"
    ++ JS.String_of_integer (CoverageTreeNode.lines node) ++ " lines)".

Fixpoint formatNode (node : CoverageTreeNode.t) (depth : nat) : string :=
  let line := node_line node depth in
  match CoverageTreeNode.children node with
  | Some children =>
      if (0 <? length children)%nat then
        (fix each (children : list CoverageTreeNode.t) (line : string) : string :=
           match children with
           | [] => line
           | child :: rest =>
               each rest (line ++ String "010" (formatNode child (S depth)))
           end) children line
      else line
  | None => line
  end.

Definition format_tree (result : list CoverageTreeNode.t) : string :=
  fold_left (fun formatted node => formatted ++ formatNode node 0 ++ String "010" "")
            result ("Coverage Tree:" ++ String "010" (String "010" "")).

Module TreeArgs.
Record t := mk {
  owner : string;
  repo : string;
  service : option string;
  branch : option string;
  sha : option string;
  path : option string;
  depth : option Z
}.
End TreeArgs.

Definition codecov_get_coverage_tree
    (backend : Request.t -> completion (list CoverageTreeNode.t))
    (args : TreeArgs.t) : World.t -> Tool.Result * World.t :=
  Tool.handler
    (client ← Client.getCodecovClient;
     result ← Client.getCoverageTree client backend
                (TreeArgs.owner args) (TreeArgs.repo args)
                (Some (Client.TreeOptions.mk (TreeArgs.service args)
                         (TreeArgs.sha args) (TreeArgs.branch args)
                         (TreeArgs.path args) (TreeArgs.depth args)));
     mret (format_tree result)).

End CoverageTools.

(** ** [src/tools/repository.ts] *)

Module RepositoryTools.

Module PageInfo.
Record t := mk {
  has_next : bool;
  has_previous : bool;
  total_pages : Z
}.
End PageInfo.

(** [!!result.next], [!!result.previous] *)
Definition page_info {T} (result : PaginatedResponse.t T) : PageInfo.t :=
  PageInfo.mk (truthy_string (PaginatedResponse.next result))
              (truthy_string (PaginatedResponse.previous result))
              (PaginatedResponse.total_pages result).

(** [x.totals?.coverage !== undefined ? x.totals.coverage.toFixed(2) + "%"
    : "N/A"]: a [null] coverage passes the test, and reading [toFixed]
    off it throws. *)
Definition coverage_or_NA (totals : option CoverageTotals.t) : completion string :=
  match totals ≫= CoverageTotals.coverage with
  | Some (JS.just c) => Return (JS.toFixed c 2 ++ "%")
  | Some JS.null => Throw Tool.TypeError_toFixed_null
  | None => Return "N/A"
  end.

(** *** [codecov_list_repositories] *)

Module RepoEntry.
Record t := mk {
  name : string;
  active : bool;
  language : option string;
  default_branch : string;
  coverage : string;
  last_updated : option string
}.
End RepoEntry.

Module ReposSummary.
Record t := mk {
  total_count : Z;
  page_info : PageInfo.t;
  repositories : list RepoEntry.t
}.
End ReposSummary.

(** The body of [result.results.map((repo) => ...)]. *)
Definition repo_entry (repo : Repository.t) : completion RepoEntry.t :=
  coverage ← coverage_or_NA (Repository.totals repo);
  mret (RepoEntry.mk (Repository.name repo) (Repository.active repo)
                     (Repository.language repo) (Repository.branch repo)
                     coverage
                     (Repository.updatestamp repo)).

Definition repos_summary (result : PaginatedResponse.t Repository.t)
    : completion ReposSummary.t :=
  repos ← Array_map repo_entry (PaginatedResponse.results result);
  mret (ReposSummary.mk (PaginatedResponse.count result) (page_info result)
                        repos).

Module ListReposArgs.
Record t := mk {
  owner : string;
  service : option string;
  page : option Z;
  page_size : option Z;
  active : option bool;
  names : option (list string)
}.
End ListReposArgs.

Definition codecov_list_repositories
    (JSON_stringify : ReposSummary.t -> string)
    (backend : Request.t -> completion (PaginatedResponse.t Repository.t))
    (args : ListReposArgs.t) : World.t -> Tool.Result * World.t :=
  Tool.handler
    (client ← Client.getCodecovClient;
     result ← Client.listRepositories client backend (ListReposArgs.owner args)
                (Some (Client.ListRepositoriesOptions.mk
                         (ListReposArgs.service args) (ListReposArgs.page args)
                         (ListReposArgs.page_size args) (ListReposArgs.active args)
                         (ListReposArgs.names args)));
     summary ← Tool.lift (repos_summary result);
     mret (JSON_stringify summary)).

(** *** [codecov_list_commits] *)

Module CommitEntry.
Record t := mk {
  sha : string;
  short_sha : string;
  message : option string;
  branch : option string;
  author : string;
  timestamp : string;
  ci_passed : option bool;
  state : string;
  coverage : string
}.
End CommitEntry.

Module CommitsSummary.
Record t := mk {
  total_count : Z;
  page_info : PageInfo.t;
  commits : list CommitEntry.t
}.
End CommitsSummary.

(** [x.author?.username ?? x.author?.name ?? "Unknown"] *)
Definition author_name (author : option CommitAuthor.t) : string :=
  match author ≫= CommitAuthor.username with
  | Some username => username
  | None => default "Unknown" (author ≫= CommitAuthor.name)
  end.

(** The body of [result.results.map((commit) => ...)]. *)
Definition commit_entry (commit : Commit.t) : completion CommitEntry.t :=
  coverage ← coverage_or_NA (Commit.totals commit);
  mret (CommitEntry.mk
          (Commit.commitid commit)
          (JS.substring0 7 (Commit.commitid commit))
          (Commit.message commit ≫= fun m => JS.split "010" m !! 0%nat)
          (Commit.branch commit)
          (author_name (Commit.author commit))
          (Commit.timestamp commit)
          (Commit.ci_passed commit)
          (Commit.state commit)
          coverage).

Definition commits_summary (result : PaginatedResponse.t Commit.t)
    : completion CommitsSummary.t :=
  commits ← Array_map commit_entry (PaginatedResponse.results result);
  mret (CommitsSummary.mk (PaginatedResponse.count result) (page_info result)
                          commits).

Module ListCommitsArgs.
Record t := mk {
  owner : string;
  repo : string;
  service : option string;
  branch : option string;
  page : option Z;
  page_size : option Z
}.
End ListCommitsArgs.

Definition codecov_list_commits
    (JSON_stringify : CommitsSummary.t -> string)
    (backend : Request.t -> completion (PaginatedResponse.t Commit.t))
    (args : ListCommitsArgs.t) : World.t -> Tool.Result * World.t :=
  Tool.handler
    (client ← Client.getCodecovClient;
     result ← Client.listCommits client backend
                (ListCommitsArgs.owner args) (ListCommitsArgs.repo args)
                (Some (Client.ListCommitsOptions.mk
                         (ListCommitsArgs.service args) (ListCommitsArgs.page args)
                         (ListCommitsArgs.page_size args)
                         (ListCommitsArgs.branch args)));
     summary ← Tool.lift (commits_summary result);
     mret (JSON_stringify summary)).

(** *** [codecov_get_repository] *)

Module RepoCoverage.
Record t := mk {
  percentage : string;
  lines : Z;
  hits : Z;
  misses : Z;
  files : Z
}.
End RepoCoverage.

Module RepoSummary.
(** [coverage]: [inr] is the literal text put in place of the object. *)
Record t := mk {
  name : string;
  active : bool;
  activated : bool;
  private : bool;
  language : option string;
  default_branch : string;
  owner_username : string;
  owner_service : string;
  coverage : RepoCoverage.t + string;
  last_updated : option string
}.
End RepoSummary.

Definition repo_summary (result : Repository.t) : RepoSummary.t :=
  RepoSummary.mk
    (Repository.name result) (Repository.active result)
    (Repository.activated result) (Repository.private result)
    (Repository.language result) (Repository.branch result)
    (Repository.author_username result) (Repository.author_service result)
    match Repository.totals result with
    | Some totals =>
        inl (RepoCoverage.mk
               (JS.plus ((fun c => JS.toFixed c 2)
                           <$> JS.nullish (CoverageTotals.coverage totals)) "%")
               (CoverageTotals.lines totals) (CoverageTotals.hits totals)
               (CoverageTotals.misses totals) (CoverageTotals.files totals))
    | None => inr "No coverage data available"
    end
    (Repository.updatestamp result).

Module RepoArgs.
Record t := mk {
  owner : string;
  repo : string;
  service : option string
}.
End RepoArgs.

Definition codecov_get_repository
    (JSON_stringify : RepoSummary.t -> string)
    (backend : Request.t -> completion Repository.t)
    (args : RepoArgs.t) : World.t -> Tool.Result * World.t :=
  Tool.handler
    (client ← Client.getCodecovClient;
     result ← Client.getRepository client backend
                (RepoArgs.owner args) (RepoArgs.repo args) (RepoArgs.service args);
     mret (JSON_stringify (repo_summary result))).

(** *** [codecov_list_pulls] *)

Module RefEntry.
Record t := mk {
  branch : option string;
  commit : option string
}.
End RefEntry.

Module PullEntry.
Record t := mk {
  id : Z;
  title : option string;
  state : string;
  author : string;
  base : option RefEntry.t;
  head : option RefEntry.t;
  last_updated : option string
}.
End PullEntry.

Module PullsSummary.
Record t := mk {
  total_count : Z;
  page_info : PageInfo.t;
  pull_requests : list PullEntry.t
}.
End PullsSummary.

Definition ref_entry (ref : CommitReference.t) : RefEntry.t :=
  RefEntry.mk (CommitReference.branch ref)
              (JS.substring0 7 <$> CommitReference.commitid ref).

Definition pull_entry (pr : PullRequest.t) : PullEntry.t :=
  PullEntry.mk (PullRequest.pullid pr) (PullRequest.title pr)
               (PullRequest.state pr) (author_name (PullRequest.author pr))
               (ref_entry <$> PullRequest.base pr)
               (ref_entry <$> PullRequest.head pr)
               (PullRequest.updatestamp pr).

Definition pulls_summary (result : PaginatedResponse.t PullRequest.t)
    : PullsSummary.t :=
  PullsSummary.mk (PaginatedResponse.count result) (page_info result)
                  (map pull_entry (PaginatedResponse.results result)).

Module ListPullsArgs.
Record t := mk {
  owner : string;
  repo : string;
  service : option string;
  page : option Z;
  page_size : option Z;
  state : option string
}.
End ListPullsArgs.

Definition codecov_list_pulls
    (JSON_stringify : PullsSummary.t -> string)
    (backend : Request.t -> completion (PaginatedResponse.t PullRequest.t))
    (args : ListPullsArgs.t) : World.t -> Tool.Result * World.t :=
  Tool.handler
    (client ← Client.getCodecovClient;
     result ← Client.listPullRequests client backend
                (ListPullsArgs.owner args) (ListPullsArgs.repo args)
                (Some (Client.ListPullRequestsOptions.mk
                         (ListPullsArgs.service args) (ListPullsArgs.page args)
                         (ListPullsArgs.page_size args) (ListPullsArgs.state args)));
     mret (JSON_stringify (pulls_summary result))).

End RepositoryTools.

(** ** [src/tools/comparison.ts] *)

Module ComparisonTools.

Module PatchEntry.
Record t := mk {
  coverage : string;
  hits : Z;
  misses : Z
}.
End PatchEntry.

Module ChangedFile.
Record t := mk {
  name : string;
  base_coverage : string;
  head_coverage : string;
  change : string;
  patch : option PatchEntry.t;
  lines_added : Z;
  lines_removed : Z
}.
End ChangedFile.

(** [change !== null ? (change >= 0 ? "+" : "") + change.toFixed(2) + "%"
    : "N/A"] *)
Definition render_change (change : option JS.number) : string :=
  match change with
  | Some change =>
      (if JS.ge_zero change then "+" else "") ++ JS.toFixed change 2 ++ "%"
  | None => "N/A"
  end.

(** [v !== undefined ? v.toFixed(2) + "%" : "N/A"]: a [null] passes the
    test, and reading [toFixed] off it throws. *)
Definition render_percentage (v : option (JS.nullable JS.number))
    : completion string :=
  match v with
  | Some (JS.just v) => Return (JS.toFixed v 2 ++ "%")
  | Some JS.null => Throw Tool.TypeError_toFixed_null
  | None => Return "N/A"
  end.

(** [.filter((f) => f.has_diff || f.change_summary)] *)
Definition is_changed (f : ComparisonFile.t) : bool :=
  ComparisonFile.has_diff f
  || match ComparisonFile.change_summary f with Some _ => true | None => false end.

(** The per-file delta: [baseCov !== undefined && headCov !== undefined
    ? headCov - baseCov : null]. A [null] passes the test and counts as
    [0] in the subtraction. *)
Definition file_change (file : ComparisonFile.t) : option JS.number :=
  let baseCov := FileTotals.base (ComparisonFile.totals file) ≫= CoverageTotals.coverage in
  let headCov := FileTotals.head (ComparisonFile.totals file) ≫= CoverageTotals.coverage in
  match baseCov, headCov with
  | Some baseCov, Some headCov =>
      Some (JS.minus (JS.Number headCov) (JS.Number baseCov))
  | _, _ => None
  end.

(** The body of [.map((file) => ...)]. *)
Definition changed_file (file : ComparisonFile.t) : completion ChangedFile.t :=
  let baseCov := FileTotals.base (ComparisonFile.totals file) ≫= CoverageTotals.coverage in
  let headCov := FileTotals.head (ComparisonFile.totals file) ≫= CoverageTotals.coverage in
  let change := file_change file in
  base_coverage ← render_percentage baseCov;
  head_coverage ← render_percentage headCov;
  mret (ChangedFile.mk
    (ComparisonFile.name file)
    base_coverage
    head_coverage
    (render_change change)
    ((fun patch =>
        PatchEntry.mk
          (JS.plus ((fun c => JS.toFixed c 2) <$> PatchTotals.coverage patch) "%")
          (PatchTotals.hits patch) (PatchTotals.misses patch))
       <$> FileTotals.patch (ComparisonFile.totals file))
    (default 0%Z (FileStats.added <$> ComparisonFile.stats file))
    (default 0%Z (FileStats.removed <$> ComparisonFile.stats file))).

(** [parseFloat(a.change) || 0] *)
Definition sort_key (a : ChangedFile.t) : JS.number :=
  JS.or_zero (JS.parseFloat (ChangedFile.change a)).

(** The comparator of [changedFiles.sort]. *)
Definition by_change (a b : ChangedFile.t) : JS.number :=
  let aChange := sort_key a in
  let bChange := sort_key b in
  JS.minus aChange bChange.

(** [changedFiles] after the in-place sort. *)
Definition changedFiles (result : CoverageComparison.t)
    : completion (list ChangedFile.t) :=
  changedFiles ←
    Array_map changed_file
      (List.filter is_changed (CoverageComparison.files result));
  mret (JS.Array_sort by_change changedFiles).

Module PatchCoverage.
Record t := mk {
  percentage : string;
  hits : Z;
  misses : Z;
  partials : Z
}.
End PatchCoverage.

Module Summary.
(** [patch_coverage]: [inr] is the literal text put in place of the
    object. *)
Record t := mk {
  base_commit : string;
  head_commit : string;
  coverage_totals_base : string;
  coverage_totals_head : string;
  coverage_totals_change : string;
  patch_coverage : PatchCoverage.t + string;
  files_changed : nat;
  untracked_files : nat;
  has_unmerged_base_commits : bool;
  changed_files : list ChangedFile.t
}.
End Summary.

(** The summary object. [baseCoverage] is [result.totals.base?.coverage
    ?? null]; reading [toFixed] off a head percentage that is [undefined]
    or [null] throws (the [coverageChange] computed from it before is
    then never used). *)
Definition summary (result : CoverageComparison.t) : completion Summary.t :=
  let baseCoverage :=
    JS.nullish (ComparisonTotals.base (CoverageComparison.totals result)
                ≫= CoverageTotals.coverage) in
  let headCoverage :=
    CoverageTotals.coverage (ComparisonTotals.head (CoverageComparison.totals result)) in
  changedFiles ← changedFiles result;
  match headCoverage with
  | None => Throw Tool.TypeError_toFixed
  | Some JS.null => Throw Tool.TypeError_toFixed_null
  | Some (JS.just headCoverage) =>
      let coverageChange :=
        match baseCoverage with
        | Some baseCoverage => Some (JS.minus headCoverage baseCoverage)
        | None => None
        end in
      Return (Summary.mk
        (default "N/A" (JS.substring0 7 <$> CoverageComparison.base_commit result))
        (JS.substring0 7 (CoverageComparison.head_commit result))
        match baseCoverage with
        | Some baseCoverage => JS.toFixed baseCoverage 2 ++ "%"
        | None => "N/A"
        end
        (JS.toFixed headCoverage 2 ++ "%")
        (render_change coverageChange)
        match ComparisonTotals.patch (CoverageComparison.totals result) with
        | Some patch =>
            inl (PatchCoverage.mk
                   (JS.plus ((fun c => JS.toFixed c 2) <$> PatchTotals.coverage patch) "%")
                   (PatchTotals.hits patch) (PatchTotals.misses patch)
                   (PatchTotals.partials patch))
        | None => inr "No patch coverage data"
        end
        (length changedFiles)
        (length (CoverageComparison.untracked result))
        (CoverageComparison.has_unmerged_base_commits result)
        (JS.slice0 20 changedFiles))
  end.

(** U+26A0 U+FE0F in UTF-8. *)
Definition warning_sign : string :=
  String (ascii_of_nat 226) (String (ascii_of_nat 154) (String (ascii_of_nat 160)
    (String (ascii_of_nat 239) (String (ascii_of_nat 184)
      (String (ascii_of_nat 143) ""))))).

Definition untracked_header : string :=
  String "010" (String "010" (warning_sign
    ++ " Untracked files (new files without coverage):" ++ String "010" "")).

(** What the handler appends to [JSON.stringify(summary, null, 2)]. *)
Definition untracked_warning (untracked : list string) : string :=
  if (0 <? length untracked)%nat then
    untracked_header ++ JS.join (String "010" "") (JS.slice0 10 untracked)
    ++ (if (10 <? length untracked)%nat then
          String "010" "... and "
          ++ JS.String_of_integer (Z.of_nat (length untracked) - 10) ++ " more"
        else "")
  else "".

Definition compare_text (JSON_stringify : Summary.t -> string)
    (result : CoverageComparison.t) : completion string :=
  match summary result with
  | Return summary =>
      Return (JSON_stringify summary
              ++ untracked_warning (CoverageComparison.untracked result))
  | Throw e => Throw e
  end.

Module CompareArgs.
Record t := mk {
  owner : string;
  repo : string;
  service : option string;
  base : option string;
  head : option string;
  pullid : option Z
}.
End CompareArgs.

Definition codecov_compare_coverage
    (JSON_stringify : Summary.t -> string)
    (backend : Request.t -> completion CoverageComparison.t)
    (args : CompareArgs.t) : World.t -> Tool.Result * World.t :=
  Tool.handler
    (client ← Client.getCodecovClient;
     result ← Client.compareCoverage client backend
                (CompareArgs.owner args) (CompareArgs.repo args)
                (Client.CompareOptions.mk
                   (CompareArgs.service args) (CompareArgs.base args)
                   (CompareArgs.head args) (CompareArgs.pullid args));
     Tool.lift (compare_text JSON_stringify result)).

End ComparisonTools.

(** ** Line classes and ranges, as the specification words them *)

Module LineSpec.

(** The three classes of a per-line entry. *)
Definition is_missed (l : LineCoverage.t) : bool :=
  match LineCoverage.coverage l with
  | Some c => Qeq_bool c 0
  | None => false
  end.

Definition is_hit (l : LineCoverage.t) : bool :=
  match LineCoverage.coverage l with
  | Some c => negb (Qle_bool c 0)
  | None => false
  end.

Definition flagged_partial (l : LineCoverage.t) : bool :=
  bool_decide (LineCoverage.is_partial_hit l = Some true).

Definition is_partial (l : LineCoverage.t) : bool :=
  is_hit l && flagged_partial l.

Definition is_covered (l : LineCoverage.t) : bool :=
  is_hit l && negb (flagged_partial l).

(** An inclusive range and the integers it stands for. *)
Definition range : Type := Z * Z.

Definition well_formed (r : range) : Prop := (fst r <= snd r)%Z.

Definition expand (r : range) : list Z :=
  seqZ (fst r) (snd r - fst r + 1).

Definition expand_all (rs : list range) : list Z := concat (map expand rs).

(** Singletons render as ["start"], longer ranges as ["start-end"]. *)
Definition render (r : range) : string :=
  if (fst r =? snd r)%Z then JS.String_of_integer (fst r)
  else JS.String_of_integer (fst r) ++ "-" ++ JS.String_of_integer (snd r).

Definition render_all (rs : list range) : string :=
  match rs with
  | [] => "none"
  | _ => String.concat ", " (map render rs)
  end.

(** The maximal runs of consecutive integers of a sequence. *)
Fixpoint runs_from (lo hi : Z) (rest : list Z) : list range :=
  match rest with
  | [] => [(lo, hi)]
  | x :: rest' =>
      if (x =? hi + 1)%Z then runs_from lo x rest'
      else (lo, hi) :: runs_from x x rest'
  end.

Definition runs (S : list Z) : list range :=
  match S with
  | [] => []
  | x :: rest => runs_from x x rest
  end.

(** The places of a sequence where the next integer is not the
    successor. *)
Fixpoint breaks (S : list Z) : nat :=
  match S with
  | x :: ((y :: _) as rest) =>
      (if (y =? x + 1)%Z then 0 else 1) + breaks rest
  | _ => 0
  end.

(** Two neighbouring ranges leave a gap: they can be neither merged nor
    reordered. *)
Definition apart (r1 r2 : range) : Prop := (snd r1 + 1 < fst r2)%Z.

End LineSpec.

(** ** The numbers of binary64 *)

Module Binary64Spec.

(** The values of binary64: a mantissa of at most 53 bits at an exponent
    from -1074 on, a full mantissa above the lowest exponent. *)
Definition representable (x : Q) : Prop :=
  exists m e : Z,
    (x == inject_Z m * JS.pow2 e)%Q
    /\ (Z.abs m <= 2 ^ 53)%Z /\ (-1074 <= e)%Z
    /\ (e = (-1074)%Z \/ (2 ^ 52 <= Z.abs m)%Z).

(** The multiples of the least positive value. *)
Definition on_grid (x : Q) : Prop :=
  exists z : Z, (x == inject_Z z * JS.pow2 (-1074))%Q.

End Binary64Spec.

(** ** The shape of a rendered number, as the specification words it *)

Module Format.

Definition all_digits (s : string) : bool :=
  forallb JS.is_digit (list_ascii_of_string s).

(** [digits.digits] with exactly [f] digits after the point. *)
Definition fixed_point (f : nat) (s : string) : Prop :=
  exists a b : string,
    s = a ++ "." ++ b /\ a <> "" /\ all_digits a = true
    /\ all_digits b = true /\ String.length b = f.

Definition starts_with (c : ascii) (s : string) : Prop :=
  exists rest : string, s = String c rest.

(** The digits that [toFixed] cuts in two, zeros added on the left up to
    [f + 1] characters. *)
Definition padded (n : Z) (f : nat) : string :=
  let m := JS.String_of_integer n in
  let k := String.length m in
  if (k <=? f)%nat then JS.repeat "0" (f + 1 - k) ++ m else m.

(** [x] rounded to [f] decimals, halves away from zero. *)
Definition units (x : Q) (f : nat) : Z :=
  Qfloor (Qabs x * inject_Z (10 ^ Z.of_nat f) + (1 # 2)).

Definition rounded (x : Q) (f : nat) : Q :=
  (if Qle_bool 0 x then 1 else -1) * inject_Z (units x f)
  / inject_Z (10 ^ Z.of_nat f).

End Format.

(** ** The coverage delta, as the specification words it *)

Module DeltaSpec.

(** Head minus base, in exact arithmetic. *)
Definition delta (base head : Q) : Q := (head - base)%Q.

(** [x] is [y] up to the relative error of one rounding to binary64. *)
Definition rounds (x y : Q) : Prop :=
  (Qabs (x - y) <= Qabs y * JS.pow2 (-53))%Q.

(** [s] renders the delta [d]: a sign, ["+"] for a delta that is [>= 0],
    then digits with exactly two decimals, whose value is [d] rounded to
    hundredths (a half away from zero), then ["%"]. *)
Definition renders (d : Q) (s : string) : Prop :=
  exists a b : string,
    s = (if Qle_bool 0 d then "+" else "-") ++ a ++ "." ++ b ++ "%"
    /\ a <> "" /\ Format.all_digits a = true /\ Format.all_digits b = true
    /\ String.length b = 2%nat
    /\ JS.digits_value 0 (a ++ b) = Format.units d 2.

(** A coverage that is [null]. *)
Definition is_null (v : option (JS.nullable JS.number)) : bool :=
  match v with
  | Some JS.null => true
  | _ => false
  end.

(** A file of the comparison with a [null] base or head coverage. *)
Definition has_null (file : ComparisonFile.t) : bool :=
  is_null (FileTotals.base (ComparisonFile.totals file) ≫= CoverageTotals.coverage)
  || is_null (FileTotals.head (ComparisonFile.totals file) ≫= CoverageTotals.coverage).

End DeltaSpec.

(** ** The ranking of changed files, as the specification words it *)

Module RankingSpec.

(** The delta of a file, [0] when it cannot be computed. *)
Definition delta_or_zero (f : ComparisonFile.t) : Q :=
  default 0%Q (ComparisonTools.file_change f).

(** The delta of a file as its [change] field displays it: rounded to
    two decimals, [0] for ["N/A"]. *)
Definition displayed_delta (f : ComparisonFile.t) : Q :=
  match ComparisonTools.file_change f with
  | Some d => Format.rounded d 2
  | None => 0%Q
  end.

(** The number that the comparator of the sort reads back from the
    [change] field: the displayed delta as a binary64 number. *)
Definition compared_delta (f : ComparisonFile.t) : Q :=
  JS.binary64 (displayed_delta f).

(** A delta of moderate size, as every difference of two percentages
    is. *)
Definition moderate (f : ComparisonFile.t) : Prop :=
  (Qabs (delta_or_zero f) <= inject_Z (10 ^ 13))%Q.

(** [out] lists the changed files of [files] in ascending order of
    [measure]. *)
Definition ranked_by (measure : ComparisonFile.t -> Q)
    (files : list ComparisonFile.t) (out : list ComparisonTools.ChangedFile.t)
    : Prop :=
  exists ranked : list ComparisonFile.t,
    Array_map ComparisonTools.changed_file ranked = Return out
    /\ Permutation ranked (List.filter ComparisonTools.is_changed files)
    /\ Sorted (fun f g => (measure f <= measure g)%Q) ranked.

End RankingSpec.

(** ** The operation registry: the eight tools that [index.ts] registers *)

Module Registry.

(** One invocation: the tool, the serializer and the backend it runs
    against, and its validated input. *)
Inductive invocation :=
| codecov_get_coverage_totals
    (JSON_stringify : CoverageTools.TotalsSummary.t -> string)
    (backend : Request.t -> completion TotalsResponse.t)
    (args : CoverageTools.TotalsArgs.t)
| codecov_get_file_coverage
    (JSON_stringify : CoverageTools.FileSummary.t -> string)
    (backend : Request.t -> completion FileCoverageReport.t)
    (args : CoverageTools.FileArgs.t)
| codecov_get_coverage_tree
    (backend : Request.t -> completion (list CoverageTreeNode.t))
    (args : CoverageTools.TreeArgs.t)
| codecov_list_repositories
    (JSON_stringify : RepositoryTools.ReposSummary.t -> string)
    (backend : Request.t -> completion (PaginatedResponse.t Repository.t))
    (args : RepositoryTools.ListReposArgs.t)
| codecov_get_repository
    (JSON_stringify : RepositoryTools.RepoSummary.t -> string)
    (backend : Request.t -> completion Repository.t)
    (args : RepositoryTools.RepoArgs.t)
| codecov_list_commits
    (JSON_stringify : RepositoryTools.CommitsSummary.t -> string)
    (backend : Request.t -> completion (PaginatedResponse.t Commit.t))
    (args : RepositoryTools.ListCommitsArgs.t)
| codecov_list_pulls
    (JSON_stringify : RepositoryTools.PullsSummary.t -> string)
    (backend : Request.t -> completion (PaginatedResponse.t PullRequest.t))
    (args : RepositoryTools.ListPullsArgs.t)
| codecov_compare_coverage
    (JSON_stringify : ComparisonTools.Summary.t -> string)
    (backend : Request.t -> completion CoverageComparison.t)
    (args : ComparisonTools.CompareArgs.t).

Definition run (i : invocation) : World.t -> Tool.Result * World.t :=
  match i with
  | codecov_get_coverage_totals s b a => CoverageTools.codecov_get_coverage_totals s b a
  | codecov_get_file_coverage s b a => CoverageTools.codecov_get_file_coverage s b a
  | codecov_get_coverage_tree b a => CoverageTools.codecov_get_coverage_tree b a
  | codecov_list_repositories s b a => RepositoryTools.codecov_list_repositories s b a
  | codecov_get_repository s b a => RepositoryTools.codecov_get_repository s b a
  | codecov_list_commits s b a => RepositoryTools.codecov_list_commits s b a
  | codecov_list_pulls s b a => RepositoryTools.codecov_list_pulls s b a
  | codecov_compare_coverage s b a => ComparisonTools.codecov_compare_coverage s b a
  end.

(** A session: invocations served one after the other by one process. *)
Fixpoint run_all (session : list invocation) (w : World.t)
    : list Tool.Result * World.t :=
  match session with
  | [] => ([], w)
  | i :: rest =>
      let (result, w1) := run i w in
      let (results, w2) := run_all rest w1 in
      (result :: results, w2)
  end.

(** The backend fails the request of the invocation with [e]. *)
Definition backend_throws (i : invocation) (e : exn) : Prop :=
  match i with
  | codecov_get_coverage_totals _ b _ => forall request, b request = Throw e
  | codecov_get_file_coverage _ b _ => forall request, b request = Throw e
  | codecov_get_coverage_tree b _ => forall request, b request = Throw e
  | codecov_list_repositories _ b _ => forall request, b request = Throw e
  | codecov_get_repository _ b _ => forall request, b request = Throw e
  | codecov_list_commits _ b _ => forall request, b request = Throw e
  | codecov_list_pulls _ b _ => forall request, b request = Throw e
  | codecov_compare_coverage _ b _ => forall request, b request = Throw e
  end.

(** What [handleError] throws is a [CodecovApiError]: its fields. *)
Definition classified (error : exn) : CodecovApiError.t :=
  match Client.handleError error with
  | ApiError e => e
  | _ => CodecovApiError.mk "" None None
  end.

(** An [axios] failure that carries an HTTP response. *)
Definition http_failure (status : Z) (body : option ApiErrorBody.t)
    (message : string) : exn :=
  Axios (AxiosError.mk (Some (AxiosError.mkResponse status body)) message).

(** [detail || message] of the failed response's body. *)
Definition backend_detail (body : option ApiErrorBody.t) : option string :=
  or_string (body ≫= ApiErrorBody.detail) (body ≫= ApiErrorBody.message).

End Registry.

(** ** Query parameters, as the specification words them *)

Module QuerySpec.

(** What is sent for an optional value: nothing for an omitted one, and
    nothing for a supplied one that is zero, empty, or an empty array. *)
Definition sent_number (v : option Z) : option param :=
  match v with
  | Some z => if (z =? 0)%Z then None else Some (PNumber z)
  | None => None
  end.

Definition sent_string (v : option string) : option param :=
  match v with
  | Some s => if String.eqb s "" then None else Some (PString s)
  | None => None
  end.

Definition sent_boolean (v : option bool) : option param := PBoolean <$> v.

Definition sent_names (v : option (list string)) : option param :=
  match v with
  | Some (name :: names) => Some (PString (String.concat "," (name :: names)))
  | _ => None
  end.

(** The page size that goes out. *)
Definition sent_page_size (v : option Z) : Z :=
  match v with
  | Some z => if (z =? 0)%Z then Constants.DEFAULT_PAGE_SIZE else z
  | None => Constants.DEFAULT_PAGE_SIZE
  end.

(** [m] issues exactly one request from [w], with these parameters. *)
Definition issues {T} (m : M T) (w : World.t) (params : gmap string param) : Prop :=
  exists url : string,
    World.requests (snd (m w)) = (World.requests w ++ [Request.mk url params])%list.

End QuerySpec.

(** ** The rendered tree, as the specification words it *)

Module TreeSpec.

(** The child sequence of a node, empty when it has none. *)
Definition children_of (node : CoverageTreeNode.t) : list CoverageTreeNode.t :=
  default [] (CoverageTreeNode.children node).

(** The number of nodes of a tree. *)
Fixpoint size (node : CoverageTreeNode.t) : nat :=
  S match CoverageTreeNode.children node with
    | Some children =>
        (fix sum (children : list CoverageTreeNode.t) : nat :=
           match children with
           | [] => 0
           | child :: rest => size child + sum rest
           end) children
    | None => 0
    end.

(** The nodes of a tree in pre-order, each with its nesting level. *)
Fixpoint preorder (node : CoverageTreeNode.t) (depth : nat)
    : list (CoverageTreeNode.t * nat) :=
  (node, depth)
  :: match CoverageTreeNode.children node with
     | Some children =>
         (fix all (children : list CoverageTreeNode.t) :=
            match children with
            | [] => []
            | child :: rest => (preorder child (S depth) ++ all rest)%list
            end) children
     | None => []
     end.

(** One line per node of the traversal. *)
Definition lines (node : CoverageTreeNode.t) (depth : nat) : list string :=
  map (fun '(n, d) => CoverageTools.node_line n d) (preorder node depth).

Definition newline : string := String "010" "".

(** The loop of [formatNode] over the children: each child's rendering
    is appended after a newline. *)
Definition append_children (children : list CoverageTreeNode.t) (depth : nat)
    (line : string) : string :=
  fold_left
    (fun line child => line ++ newline ++ CoverageTools.formatNode child (S depth))
    children line.

(** Lines, each after a newline. *)
Definition prefixed (l : list string) : string :=
  fold_right (fun y acc => newline ++ y ++ acc) "" l.

End TreeSpec.

(** ** The first line of a message, as the specification words it *)

Module MessageSpec.

(** The prefix of [s] up to its first newline. *)
Fixpoint first_line (s : string) : string :=
  match s with
  | EmptyString => ""
  | String c rest =>
      if Ascii.eqb c "010" then "" else String c (first_line rest)
  end.

Definition has_newline (s : string) : Prop :=
  In "010"%char (list_ascii_of_string s).

End MessageSpec.

(** ** [src/schemas/index.ts]: the input contracts of the tools *)

Module Schemas.

(** The result of [schema.parse]. *)
Inductive parsed (A : Type) :=
| Valid (a : A)
| Invalid.
Arguments Valid {A}.
Arguments Invalid {A}.

Definition and_then {A B} (p : parsed A) (k : A -> parsed B) : parsed B :=
  match p with
  | Valid a => k a
  | Invalid => Invalid
  end.

(** [z.number().int()]: the number is an integer. *)
Definition is_int (v : JS.number) : bool := Qeq_bool (inject_Z (Qfloor v)) v.

(** [z.string().min(1)] *)
Definition nonEmptyString (v : string) : parsed string :=
  if (1 <=? String.length v)%nat then Valid v else Invalid.

Definition ownerSchema : string -> parsed string := nonEmptyString.
Definition repoSchema : string -> parsed string := nonEmptyString.

(** [z.enum(VALID_SERVICES).optional()] *)
Definition VALID_SERVICES : list string := ["github"; "gitlab"; "bitbucket"].

Definition serviceSchema (v : option string) : parsed (option string) :=
  match v with
  | None => Valid None
  | Some s => if existsb (String.eqb s) VALID_SERVICES then Valid (Some s) else Invalid
  end.

(** [z.string().optional()] *)
Definition branchSchema (v : option string) : parsed (option string) := Valid v.
Definition shaSchema (v : option string) : parsed (option string) := Valid v.

(** [z.number().int().positive().optional()] *)
Definition pageSchema (v : option JS.number) : parsed (option Z) :=
  match v with
  | None => Valid None
  | Some n =>
      if is_int n && JS.gt_zero n then Valid (Some (Qfloor n)) else Invalid
  end.

(** [z.number().int().min(1).max(MAX_PAGE_SIZE).optional()
    .default(DEFAULT_PAGE_SIZE)] *)
Definition pageSizeSchema (v : option JS.number) : parsed Z :=
  match v with
  | None => Valid Constants.DEFAULT_PAGE_SIZE
  | Some n =>
      if is_int n && Qle_bool 1 n && Qle_bool n (inject_Z Constants.MAX_PAGE_SIZE)
      then Valid (Qfloor n) else Invalid
  end.

(** [z.number().int().min(1).max(10).optional()] *)
Definition depthSchema (v : option JS.number) : parsed (option Z) :=
  match v with
  | None => Valid None
  | Some n =>
      if is_int n && Qle_bool 1 n && Qle_bool n 10 then Valid (Some (Qfloor n))
      else Invalid
  end.

(** [z.enum(["open", "closed", "merged"]).optional()] *)
Definition stateSchema (v : option string) : parsed (option string) :=
  match v with
  | None => Valid None
  | Some s =>
      if existsb (String.eqb s) ["open"; "closed"; "merged"] then Valid (Some s)
      else Invalid
  end.

Module RawListCommits.
Record t := mk {
  owner : string;
  repo : string;
  service : option string;
  branch : option string;
  page : option JS.number;
  page_size : option JS.number
}.
End RawListCommits.

Definition listCommitsSchema (raw : RawListCommits.t)
    : parsed RepositoryTools.ListCommitsArgs.t :=
  and_then (ownerSchema (RawListCommits.owner raw)) (fun owner =>
  and_then (repoSchema (RawListCommits.repo raw)) (fun repo =>
  and_then (serviceSchema (RawListCommits.service raw)) (fun service =>
  and_then (branchSchema (RawListCommits.branch raw)) (fun branch =>
  and_then (pageSchema (RawListCommits.page raw)) (fun page =>
  and_then (pageSizeSchema (RawListCommits.page_size raw)) (fun page_size =>
  Valid (RepositoryTools.ListCommitsArgs.mk owner repo service branch page
           (Some page_size)))))))).

Module RawListRepositories.
Record t := mk {
  owner : string;
  service : option string;
  page : option JS.number;
  page_size : option JS.number;
  active : option bool;
  names : option (list string)
}.
End RawListRepositories.

Definition listRepositoriesSchema (raw : RawListRepositories.t)
    : parsed RepositoryTools.ListReposArgs.t :=
  and_then (ownerSchema (RawListRepositories.owner raw)) (fun owner =>
  and_then (serviceSchema (RawListRepositories.service raw)) (fun service =>
  and_then (pageSchema (RawListRepositories.page raw)) (fun page =>
  and_then (pageSizeSchema (RawListRepositories.page_size raw)) (fun page_size =>
  Valid (RepositoryTools.ListReposArgs.mk owner service page (Some page_size)
           (RawListRepositories.active raw) (RawListRepositories.names raw)))))).

Module RawListPulls.
Record t := mk {
  owner : string;
  repo : string;
  service : option string;
  page : option JS.number;
  page_size : option JS.number;
  state : option string
}.
End RawListPulls.

Definition listPullsSchema (raw : RawListPulls.t)
    : parsed RepositoryTools.ListPullsArgs.t :=
  and_then (ownerSchema (RawListPulls.owner raw)) (fun owner =>
  and_then (repoSchema (RawListPulls.repo raw)) (fun repo =>
  and_then (serviceSchema (RawListPulls.service raw)) (fun service =>
  and_then (pageSchema (RawListPulls.page raw)) (fun page =>
  and_then (pageSizeSchema (RawListPulls.page_size raw)) (fun page_size =>
  and_then (stateSchema (RawListPulls.state raw)) (fun state =>
  Valid (RepositoryTools.ListPullsArgs.mk owner repo service page
           (Some page_size) state))))))).

Module RawTree.
Record t := mk {
  owner : string;
  repo : string;
  service : option string;
  branch : option string;
  sha : option string;
  path : option string;
  depth : option JS.number
}.
End RawTree.

Definition getCoverageTreeSchema (raw : RawTree.t)
    : parsed CoverageTools.TreeArgs.t :=
  and_then (ownerSchema (RawTree.owner raw)) (fun owner =>
  and_then (repoSchema (RawTree.repo raw)) (fun repo =>
  and_then (serviceSchema (RawTree.service raw)) (fun service =>
  and_then (branchSchema (RawTree.branch raw)) (fun branch =>
  and_then (shaSchema (RawTree.sha raw)) (fun sha =>
  and_then (depthSchema (RawTree.depth raw)) (fun depth =>
  Valid (CoverageTools.TreeArgs.mk owner repo service branch sha
           (RawTree.path raw) depth))))))).

Module RawCompare.
Record t := mk {
  owner : string;
  repo : string;
  service : option string;
  base : option string;
  head : option string;
  pullid : option JS.number
}.
End RawCompare.

(** [pullid: z.number().int().positive().optional()] *)
Definition pullidSchema (v : option JS.number) : parsed (option Z) :=
  match v with
  | None => Valid None
  | Some n =>
      if is_int n && JS.gt_zero n then Valid (Some (Qfloor n)) else Invalid
  end.

Definition compareCoverageSchema (raw : RawCompare.t)
    : parsed ComparisonTools.CompareArgs.t :=
  and_then (ownerSchema (RawCompare.owner raw)) (fun owner =>
  and_then (repoSchema (RawCompare.repo raw)) (fun repo =>
  and_then (serviceSchema (RawCompare.service raw)) (fun service =>
  and_then (pullidSchema (RawCompare.pullid raw)) (fun pullid =>
  Valid (ComparisonTools.CompareArgs.mk owner repo service
           (RawCompare.base raw) (RawCompare.head raw) pullid))))).

Definition getFileCoverageSchema (raw : CoverageTools.FileArgs.t)
    : parsed CoverageTools.FileArgs.t :=
  and_then (ownerSchema (CoverageTools.FileArgs.owner raw)) (fun owner =>
  and_then (repoSchema (CoverageTools.FileArgs.repo raw)) (fun repo =>
  and_then (nonEmptyString (CoverageTools.FileArgs.path raw)) (fun path =>
  and_then (serviceSchema (CoverageTools.FileArgs.service raw)) (fun service =>
  Valid (CoverageTools.FileArgs.mk owner repo path service
           (CoverageTools.FileArgs.branch raw) (CoverageTools.FileArgs.sha raw)))))).

Definition getCoverageTotalsSchema (raw : CoverageTools.TotalsArgs.t)
    : parsed CoverageTools.TotalsArgs.t :=
  and_then (ownerSchema (CoverageTools.TotalsArgs.owner raw)) (fun owner =>
  and_then (repoSchema (CoverageTools.TotalsArgs.repo raw)) (fun repo =>
  and_then (serviceSchema (CoverageTools.TotalsArgs.service raw)) (fun service =>
  Valid (CoverageTools.TotalsArgs.mk owner repo service
           (CoverageTools.TotalsArgs.branch raw) (CoverageTools.TotalsArgs.sha raw))))).

Definition getRepositorySchema (raw : RepositoryTools.RepoArgs.t)
    : parsed RepositoryTools.RepoArgs.t :=
  and_then (ownerSchema (RepositoryTools.RepoArgs.owner raw)) (fun owner =>
  and_then (repoSchema (RepositoryTools.RepoArgs.repo raw)) (fun repo =>
  and_then (serviceSchema (RepositoryTools.RepoArgs.service raw)) (fun service =>
  Valid (RepositoryTools.RepoArgs.mk owner repo service)))).

End Schemas.

(** ** [src/index.ts]: the command line and the HTTP sessions *)

Module Index.

(** [DEFAULT_PORT] of [constants.ts]. *)
Definition DEFAULT_PORT : Z := 3000.

Inductive transport := stdio | http.

(** [process.exit(code)] ends the run; otherwise a value is returned. *)
Inductive outcome (A : Type) :=
| Returns (a : A)
| Exit (code : Z).
Arguments Returns {A}.
Arguments Exit {A}.

(** The white space and line terminators of ECMAScript that take more
    than one byte in UTF-8: U+00A0; U+1680, U+2000 to U+200A, U+2028,
    U+2029, U+202F, U+205F, U+3000 and U+FEFF. *)
Definition white2 (a b : ascii) : bool :=
  ((N_of_ascii a =? 194) && (N_of_ascii b =? 160))%N.

Definition white3 (a b c : ascii) : bool :=
  let (a, b) := (N_of_ascii a, N_of_ascii b) in
  let c := N_of_ascii c in
  ((a =? 225) && (b =? 154) && (c =? 128)
   || (a =? 226) && (b =? 128)
      && ((128 <=? c) && (c <=? 138) || (c =? 168) || (c =? 169) || (c =? 175))
   || (a =? 226) && (b =? 129) && (c =? 159)
   || (a =? 227) && (b =? 128) && (c =? 128)
   || (a =? 239) && (b =? 187) && (c =? 191))%N.

(** [TrimString(inputString, start)] *)
Fixpoint trim_start (s : string) : string :=
  match s with
  | String a rest1 =>
      if JS.is_white a then trim_start rest1
      else
        match rest1 with
        | String b rest2 =>
            if white2 a b then trim_start rest2
            else
              match rest2 with
              | String c rest3 => if white3 a b c then trim_start rest3 else s
              | EmptyString => s
              end
        | EmptyString => s
        end
  | EmptyString => s
  end.

(** [parseInt(s, 10)], ECMAScript 19.2.5: leading white space and a sign
    are skipped, then the decimal digits up to the first other character
    are read. [None] is [NaN]. The value is exact; the runtime rounds it
    to a binary64 above 2^53, far above the ports. *)
Definition parseInt (s : string) : option Z :=
  let t := trim_start s in
  let (sign, t) :=
    match t with
    | String "-" rest => ((-1)%Z, rest)
    | String "+" rest => (1%Z, rest)
    | _ => (1%Z, t)
    end in
  let (digits, _) := JS.span_digits t in
  if (String.length digits =? 0)%nat then None
  else Some (sign * JS.digits_value 0 digits)%Z.

(** [!isNaN(value) && value > 0 && value < 65536] *)
Definition valid_port (value : option Z) : bool :=
  match value with
  | Some v => (0 <? v)%Z && (v <? 65536)%Z
  | None => false
  end.

Definition is_flag (arg long short : string) : bool :=
  String.eqb arg long || String.eqb arg short.

(** The loop [for (let i = 0; i < args.length; i++)] as a recursion on
    [args.slice(i)]; [args[++i]] is the head of what follows the flag, and
    [undefined] when nothing follows. *)
Fixpoint parseArgs_loop (args : list string) (transport_ : transport)
    (port : Z) : outcome (transport * Z) :=
  match args with
  | [] => Returns (transport_, port)
  | arg :: rest =>
      if is_flag arg "--transport" "-t" then
        match rest with
        | value :: rest' =>
            if String.eqb value "stdio" then parseArgs_loop rest' stdio port
            else if String.eqb value "http" then parseArgs_loop rest' http port
            else Exit 1
        | [] => Exit 1
        end
      else if is_flag arg "--port" "-p" then
        match rest with
        | value :: rest' =>
            let value := parseInt value in
            match value with
            | Some v =>
                if valid_port value then parseArgs_loop rest' transport_ v
                else Exit 1
            | None => Exit 1
            end
        | [] => Exit 1
        end
      else if is_flag arg "--help" "-h" then Exit 0
      else parseArgs_loop rest transport_ port
  end.

Record Config := mkConfig {
  transport_of : transport;
  port_of : Z
}.

(** [parseArgs()], on [process.argv.slice(2)] and [process.env.PORT]. *)
Definition parseArgs (args : list string) (env_PORT : option string)
    : outcome Config :=
  match parseArgs_loop args stdio DEFAULT_PORT with
  | Exit code => Exit code
  | Returns (transport_, port) =>
      let port :=
        match transport_ with
        | http =>
            if truthy_string env_PORT then
              let envPort := parseInt (default "" env_PORT) in
              match envPort with
              | Some v => if valid_port envPort then v else port
              | None => port
              end
            else port
        | stdio => port
        end in
      Returns (mkConfig transport_ port)
  end.

(** What [main] goes on to run. *)
Inductive server := runStdio | runHttp (port : Z).

(** [main()], up to the start of the transport: the environment is
    validated first, then the command line is read. *)
Definition main (env_CODECOV_API_TOKEN env_PORT : option string)
    (args : list string) : outcome server :=
  if negb (truthy_string env_CODECOV_API_TOKEN) then Exit 1
  else
    match parseArgs args env_PORT with
    | Exit code => Exit code
    | Returns config =>
        match transport_of config with
        | stdio => Returns runStdio
        | http => Returns (runHttp (port_of config))
        end
    end.

(** The process that [main] starts: no client yet, no request yet. *)
Definition initial_world (env_CODECOV_API_TOKEN : option string) : World.t :=
  World.mk env_CODECOV_API_TOKEN None [].

End Index.

Module HttpSessions.

(** [transports: Map<string, SSEServerTransport>] of [runHttp]; a
    transport is known by the number of the connection it serves. *)
Definition transports : Type := gmap string nat.

(** [GET /sse]: [sessionId = req.query.sessionId || crypto.randomUUID()],
    [transports.set(sessionId, transport)]. The session id is handed to
    the [close] handler of the response. *)
Definition sse (query_sessionId : option string) (randomUUID : string)
    (connection : nat) (m : transports) : string * transports :=
  let sessionId := or_default query_sessionId randomUUID in
  (sessionId, <[sessionId := connection]> m).

(** [res.on("close", ...)]: [transports.delete(sessionId)]. *)
Definition close (sessionId : string) (m : transports) : transports :=
  delete sessionId m.

(** The answers of [POST /messages]. *)
Inductive response :=
| status (code : Z) (error : string)
| handlePostMessage (connection : nat).

Definition messages (query_sessionId : option string) (m : transports) : response :=
  if negb (truthy_string query_sessionId) then
    status 400 "sessionId query parameter required"
  else
    match m !! default "" query_sessionId with
    | None => status 404 "Session not found. Connect to /sse first."
    | Some connection => handlePostMessage connection
    end.

End HttpSessions.

(** ** The requests of an invocation, as the interface section words them *)

Module RequestSpec.

Definition service_of (i : Registry.invocation) : option string :=
  match i with
  | Registry.codecov_get_coverage_totals _ _ a => CoverageTools.TotalsArgs.service a
  | Registry.codecov_get_file_coverage _ _ a => CoverageTools.FileArgs.service a
  | Registry.codecov_get_coverage_tree _ a => CoverageTools.TreeArgs.service a
  | Registry.codecov_list_repositories _ _ a => RepositoryTools.ListReposArgs.service a
  | Registry.codecov_get_repository _ _ a => RepositoryTools.RepoArgs.service a
  | Registry.codecov_list_commits _ _ a => RepositoryTools.ListCommitsArgs.service a
  | Registry.codecov_list_pulls _ _ a => RepositoryTools.ListPullsArgs.service a
  | Registry.codecov_compare_coverage _ _ a => ComparisonTools.CompareArgs.service a
  end.

Definition owner_of (i : Registry.invocation) : string :=
  match i with
  | Registry.codecov_get_coverage_totals _ _ a => CoverageTools.TotalsArgs.owner a
  | Registry.codecov_get_file_coverage _ _ a => CoverageTools.FileArgs.owner a
  | Registry.codecov_get_coverage_tree _ a => CoverageTools.TreeArgs.owner a
  | Registry.codecov_list_repositories _ _ a => RepositoryTools.ListReposArgs.owner a
  | Registry.codecov_get_repository _ _ a => RepositoryTools.RepoArgs.owner a
  | Registry.codecov_list_commits _ _ a => RepositoryTools.ListCommitsArgs.owner a
  | Registry.codecov_list_pulls _ _ a => RepositoryTools.ListPullsArgs.owner a
  | Registry.codecov_compare_coverage _ _ a => ComparisonTools.CompareArgs.owner a
  end.

(** The resource under [/{service}/{owner}/]: [repos/] for the owner,
    [repos/{repo}/] and below for a repository. *)
Definition resource_of (i : Registry.invocation) : string :=
  match i with
  | Registry.codecov_get_coverage_totals _ _ a =>
      "repos/" ++ CoverageTools.TotalsArgs.repo a ++ "/totals/"
  | Registry.codecov_get_file_coverage _ _ a =>
      "repos/" ++ CoverageTools.FileArgs.repo a ++ "/file_report/"
      ++ Client.encodeURIComponent (CoverageTools.FileArgs.path a) ++ "/"
  | Registry.codecov_get_coverage_tree _ a =>
      "repos/" ++ CoverageTools.TreeArgs.repo a ++ "/report/tree"
  | Registry.codecov_list_repositories _ _ a => "repos/"
  | Registry.codecov_get_repository _ _ a =>
      "repos/" ++ RepositoryTools.RepoArgs.repo a ++ "/"
  | Registry.codecov_list_commits _ _ a =>
      "repos/" ++ RepositoryTools.ListCommitsArgs.repo a ++ "/commits/"
  | Registry.codecov_list_pulls _ _ a =>
      "repos/" ++ RepositoryTools.ListPullsArgs.repo a ++ "/pulls/"
  | Registry.codecov_compare_coverage _ _ a =>
      "repos/" ++ ComparisonTools.CompareArgs.repo a ++ "/compare/"
  end.

(** The client in the slot, if any, is one that [getCodecovClient] can
    have made: a non-empty token and the default service. *)
Definition well_formed (w : World.t) : Prop :=
  match World.clientInstance w with
  | Some client =>
      CodecovClient.apiToken client <> ""
      /\ CodecovClient.defaultService client = Constants.DEFAULT_SERVICE
  | None => True
  end.

(** The characters that [encodeURIComponent] lets through or produces. *)
Definition url_safe (c : ascii) : bool :=
  Client.unreserved c || Ascii.eqb c "%".

(** [decodeURIComponent] on the output of [encodeURIComponent]. *)
Definition hex_value (c : ascii) : N :=
  let n := N_of_ascii c in
  if (n <=? 57)%N then (n - 48)%N else (n - 55)%N.

Fixpoint decode (fuel : nat) (s : string) : string :=
  match fuel with
  | O => ""
  | S fuel' =>
      match s with
      | String "%" (String h (String l rest)) =>
          String (ascii_of_N (16 * hex_value h + hex_value l)) (decode fuel' rest)
      | String c rest => String c (decode fuel' rest)
      | EmptyString => ""
      end
  end.

Definition decodeURIComponent (s : string) : string := decode (String.length s) s.

(** The characters that delimit the parts of a URL. *)
Definition delimiter (c : ascii) : bool :=
  existsb (Ascii.eqb c) ["/"; "?"; "#"; "&"; "="; " "]%char.

Fixpoint has_delimiter (s : string) : bool :=
  match s with
  | EmptyString => false
  | String c rest => delimiter c || has_delimiter rest
  end.

End RequestSpec.

(** ** The requests of a tool on validated input *)

Module InputSpec.

(** The tool issues exactly one request from [w], with these parameters. *)
Definition tool_issues (tool : World.t -> Tool.Result * World.t) (w : World.t)
    (params : gmap string param) : Prop :=
  exists url : string,
    World.requests (snd (tool w)) = (World.requests w ++ [Request.mk url params])%list.

(** The parameter is the number that the caller supplied, and is absent
    when none was supplied. *)
Definition as_supplied (v : option JS.number) (sent : option param) : Prop :=
  match v with
  | Some n => exists z : Z, sent = Some (PNumber z) /\ inject_Z z == n
  | None => sent = None
  end.

(** The page size is the supplied one, or the default, and within the
    documented limits. *)
Definition page_size_as_supplied (v : option JS.number) (sent : option param)
    : Prop :=
  exists p : Z,
    sent = Some (PNumber p)
    /\ (1 <= p <= Constants.MAX_PAGE_SIZE)%Z
    /\ match v with
       | Some n => inject_Z p == n
       | None => p = Constants.DEFAULT_PAGE_SIZE
       end.

End InputSpec.

(** ** The entries of the lists *)

Module ListSpec.

(** A percentage with two decimals: [12.34%], [-0.50%]. *)
Definition percentage (s : string) : Prop :=
  exists sign m : string,
    s = sign ++ m ++ "%" /\ (sign = "" \/ sign = "-") /\ Format.fixed_point 2 m.

Definition prefix_of (p s : string) : Prop := exists rest : string, s = p ++ rest.

End ListSpec.

(** ** How far the ranking is from the deltas *)

Module AccuracySpec.

(** No file comes before a file whose delta is lower by more than
    [eps]. *)
Definition ascending_within (eps : Q) (l : list ComparisonFile.t) : Prop :=
  StronglySorted
    (fun f g => (RankingSpec.delta_or_zero f <= RankingSpec.delta_or_zero g + eps)%Q)
    l.

(** The files that display the delta [k]. *)
Definition displays (k : Q) (f : ComparisonFile.t) : bool :=
  Qeq_bool (RankingSpec.displayed_delta f) k.

(** The files for which the comparator of the sort reads the number
    [k]. *)
Definition compares (k : Q) (f : ComparisonFile.t) : bool :=
  Qeq_bool (RankingSpec.compared_delta f) k.

End AccuracySpec.

(** * Properties *)

(** ** The model on small inputs *)

Example groupLines_3457 : CoverageTools.groupLines [3; 4; 5; 7]%Z = "3-5, 7".
Proof. reflexivity. Qed.

Example groupLines_single : CoverageTools.groupLines [12]%Z = "12".
Proof. reflexivity. Qed.

Example toFixed_small : JS.toFixed (5 # 100) 2 = "0.05".
Proof. vm_compute. reflexivity. Qed.

Example toFixed_negative_zero : JS.toFixed (- (1 # 1000)) 2 = "-0.00".
Proof. vm_compute. reflexivity. Qed.

Example toFixed_one_decimal : JS.toFixed (12345 # 1000) 1 = "12.3".
Proof. vm_compute. reflexivity. Qed.

Example toFixed_tie : JS.toFixed (125 # 1000) 2 = "0.13".
Proof. vm_compute. reflexivity. Qed.

Example render_change_regression :
  ComparisonTools.render_change (Some (JS.minus 80%Q 90%Q)) = "-10.00%".
Proof. vm_compute. reflexivity. Qed.

Example render_change_gain :
  ComparisonTools.render_change (Some (JS.minus 95%Q 50%Q)) = "+45.00%".
Proof. vm_compute. reflexivity. Qed.

Example binary64_tenth : JS.binary64 (1 # 10)%Q = (3602879701896397 # 36028797018963968)%Q.
Proof. vm_compute. reflexivity. Qed.

Example render_change_binary64 :
  ComparisonTools.render_change (Some (JS.minus (82876 # 1000)%Q (1061 # 1000)%Q))
  = "+81.81%"
  /\ ComparisonTools.render_change (Some ((82876 # 1000) - (1061 # 1000))%Q) = "+81.82%".
Proof. vm_compute. split; reflexivity. Qed.

Example parseFloat_change : JS.parseFloat "+45.00%" = Some 45%Q.
Proof. vm_compute. reflexivity. Qed.

Example parseFloat_NA : JS.parseFloat "N/A" = None.
Proof. reflexivity. Qed.

Example encodeURIComponent_path :
  Client.encodeURIComponent "src/a b.ts" = "src%2Fa%20b.ts".
Proof. reflexivity. Qed.

Example formatNode_small :
  let leaf := CoverageTreeNode.mk "a.ts" "src/a.ts" (Some (1 # 3)%Q) 10 5 0 5 None in
  let root := CoverageTreeNode.mk "src" "src" None 20 10 0 10 (Some [leaf]) in
  CoverageTools.formatNode root 0
  = CoverageTools.icon_dir ++ " src - N/A% (10/20 lines)" ++ String "010" "  "
    ++ CoverageTools.icon_file ++ " a.ts - 0.3% (5/10 lines)".
Proof. vm_compute. reflexivity. Qed.


Open Scope list_scope.

(** ** The file-coverage summary *)

Section Classes.
Import CoverageTools LineSpec.

Lemma classify_step_missed acc l :
  missedLines (classify_step acc l)
  = missedLines acc ++ map LineCoverage.line_number (List.filter is_missed [l]).
Proof.
  unfold classify_step, is_missed, JS.is_zero, JS.gt_zero. simpl.
  destruct (LineCoverage.coverage l) as [c|]; simpl; [|by rewrite app_nil_r].
  destruct (Qeq_bool c 0); simpl; [done|].
  destruct (negb (Qle_bool c 0)); simpl; [|by rewrite app_nil_r].
  destruct (truthy _); simpl; by rewrite app_nil_r.
Qed.

Lemma truthy_flagged l :
  truthy (LineCoverage.is_partial_hit l) = flagged_partial l.
Proof.
  unfold flagged_partial.
  destruct (LineCoverage.is_partial_hit l) as [[|]|]; reflexivity.
Qed.

Lemma zero_not_hit c : Qeq_bool c 0 = true -> negb (Qle_bool c 0) = false.
Proof.
  intros H. apply Qeq_bool_iff in H.
  apply negb_false_iff, Qle_bool_iff. rewrite H. apply Qle_refl.
Qed.

Lemma classify_step_partial acc l :
  partialLines (classify_step acc l)
  = partialLines acc ++ map LineCoverage.line_number (List.filter is_partial [l]).
Proof.
  unfold classify_step, is_partial, is_hit, JS.is_zero, JS.gt_zero. simpl.
  rewrite <- truthy_flagged.
  destruct (LineCoverage.coverage l) as [c|]; simpl; [|by rewrite app_nil_r].
  destruct (Qeq_bool c 0) eqn:Hz; simpl.
  { rewrite (zero_not_hit c Hz). simpl. by rewrite app_nil_r. }
  destruct (negb (Qle_bool c 0)); simpl; [|by rewrite app_nil_r].
  destruct (truthy _); simpl; [done|by rewrite app_nil_r].
Qed.

Lemma classify_step_covered acc l :
  coveredLines (classify_step acc l)
  = coveredLines acc ++ map LineCoverage.line_number (List.filter is_covered [l]).
Proof.
  unfold classify_step, is_covered, is_hit, JS.is_zero, JS.gt_zero. simpl.
  rewrite <- truthy_flagged.
  destruct (LineCoverage.coverage l) as [c|]; simpl; [|by rewrite app_nil_r].
  destruct (Qeq_bool c 0) eqn:Hz; simpl.
  { rewrite (zero_not_hit c Hz). simpl. by rewrite app_nil_r. }
  destruct (negb (Qle_bool c 0)); simpl; [|by rewrite app_nil_r].
  destruct (truthy _); simpl; [by rewrite app_nil_r|done].
Qed.

Lemma classify_fold lc : forall acc,
  let cls := fold_left classify_step lc acc in
  missedLines cls
    = missedLines acc ++ map LineCoverage.line_number (List.filter is_missed lc)
  /\ partialLines cls
    = partialLines acc ++ map LineCoverage.line_number (List.filter is_partial lc)
  /\ coveredLines cls
    = coveredLines acc ++ map LineCoverage.line_number (List.filter is_covered lc).
Proof.
  induction lc as [|l lc IH]; intros acc; simpl.
  - by rewrite !app_nil_r.
  - destruct (IH (classify_step acc l)) as (Hm & Hp & Hc).
    rewrite Hm, Hp, Hc.
    rewrite classify_step_missed, classify_step_partial, classify_step_covered.
    simpl. rewrite <- !app_assoc.
    destruct (is_missed l), (is_partial l), (is_covered l); simpl; done.
Qed.

Lemma classes_exclusive l :
  (is_missed l = true -> is_partial l = false /\ is_covered l = false)
  /\ (is_partial l = true -> is_covered l = false)
  /\ (LineCoverage.coverage l = None ->
      is_missed l = false /\ is_partial l = false /\ is_covered l = false).
Proof.
  unfold is_partial, is_covered, is_missed, is_hit.
  destruct (LineCoverage.coverage l) as [c|]; simpl.
  - split; [|split]; [| |done].
    + intros Hz. rewrite (zero_not_hit c Hz). done.
    + destruct (negb (Qle_bool c 0)), (flagged_partial l); simpl; done.
  - done.
Qed.

End Classes.

Section Ranges.
Import CoverageTools LineSpec.

Lemma render_range_render lo hi : render_range lo hi = render (lo, hi).
Proof. reflexivity. Qed.

Lemma groupLines_loop_runs rest : forall lo hi ranges,
  groupLines_loop rest lo hi ranges = ranges ++ map render (runs_from lo hi rest).
Proof.
  induction rest as [|x rest IH]; intros lo hi ranges; simpl.
  - reflexivity.
  - destruct (x =? hi + 1)%Z.
    + apply IH.
    + rewrite IH, <- app_assoc. reflexivity.
Qed.

Lemma runs_from_nonempty lo hi rest : runs_from lo hi rest <> [].
Proof.
  revert lo hi. induction rest as [|x rest IH]; intros lo hi; simpl; [done|].
  destruct (x =? hi + 1)%Z; [apply IH|done].
Qed.

Lemma groupLines_runs S : groupLines S = render_all (runs S).
Proof.
  destruct S as [|x rest]; [reflexivity|].
  unfold groupLines, JS.join, render_all, runs.
  rewrite groupLines_loop_runs. simpl.
  destruct (runs_from x x rest) eqn:E; [|reflexivity].
  by apply runs_from_nonempty in E.
Qed.

Lemma runs_from_well_formed rest : forall lo hi,
  (lo <= hi)%Z -> Forall well_formed (runs_from lo hi rest).
Proof.
  induction rest as [|x rest IH]; intros lo hi Hle; simpl.
  - repeat constructor. exact Hle.
  - destruct (Z.eqb_spec x (hi + 1)).
    + apply IH. lia.
    + constructor; [exact Hle|]. apply IH. lia.
Qed.

Lemma seqZ_one m : seqZ m 1 = [m].
Proof. rewrite seqZ_cons by lia. rewrite seqZ_nil by lia. reflexivity. Qed.

Lemma runs_from_expand rest : forall lo hi,
  (lo <= hi)%Z ->
  expand_all (runs_from lo hi rest) = seqZ lo (hi - lo + 1) ++ rest.
Proof.
  unfold expand_all.
  induction rest as [|x rest IH]; intros lo hi Hle; simpl.
  - reflexivity.
  - destruct (Z.eqb_spec x (hi + 1)) as [->|Hne].
    + rewrite IH by lia.
      replace (hi + 1 - lo + 1)%Z with ((hi - lo + 1) + 1)%Z by lia.
      rewrite seqZ_app, seqZ_one, <- app_assoc by lia.
      replace (lo + (hi - lo + 1))%Z with (hi + 1)%Z by lia. reflexivity.
    + cbn [map concat]. rewrite IH by lia. unfold expand at 1. cbn [fst snd].
      replace (x - x + 1)%Z with 1%Z by lia. rewrite seqZ_one. reflexivity.
Qed.

Lemma runs_from_head rest : forall lo hi,
  exists hi' tl, runs_from lo hi rest = (lo, hi') :: tl.
Proof.
  induction rest as [|x rest IH]; intros lo hi; simpl; [by eauto|].
  destruct (x =? hi + 1)%Z; [apply IH|by eauto].
Qed.

Lemma runs_from_apart rest : forall lo hi,
  Sorted Z.lt (hi :: rest) -> Sorted apart (runs_from lo hi rest).
Proof.
  induction rest as [|x rest IH]; intros lo hi Hs; simpl.
  - repeat constructor.
  - apply Sorted_inv in Hs as [Hs Hhd]. apply HdRel_inv in Hhd.
    destruct (Z.eqb_spec x (hi + 1)) as [->|Hne].
    + apply IH. exact Hs.
    + constructor; [apply IH; exact Hs|].
      destruct (runs_from_head rest x x) as (hi' & tl & ->).
      constructor. unfold apart. simpl. lia.
Qed.

Lemma runs_from_length rest : forall lo hi,
  length (runs_from lo hi rest) = S (breaks (hi :: rest)).
Proof.
  induction rest as [|x rest IH]; intros lo hi; [reflexivity|].
  change (breaks (hi :: x :: rest))
    with ((if (x =? hi + 1)%Z then 0 else 1) + breaks (x :: rest)).
  simpl runs_from. destruct (x =? hi + 1)%Z; simpl length; rewrite IH; reflexivity.
Qed.

Lemma breaks_seqZ_from n : forall lo, breaks (seqZ lo (Z.of_nat n)) = 0.
Proof.
  induction n as [|n IH]; intros lo; [reflexivity|].
  rewrite seqZ_cons by lia.
  replace (Z.pred (Z.of_nat (S n))) with (Z.of_nat n) by lia.
  destruct n as [|n]; [reflexivity|].
  specialize (IH (Z.succ lo)). rewrite seqZ_cons in IH |- * by lia.
  change (breaks (lo :: Z.succ lo :: ?l))
    with ((if (Z.succ lo =? lo + 1)%Z then 0 else 1) + breaks (Z.succ lo :: l)).
  rewrite IH. destruct (Z.eqb_spec (Z.succ lo) (lo + 1)); [reflexivity|lia].
Qed.

Lemma breaks_expand r : breaks (expand r) = 0.
Proof.
  unfold expand. destruct (Z_le_gt_dec 0 (snd r - fst r + 1)) as [H|H].
  - rewrite <- (Z2Nat.id _ H). apply breaks_seqZ_from.
  - rewrite seqZ_nil by lia. reflexivity.
Qed.

Lemma breaks_app l1 : forall l2,
  breaks (l1 ++ l2) <= breaks l1 + breaks l2 + 1
  /\ (l2 = [] -> breaks (l1 ++ l2) = breaks l1).
Proof.
  induction l1 as [|x l1 IH]; intros l2.
  - simpl. split; [lia|]. intros ->. reflexivity.
  - destruct l1 as [|y l1].
    + simpl. split; [|intros ->; reflexivity].
      destruct l2 as [|z l2]; [simpl; lia|].
      destruct (z =? x + 1)%Z; lia.
    + destruct (IH l2) as [IH1 IH2].
      change (breaks ((x :: y :: l1) ++ l2))
        with ((if (y =? x + 1)%Z then 0 else 1) + breaks ((y :: l1) ++ l2)).
      change (breaks (x :: y :: l1))
        with ((if (y =? x + 1)%Z then 0 else 1) + breaks (y :: l1)).
      split; [lia|]. intros H. rewrite (IH2 H). reflexivity.
Qed.

Lemma breaks_expand_all rs : breaks (expand_all rs) <= pred (length rs).
Proof.
  unfold expand_all. induction rs as [|r rs IH]; [simpl; lia|].
  simpl. destruct rs as [|r' rs].
  - simpl. rewrite app_nil_r, breaks_expand. lia.
  - pose proof (proj1 (breaks_app (expand r) (concat (map expand (r' :: rs))))) as H.
    rewrite breaks_expand in H. simpl in IH |- *. simpl in H. lia.
Qed.

Lemma runs_minimal S rs : expand_all rs = S -> length (runs S) <= length rs.
Proof.
  intros <-. destruct (expand_all rs) as [|x rest] eqn:E; [simpl; lia|].
  unfold runs. rewrite runs_from_length, <- E.
  pose proof (breaks_expand_all rs).
  destruct rs as [|r rs]; [discriminate|]. simpl in *. lia.
Qed.

Lemma runs_expand S : expand_all (runs S) = S.
Proof.
  destruct S as [|x rest]; [reflexivity|].
  unfold runs. rewrite runs_from_expand by lia.
  replace (x - x + 1)%Z with 1%Z by lia. rewrite seqZ_one. reflexivity.
Qed.

Lemma runs_well_formed S : Forall well_formed (runs S).
Proof.
  destruct S as [|x rest]; [constructor|].
  apply runs_from_well_formed. lia.
Qed.

Lemma runs_apart S : Sorted Z.lt S -> Sorted apart (runs S).
Proof.
  destruct S as [|x rest]; [constructor|]. apply runs_from_apart.
Qed.

End Ranges.

Section C1.
Import CoverageTools LineSpec.

Lemma is_missed_iff l :
  is_missed l = true
  <-> exists c, LineCoverage.coverage l = Some c /\ (c == 0)%Q.
Proof.
  unfold is_missed. destruct (LineCoverage.coverage l) as [c|].
  - rewrite Qeq_bool_iff. split; [by eauto|]. by intros (? & [= <-] & ?).
  - split; [done|]. by intros (? & ? & ?).
Qed.

Lemma is_hit_iff l :
  is_hit l = true
  <-> exists c, LineCoverage.coverage l = Some c /\ (0 < c)%Q.
Proof.
  unfold is_hit. destruct (LineCoverage.coverage l) as [c|].
  - rewrite negb_true_iff, <- not_true_iff_false, Qle_bool_iff.
    split.
    + intros H. exists c. split; [done|]. by apply Qnot_le_lt.
    + intros (? & [= <-] & ?). by apply Qlt_not_le.
  - split; [done|]. by intros (? & ? & ?).
Qed.

Lemma is_partial_iff l :
  is_partial l = true
  <-> exists c, LineCoverage.coverage l = Some c /\ (0 < c)%Q
                /\ LineCoverage.is_partial_hit l = Some true.
Proof.
  unfold is_partial, flagged_partial.
  rewrite andb_true_iff, is_hit_iff, bool_decide_eq_true. split.
  - intros [(c & Hc & Hpos) Hf]. exists c. auto.
  - intros (c & Hc & Hpos & Hf). split; [exists c; auto|exact Hf].
Qed.

Lemma is_covered_iff l :
  is_covered l = true
  <-> exists c, LineCoverage.coverage l = Some c /\ (0 < c)%Q
                /\ LineCoverage.is_partial_hit l <> Some true.
Proof.
  unfold is_covered, flagged_partial.
  rewrite andb_true_iff, is_hit_iff, negb_true_iff, bool_decide_eq_false.
  split.
  - intros [(c & Hc & Hpos) Hf]. exists c. auto.
  - intros (c & Hc & Hpos & Hf). split; [exists c; auto|exact Hf].
Qed.

End C1.


(** ** Rendered numbers *)

#[local] Arguments String.append : simpl nomatch.

Section Strings.

Lemma length_append (a b : string) :
  String.length (a +:+ b) = String.length a + String.length b.
Proof. induction a as [|c a IH]; simpl; [reflexivity|]. by rewrite IH. Qed.

Lemma append_assoc (a b c : string) : (a +:+ b) +:+ c = a +:+ (b +:+ c).
Proof. induction a as [|x a IH]; simpl; [reflexivity|]. by rewrite IH. Qed.

Lemma append_nil_r (a : string) : a +:+ "" = a.
Proof. induction a as [|x a IH]; simpl; [reflexivity|]. by rewrite IH. Qed.

Lemma all_digits_append a b :
  Format.all_digits (a +:+ b) = Format.all_digits a && Format.all_digits b.
Proof.
  unfold Format.all_digits. induction a as [|c a IH]; simpl; [reflexivity|].
  rewrite IH. by rewrite andb_assoc.
Qed.

Lemma length_repeat_char c n : String.length (JS.repeat (String c "") n) = n.
Proof. induction n as [|n IH]; simpl; [reflexivity|]. by rewrite IH. Qed.

Lemma all_digits_zeros n : Format.all_digits (JS.repeat "0" n) = true.
Proof. induction n as [|n IH]; [reflexivity|]. exact IH. Qed.

(** Cutting a string at [j] and gluing the two pieces gives it back. *)
Lemma substring_cut (m : string) : forall j,
  j <= String.length m ->
  substring 0 j m +:+ substring j (String.length m - j) m = m
  /\ String.length (substring 0 j m) = j
  /\ String.length (substring j (String.length m - j) m) = String.length m - j.
Proof.
  induction m as [|c m IH]; intros j Hj; simpl in Hj.
  - assert (j = 0) as -> by lia. done.
  - destruct j as [|j].
    + simpl. clear IH Hj. split; [|split; [reflexivity|]].
      * f_equal. induction m as [|d m IH]; simpl; [reflexivity|]. by rewrite IH.
      * f_equal. induction m as [|d m IH]; simpl; [reflexivity|]. by rewrite IH.
    + destruct (IH j ltac:(lia)) as (H1 & H2 & H3). simpl.
      rewrite H1, H2, H3. done.
Qed.

End Strings.

Section Digits.

Lemma all_digits_uint d : Format.all_digits (NilEmpty.string_of_uint d) = true.
Proof. induction d; simpl; try reflexivity; exact IHd. Qed.

Lemma string_of_uint_nonempty d :
  d <> Decimal.Nil -> NilEmpty.string_of_uint d <> "".
Proof. destruct d; simpl; congruence. Qed.

Lemma digits_value_uint d : forall acc : positive,
  JS.digits_value (Z.pos acc) (NilEmpty.string_of_uint d)
  = Z.pos (Pos.of_uint_acc d acc).
Proof.
  induction d; intros acc; simpl; try reflexivity;
    rewrite <- IHd; f_equal; lia.
Qed.

Lemma digits_value_uint0 d :
  JS.digits_value 0 (NilEmpty.string_of_uint d) = Z.of_N (Pos.of_uint d).
Proof.
  induction d; simpl; try reflexivity; try exact IHd;
    rewrite <- digits_value_uint; reflexivity.
Qed.

Lemma string_of_uint_nonnil d :
  d <> Decimal.Nil -> NilZero.string_of_uint d = NilEmpty.string_of_uint d.
Proof. destruct d; [congruence|reflexivity..]. Qed.

(** The digits of a non-negative integer, and reading them back. *)
Lemma String_of_integer_nonneg (n : Z) :
  (0 <= n)%Z ->
  let m := JS.String_of_integer n in
  m <> "" /\ Format.all_digits m = true /\ JS.digits_value 0 m = n.
Proof.
  intros Hn. unfold JS.String_of_integer.
  destruct n as [|p|p]; [done| |lia]. simpl.
  pose proof (DecimalPos.Unsigned.to_uint_nonnil p) as Hnil.
  rewrite (string_of_uint_nonnil _ Hnil).
  split; [by apply string_of_uint_nonempty|].
  split; [apply all_digits_uint|].
  by rewrite digits_value_uint0, DecimalPos.Unsigned.of_to.
Qed.

Lemma digits_value_append a : forall b acc,
  JS.digits_value acc (a +:+ b) = JS.digits_value (JS.digits_value acc a) b.
Proof. induction a as [|c a IH]; intros b acc; simpl; [reflexivity|]. apply IH. Qed.

Lemma digits_value_shift b : forall acc,
  JS.digits_value acc b
  = (acc * 10 ^ Z.of_nat (String.length b) + JS.digits_value 0 b)%Z.
Proof.
  induction b as [|c b IH]; intros acc.
  - simpl. lia.
  - cbn [JS.digits_value String.length]. rewrite IH.
    rewrite (IH (10 * 0 + _)%Z).
    rewrite Nat2Z.inj_succ, Z.pow_succ_r by lia. lia.
Qed.

Lemma digits_value_zeros n : forall acc,
  JS.digits_value acc (JS.repeat "0" n) = (acc * 10 ^ Z.of_nat n)%Z.
Proof.
  induction n as [|n IH]; intros acc.
  - simpl. lia.
  - change (JS.repeat "0" (S n)) with (String "0" (JS.repeat "0" n)).
    cbn [JS.digits_value]. rewrite IH.
    rewrite Nat2Z.inj_succ, Z.pow_succ_r by lia.
    change (Z.of_N (N_of_ascii "0")) with 48%Z. lia.
Qed.

End Digits.

Section ToFixed.
Import Format.

Lemma units_nonneg x f : (0 <= Format.units x f)%Z.
Proof.
  unfold Format.units. change 0%Z with (Qfloor 0). apply Qfloor_resp_le.
  assert (0 <= Qabs x)%Q by apply Qabs_nonneg.
  assert (0 <= inject_Z (10 ^ Z.of_nat f))%Q.
  { change 0%Q with (inject_Z 0). rewrite <- Zle_Qle. apply Z.pow_nonneg. lia. }
  assert (0 <= Qabs x * inject_Z (10 ^ Z.of_nat f))%Q by (by apply Qmult_le_0_compat).
  replace 0%Q with (0 + 0)%Q by reflexivity. by apply Qplus_le_compat.
Qed.

Lemma padded_spec n f :
  (0 <= n)%Z ->
  f < String.length (padded n f)
  /\ Format.all_digits (padded n f) = true
  /\ JS.digits_value 0 (padded n f) = n.
Proof.
  intros Hn. destruct (String_of_integer_nonneg n Hn) as (Hne & Hd & Hv).
  unfold padded. destruct (Nat.leb_spec (String.length (JS.String_of_integer n)) f).
  - rewrite length_append, length_repeat_char, all_digits_append, all_digits_zeros.
    rewrite digits_value_append, digits_value_zeros.
    split; [|split]; [|exact Hd|exact Hv].
    destruct (JS.String_of_integer n); [done|]. simpl in *. lia.
  - split; [lia|]. by split.
Qed.

Lemma toFixed_unfold x f :
  JS.toFixed x (S f)
  = (if Qle_bool 0 x then "" else "-")
    +:+ (let m := padded (Format.units x (S f)) (S f) in
         let k := String.length m in
         substring 0 (k - S f) m +:+ "." +:+ substring (k - S f) (S f) m).
Proof. reflexivity. Qed.

Lemma toFixed_shape x f :
  exists a b : string,
    JS.toFixed x (S f) = (if Qle_bool 0 x then "" else "-") +:+ a +:+ "." +:+ b
    /\ a <> "" /\ Format.all_digits a = true /\ Format.all_digits b = true
    /\ String.length b = S f
    /\ JS.digits_value 0 (a +:+ b) = Format.units x (S f).
Proof.
  rewrite toFixed_unfold. cbv zeta.
  destruct (padded_spec (Format.units x (S f)) (S f) (units_nonneg _ _))
    as (Hlen & Hd & Hv).
  set (m := padded (Format.units x (S f)) (S f)) in *.
  set (k := String.length m) in *.
  destruct (substring_cut m (k - S f) ltac:(lia)) as (Hcut & Hla & Hlb).
  fold k in Hcut, Hlb. replace (k - (k - S f)) with (S f) in Hcut, Hlb by lia.
  exists (substring 0 (k - S f) m), (substring (k - S f) (S f) m).
  rewrite Hcut. rewrite <- Hcut, all_digits_append in Hd.
  apply andb_true_iff in Hd as [Hda Hdb].
  split; [reflexivity|]. split.
  { intros E. rewrite E in Hla. simpl in Hla. lia. }
  done.
Qed.

Lemma toFixed_fixed_point x f :
  exists m : string,
    JS.toFixed x (S f) = (if Qle_bool 0 x then "" else "-") +:+ m
    /\ Format.fixed_point (S f) m.
Proof.
  destruct (toFixed_shape x f) as (a & b & E & Ha & Hda & Hdb & Hl & _).
  exists (a +:+ "." +:+ b). split; [exact E|]. by exists a, b.
Qed.

End ToFixed.

(** ** Rounding to binary64 *)

Section Binary64.
Import JS Binary64Spec.
Local Open Scope Q_scope.

Lemma pow2_pos e : 0 < pow2 e.
Proof. apply Qpower_0_lt. reflexivity. Qed.

Lemma pow2_plus a b : pow2 (a + b) == pow2 a * pow2 b.
Proof. apply Qpower_plus. discriminate. Qed.

Lemma pow2_le a b : (a <= b)%Z -> pow2 a <= pow2 b.
Proof. intros H. apply Qpower_le_compat_l; [exact H|]. discriminate. Qed.

Lemma pow2_lt a b : (a < b)%Z -> pow2 a < pow2 b.
Proof. intros H. apply Qpower_lt_compat_l; [exact H|]. reflexivity. Qed.

Lemma pow2_lt_inv a b : pow2 a < pow2 b -> (a < b)%Z.
Proof. intros H. apply (Qpower_lt_compat_l_inv 2); [exact H|reflexivity]. Qed.

Lemma pow2_Z (n : Z) : (0 <= n)%Z -> pow2 n == inject_Z (2 ^ n).
Proof. intros H. unfold pow2. symmetry. apply (Zpower_Qpower 2 n H). Qed.

Lemma pow2_succ a : pow2 (a + 1) == 2 * pow2 a.
Proof. rewrite pow2_plus. change (pow2 1) with 2. ring. Qed.

Lemma pow2_pred a : pow2 (a - 1) == (1 # 2) * pow2 a.
Proof.
  pose proof (pow2_succ (a - 1)) as H.
  replace (a - 1 + 1)%Z with a in H by lia. rewrite H. ring.
Qed.

(** [Z.log2] brackets a positive integer. *)
Lemma log2_bracket (n : Z) :
  (0 < n)%Z -> pow2 (Z.log2 n) <= inject_Z n < pow2 (Z.log2 n + 1).
Proof.
  intros Hn. destruct (Z.log2_spec n Hn) as [Hlo Hhi].
  pose proof (Z.log2_nonneg n) as H0.
  rewrite !pow2_Z by lia. rewrite <- Zle_Qle, <- Zlt_Qlt.
  replace (Z.log2 n + 1)%Z with (Z.succ (Z.log2 n)) by lia. lia.
Qed.

Lemma ilog2_spec (x : Q) :
  0 < x -> pow2 (ilog2 x) <= x < pow2 (ilog2 x + 1).
Proof.
  intros Hx. unfold ilog2.
  destruct x as [n d]. cbn [Qnum Qden].
  assert (0 < n)%Z as Hn by (unfold Qlt in Hx; simpl in Hx; lia).
  destruct (log2_bracket n Hn) as [Hnlo Hnhi].
  destruct (log2_bracket (Zpos d) eq_refl) as [Hdlo Hdhi].
  set (ln := Z.log2 n) in *. set (ld := Z.log2 (Zpos d)) in *.
  assert ((n # d) * inject_Z (Zpos d) == inject_Z n) as Hnd.
  { unfold Qeq, Qmult, inject_Z. simpl. lia. }
  assert (0 < inject_Z (Zpos d)) as Hdpos by reflexivity.
  set (x := n # d) in *. set (D := inject_Z (Zpos d)) in *.
  set (N := inject_Z n) in *.
  assert (pow2 (ln - ld - 1) * pow2 (ld + 1) == pow2 ln) as E1.
  { rewrite <- pow2_plus. f_equiv. lia. }
  assert (pow2 (ln - ld + 1) * pow2 ld == pow2 (ln + 1)) as E2.
  { rewrite <- pow2_plus. f_equiv. lia. }
  pose proof (pow2_pos (ln - ld - 1)) as P1.
  pose proof (pow2_pos (ln - ld + 1)) as P2.
  pose proof (pow2_pos ld) as P3.
  pose proof (pow2_pos (ld + 1)) as P4.
  assert (pow2 (ln - ld - 1) < x) as Hlow.
  { destruct (Qlt_le_dec (pow2 (ln - ld - 1)) x) as [H|H]; [exact H|].
    exfalso.
    assert (x * D < pow2 (ln - ld - 1) * pow2 (ld + 1)) as Hc.
    { apply Qle_lt_trans with (pow2 (ln - ld - 1) * D).
      - apply Qmult_le_compat_r; [exact H|]. now apply Qlt_le_weak.
      - apply Qmult_lt_l; assumption. }
    rewrite E1, Hnd in Hc. apply (Qlt_irrefl N).
    eapply Qlt_le_trans; eassumption. }
  assert (x < pow2 (ln - ld + 1)) as Hhigh.
  { destruct (Qlt_le_dec x (pow2 (ln - ld + 1))) as [H|H]; [exact H|].
    exfalso.
    assert (pow2 (ln - ld + 1) * pow2 ld <= x * D) as Hc.
    { apply Qle_trans with (pow2 (ln - ld + 1) * D).
      - apply Qmult_le_l; assumption.
      - apply Qmult_le_compat_r; [exact H|]. now apply Qlt_le_weak. }
    rewrite E2, Hnd in Hc. apply (Qlt_irrefl N).
    eapply Qlt_le_trans; eassumption. }
  destruct (Qle_bool (pow2 (ln - ld)) x) eqn:Hk.
  - apply Qle_bool_iff in Hk. split; assumption.
  - split.
    + now apply Qlt_le_weak.
    + replace (ln - ld - 1 + 1)%Z with (ln - ld)%Z by lia.
      destruct (Qlt_le_dec x (pow2 (ln - ld))) as [H|H]; [exact H|].
      apply Qle_bool_iff in H. congruence.
Qed.

Lemma ilog2_unique (x : Q) (k : Z) :
  pow2 k <= x < pow2 (k + 1) -> ilog2 x = k.
Proof.
  intros [Hlo Hhi].
  assert (0 < x) as Hx by (eapply Qlt_le_trans; [apply pow2_pos|exact Hlo]).
  destruct (ilog2_spec x Hx) as [Hlo' Hhi'].
  assert (pow2 k < pow2 (ilog2 x + 1)) as H1 by (eapply Qle_lt_trans; eassumption).
  assert (pow2 (ilog2 x) < pow2 (k + 1)) as H2 by (eapply Qle_lt_trans; eassumption).
  apply pow2_lt_inv in H1, H2. lia.
Qed.

(** Rounding to the nearest integer, ties to even. *)
Lemma round_half_even_cases (q : Q) :
  let f := Qfloor q in
  (q - inject_Z f < 1 # 2 /\ round_half_even q = f)
  \/ (1 # 2 < q - inject_Z f /\ round_half_even q = (f + 1)%Z)
  \/ (q - inject_Z f == 1 # 2
      /\ round_half_even q = (if Z.even f then f else f + 1)%Z).
Proof.
  cbv zeta. unfold round_half_even.
  destruct (Qcompare_spec (q - inject_Z (Qfloor q)) (1 # 2)) as [H|H|H].
  - right. right. split; [exact H|reflexivity].
  - left. split; [exact H|reflexivity].
  - right. left. split; [exact H|reflexivity].
Qed.

Lemma round_half_even_close (q : Q) :
  q - (1 # 2) <= inject_Z (round_half_even q) <= q + (1 # 2).
Proof.
  pose proof (Qfloor_le q) as Hlo. pose proof (Qlt_floor q) as Hhi.
  rewrite inject_Z_plus in Hhi. change (inject_Z 1) with 1 in Hhi.
  destruct (round_half_even_cases q) as [[H ->]|[[H ->]|[H ->]]].
  - split; lra.
  - rewrite inject_Z_plus. change (inject_Z 1) with 1. split; lra.
  - destruct (Z.even (Qfloor q)).
    + split; lra.
    + rewrite inject_Z_plus. change (inject_Z 1) with 1. split; lra.
Qed.

Lemma round_half_even_Z (z : Z) : round_half_even (inject_Z z) = z.
Proof.
  destruct (round_half_even_cases (inject_Z z)) as [[H ->]|[[H E]|[H E]]];
    rewrite Qfloor_Z in *; [reflexivity| |]; exfalso; lra.
Qed.

Lemma round_half_even_mono (q q' : Q) :
  q <= q' -> (round_half_even q <= round_half_even q')%Z.
Proof.
  intros Hq. pose proof (Qfloor_resp_le q q' Hq) as Hf.
  pose proof (Qfloor_le q) as Hlo. pose proof (Qlt_floor q) as Hhi.
  pose proof (Qfloor_le q') as Hlo'. pose proof (Qlt_floor q') as Hhi'.
  destruct (Z.eq_dec (Qfloor q) (Qfloor q')) as [E|E].
  - destruct (round_half_even_cases q) as [[H ->]|[[H ->]|[H ->]]];
      destruct (round_half_even_cases q') as [[H' ->]|[[H' ->]|[H' ->]]];
      rewrite <- E in *; try lia;
      try (destruct (Z.even (Qfloor q)); lia);
      exfalso; lra.
  - assert (Qfloor q + 1 <= Qfloor q')%Z as Hstep by lia.
    destruct (round_half_even_cases q) as [[H ->]|[[H ->]|[H ->]]];
      destruct (round_half_even_cases q') as [[H' ->]|[[H' ->]|[H' ->]]];
      try lia;
      destruct (Z.even (Qfloor q)); try destruct (Z.even (Qfloor q')); lia.
Qed.

Lemma round_half_even_comp (q q' : Q) :
  q == q' -> round_half_even q = round_half_even q'.
Proof.
  intros E. apply Z.le_antisymm; apply round_half_even_mono; rewrite E;
    apply Qle_refl.
Qed.

End Binary64.

Section Binary64Values.
Import JS Binary64Spec.
Local Open Scope Q_scope.

Lemma exponent_ge a : (-1074 <= exponent a)%Z /\ (ilog2 a - 52 <= exponent a)%Z.
Proof. unfold exponent. lia. Qed.

Lemma exponent_cases a :
  exponent a = (-1074)%Z \/ exponent a = (ilog2 a - 52)%Z.
Proof. unfold exponent. lia. Qed.

Lemma div_pow2 a e : a / pow2 e * pow2 e == a.
Proof. field. pose proof (pow2_pos e). lra. Qed.

Lemma scaled_lt a e k : a < pow2 (e + k) -> a / pow2 e < pow2 k.
Proof.
  intros H. rewrite pow2_plus in H. pose proof (pow2_pos e) as He.
  apply Qmult_lt_r with (pow2 e); [exact He|]. rewrite div_pow2. lra.
Qed.

Lemma scaled_le a e k : pow2 (e + k) <= a -> pow2 k <= a / pow2 e.
Proof.
  intros H. rewrite pow2_plus in H. pose proof (pow2_pos e) as He.
  apply Qmult_le_r with (pow2 e); [exact He|]. rewrite div_pow2. lra.
Qed.

Lemma mantissa_bounds a :
  0 < a ->
  let m := round_half_even (a / pow2 (exponent a)) in
  (0 <= m <= 2 ^ 53)%Z
  /\ (exponent a = (-1074)%Z \/ (2 ^ 52 <= m)%Z).
Proof.
  intros Ha. cbv zeta. destruct (ilog2_spec a Ha) as [Hlo Hhi].
  destruct (exponent_ge a) as [He1 He2].
  set (e := exponent a) in *. split; [split|].
  - rewrite <- (round_half_even_Z 0). apply round_half_even_mono.
    apply Qlt_le_weak. apply Qlt_shift_div_l; [apply pow2_pos|].
    rewrite Qmult_0_l. exact Ha.
  - rewrite <- (round_half_even_Z (2 ^ 53)%Z). apply round_half_even_mono.
    apply Qlt_le_weak. rewrite <- pow2_Z by lia. apply scaled_lt.
    eapply Qlt_le_trans; [exact Hhi|]. apply pow2_le. lia.
  - destruct (exponent_cases a) as [E|E]; [left; exact E|]. right.
    rewrite <- (round_half_even_Z (2 ^ 52)%Z). apply round_half_even_mono.
    rewrite <- pow2_Z by lia. apply scaled_le. fold e in E.
    replace (e + 52)%Z with (ilog2 a) by lia. exact Hlo.
Qed.

Lemma round_magnitude_close a :
  a - (1 # 2) * pow2 (exponent a) <= round_magnitude a
  <= a + (1 # 2) * pow2 (exponent a).
Proof.
  unfold round_magnitude. set (e := exponent a).
  pose proof (round_half_even_close (a / pow2 e)) as [Hlo Hhi].
  pose proof (div_pow2 a e) as Hq. pose proof (pow2_pos e) as He.
  set (m := inject_Z (round_half_even (a / pow2 e))) in *.
  set (q := a / pow2 e) in *. set (p := pow2 e) in *.
  split.
  - apply Qle_trans with ((q - (1 # 2)) * p).
    + rewrite <- Hq. ring_simplify. apply Qle_refl.
    + apply Qmult_le_compat_r; [exact Hlo|]. now apply Qlt_le_weak.
  - apply Qle_trans with ((q + (1 # 2)) * p).
    + apply Qmult_le_compat_r; [exact Hhi|]. now apply Qlt_le_weak.
    + rewrite <- Hq. ring_simplify. apply Qle_refl.
Qed.

(** At an exponent where [a] is an integer multiple, nothing is lost. *)
Lemma round_at_exact a e z :
  a == inject_Z z * pow2 e ->
  inject_Z (round_half_even (a / pow2 e)) * pow2 e == a.
Proof.
  intros E. assert (a / pow2 e == inject_Z z) as Hq.
  { rewrite E. field. pose proof (pow2_pos e). intros H0. rewrite H0 in H.
    now apply Qlt_irrefl in H. }
  rewrite (round_half_even_comp _ _ Hq), round_half_even_Z. now symmetry.
Qed.

Lemma ilog2_scaled m e :
  (0 < m)%Z -> ilog2 (inject_Z m * pow2 e) = (Z.log2 m + e)%Z.
Proof.
  intros Hm. apply ilog2_unique. destruct (log2_bracket m Hm) as [Hlo Hhi].
  pose proof (pow2_pos e) as He.
  replace (Z.log2 m + e + 1)%Z with (Z.log2 m + 1 + e)%Z by lia.
  rewrite (pow2_plus (Z.log2 m) e), (pow2_plus (Z.log2 m + 1) e). split.
  - apply Qmult_le_compat_r; [exact Hlo|]. now apply Qlt_le_weak.
  - apply Qmult_lt_r; assumption.
Qed.

Lemma ilog2_comp a a' : 0 < a -> a == a' -> ilog2 a = ilog2 a'.
Proof.
  intros Ha E. symmetry. apply ilog2_unique. rewrite <- E. now apply ilog2_spec.
Qed.

Lemma ilog2_exponent_comp a a' : 0 < a -> a == a' -> exponent a = exponent a'.
Proof. intros Ha E. unfold exponent. now rewrite (ilog2_comp a a' Ha E). Qed.

Lemma round_magnitude_comp a a' :
  0 < a -> a == a' -> round_magnitude a == round_magnitude a'.
Proof.
  intros Ha E. unfold round_magnitude, exponent.
  rewrite <- (ilog2_comp a a' Ha E).
  set (e := Z.max (ilog2 a - 52) (-1074)).
  assert (a / pow2 e == a' / pow2 e) as Hq by (now rewrite E).
  now rewrite (round_half_even_comp _ _ Hq).
Qed.

Lemma round_magnitude_exact a :
  0 < a -> representable a -> round_magnitude a == a.
Proof.
  intros Ha (m & e & E & Hm & He & Hfull).
  assert (0 < m)%Z as Hmpos.
  { destruct (Z.lt_trichotomy m 0) as [H|[H|H]]; [| |exact H]; exfalso.
    - assert (inject_Z m * pow2 e < 0) as Hneg.
      { pose proof (pow2_pos e) as Hp. rewrite Zlt_Qlt in H.
        change (inject_Z 0) with 0 in H. set (p := pow2 e) in *.
        set (M := inject_Z m) in *.
        apply Qlt_le_trans with (0 * p); [apply Qmult_lt_r; assumption|].
        rewrite Qmult_0_l. apply Qle_refl. }
      rewrite <- E in Hneg. lra.
    - subst m. rewrite E in Ha. change (inject_Z 0) with 0 in Ha.
      rewrite Qmult_0_l in Ha. now apply Qlt_irrefl in Ha. }
  rewrite Z.abs_eq in Hm, Hfull by lia.
  rewrite (round_magnitude_comp a _ Ha E).
  unfold round_magnitude, exponent. rewrite (ilog2_scaled m e Hmpos).
  rewrite E.
  destruct (Z.log2_spec m Hmpos) as [Hlo Hhi].
  destruct (Z.eq_dec m (2 ^ 53)%Z) as [E53|N53].
  - (* the mantissa carried into the next binade *)
    subst m. rewrite Z.log2_pow2 by lia.
    replace (Z.max (53 + e - 52) (-1074)) with (e + 1)%Z by lia.
    apply (round_at_exact _ _ (2 ^ 52)%Z). rewrite pow2_succ.
    replace (2 ^ 53)%Z with (2 * 2 ^ 52)%Z by reflexivity.
    rewrite inject_Z_mult. change (inject_Z 2) with 2. ring.
  - assert (Z.max (Z.log2 m + e - 52) (-1074) = e) as ->.
    { assert (Z.log2 m <= 52)%Z as H52.
      { apply Z.lt_succ_r. apply Z.log2_lt_pow2; [exact Hmpos|]. simpl. lia. }
      destruct Hfull as [->|Hfull]; [lia|].
      assert (52 <= Z.log2 m)%Z.
      { apply Z.log2_le_pow2; [exact Hmpos|]. exact Hfull. }
      lia. }
    apply (round_at_exact _ _ m). reflexivity.
Qed.

Lemma round_magnitude_representable a :
  0 < a -> representable (round_magnitude a).
Proof.
  intros Ha. destruct (mantissa_bounds a Ha) as [[H0 H53] Hfull].
  destruct (exponent_ge a) as [He _].
  exists (round_half_even (a / pow2 (exponent a))), (exponent a).
  rewrite Z.abs_eq by exact H0. split; [reflexivity|]. split; [exact H53|].
  split; [exact He|exact Hfull].
Qed.

Lemma round_magnitude_nonneg a : 0 < a -> 0 <= round_magnitude a.
Proof.
  intros Ha. destruct (mantissa_bounds a Ha) as [[H0 _] _].
  unfold round_magnitude. apply Qmult_le_0_compat.
  - rewrite Zle_Qle in H0. exact H0.
  - apply Qlt_le_weak, pow2_pos.
Qed.

End Binary64Values.

Section Binary64Rounding.
Import JS Binary64Spec.
Local Open Scope Q_scope.

Lemma binary64_zero x : x == 0 -> binary64 x = 0.
Proof. intros E. unfold binary64. apply Qeq_bool_iff in E. now rewrite E. Qed.

Lemma binary64_pos x : 0 < x -> binary64 x == round_magnitude x.
Proof.
  intros Hx. unfold binary64.
  destruct (Qeq_bool x 0) eqn:E0.
  { apply Qeq_bool_iff in E0. rewrite E0 in Hx. now apply Qlt_irrefl in Hx. }
  assert (Qle_bool 0 x = true) as -> by (apply Qle_bool_iff; lra).
  rewrite Qred_correct, Qmult_1_l.
  assert (Qabs x == x) as Ea by (apply Qabs_pos; lra).
  apply round_magnitude_comp; [rewrite Ea; exact Hx|exact Ea].
Qed.

Lemma binary64_neg x : x < 0 -> binary64 x == - round_magnitude (- x).
Proof.
  intros Hx. unfold binary64.
  destruct (Qeq_bool x 0) eqn:E0.
  { apply Qeq_bool_iff in E0. rewrite E0 in Hx. now apply Qlt_irrefl in Hx. }
  destruct (Qle_bool 0 x) eqn:E1.
  { apply Qle_bool_iff in E1. lra. }
  rewrite Qred_correct.
  assert (Qabs x == - x) as Ea by (apply Qabs_neg; lra).
  rewrite (round_magnitude_comp (Qabs x) (- x)); [ring| |exact Ea].
  rewrite Ea. lra.
Qed.

Lemma binary64_cases x :
  (x == 0 /\ binary64 x = 0)
  \/ (0 < x /\ binary64 x == round_magnitude x)
  \/ (x < 0 /\ binary64 x == - round_magnitude (- x)).
Proof.
  destruct (Q_dec x 0) as [[H|H]|H].
  - right. right. split; [exact H|now apply binary64_neg].
  - right. left. split; [exact H|now apply binary64_pos].
  - left. split; [exact H|now apply binary64_zero].
Qed.

Lemma binary64_canonical x : Qred (binary64 x) = binary64 x.
Proof.
  unfold binary64. destruct (Qeq_bool x 0); [reflexivity|].
  apply Qred_complete, Qred_correct.
Qed.

(** Equal values have one result. *)
Lemma binary64_comp x y : x == y -> binary64 x = binary64 y.
Proof.
  intros E. rewrite <- (binary64_canonical x), <- (binary64_canonical y).
  apply Qred_complete.
  destruct (binary64_cases x) as [[H ->]|[[H ->]|[H ->]]].
  - rewrite binary64_zero; [reflexivity|]. now rewrite <- E.
  - rewrite binary64_pos by (now rewrite <- E).
    now apply round_magnitude_comp.
  - rewrite binary64_neg by (now rewrite <- E).
    rewrite (round_magnitude_comp (- x) (- y)); [reflexivity|lra|now rewrite E].
Qed.

Lemma binary64_nonneg x : 0 <= x -> 0 <= binary64 x.
Proof.
  intros Hx. destruct (binary64_cases x) as [[H ->]|[[H ->]|[H _]]].
  - apply Qle_refl.
  - now apply round_magnitude_nonneg.
  - lra.
Qed.

Lemma binary64_nonpos x : x <= 0 -> binary64 x <= 0.
Proof.
  intros Hx. destruct (binary64_cases x) as [[H ->]|[[H _]|[H ->]]].
  - apply Qle_refl.
  - lra.
  - assert (0 < - x) as Hp by lra.
    pose proof (round_magnitude_nonneg _ Hp). lra.
Qed.

Lemma representable_opp x : representable x -> representable (- x).
Proof.
  intros (m & e & E & Hm & He & Hfull). exists (- m)%Z, e.
  rewrite Z.abs_opp. split; [|split; [exact Hm|split; [exact He|exact Hfull]]].
  rewrite E, inject_Z_opp. ring.
Qed.

Lemma representable_zero : representable 0.
Proof.
  exists 0%Z, (-1074)%Z. split; [|split; [|split; [|left]]]; try reflexivity; try lia.
Qed.

Lemma representable_comp x y : x == y -> representable x -> representable y.
Proof.
  intros E (m & e & Ex & H). exists m, e. split; [|exact H]. now rewrite <- E.
Qed.

Lemma binary64_representable x : representable (binary64 x).
Proof.
  destruct (binary64_cases x) as [[H ->]|[[H E]|[H E]]].
  - apply representable_zero.
  - apply (representable_comp (round_magnitude x)); [now symmetry|].
    now apply round_magnitude_representable.
  - apply (representable_comp (- round_magnitude (- x))); [now symmetry|].
    apply representable_opp, round_magnitude_representable. lra.
Qed.

(** A binary64 value is its own rounding. *)
Lemma binary64_exact x : representable x -> binary64 x == x.
Proof.
  intros Hr. destruct (binary64_cases x) as [[H ->]|[[H ->]|[H ->]]].
  - now symmetry.
  - now apply round_magnitude_exact.
  - rewrite round_magnitude_exact; [ring|lra|now apply representable_opp].
Qed.

Lemma binary64_idempotent x : binary64 (binary64 x) = binary64 x.
Proof.
  transitivity (Qred (binary64 (binary64 x))); [symmetry; apply binary64_canonical|].
  transitivity (Qred (binary64 x)); [|apply binary64_canonical].
  apply Qred_complete, binary64_exact, binary64_representable.
Qed.

Lemma representable_on_grid x : representable x -> on_grid x.
Proof.
  intros (m & e & E & _ & He & _). exists (m * 2 ^ (e + 1074))%Z.
  rewrite E, inject_Z_mult, <- pow2_Z by lia.
  rewrite <- Qmult_assoc, <- pow2_plus. f_equiv. f_equiv. lia.
Qed.

Lemma on_grid_minus x y : on_grid x -> on_grid y -> on_grid (x - y).
Proof.
  intros [a Ea] [b Eb]. exists (a - b)%Z.
  rewrite Ea, Eb. unfold Zminus. rewrite inject_Z_plus, inject_Z_opp. ring.
Qed.

Lemma grid_least x : on_grid x -> 0 < x -> pow2 (-1074) <= x.
Proof.
  intros [z E] Hx. pose proof (pow2_pos (-1074)) as Hp.
  assert (1 <= z)%Z as Hz.
  { destruct (Z.le_gt_cases 1 z) as [H|H]; [exact H|]. exfalso.
    assert (z <= 0)%Z as H0 by lia. rewrite Zle_Qle in H0.
    change (inject_Z 0) with 0 in H0. rewrite E in Hx.
    set (p := pow2 (-1074)) in *. set (Z0 := inject_Z z) in *.
    assert (Z0 * p <= 0 * p) as Hc.
    { apply Qmult_le_compat_r; [exact H0|]. now apply Qlt_le_weak. }
    rewrite Qmult_0_l in Hc. lra. }
  rewrite E. rewrite Zle_Qle in Hz. change (inject_Z 1) with 1 in Hz.
  set (p := pow2 (-1074)) in *. set (Z0 := inject_Z z) in *.
  apply Qle_trans with (1 * p); [rewrite Qmult_1_l; apply Qle_refl|].
  apply Qmult_le_compat_r; [exact Hz|]. now apply Qlt_le_weak.
Qed.

Lemma exponent_below a : 0 < a -> pow2 (-1074) <= a -> pow2 (exponent a) <= a.
Proof.
  intros Ha Hg. destruct (ilog2_spec a Ha) as [Hlo _].
  destruct (exponent_cases a) as [->| ->]; [exact Hg|].
  eapply Qle_trans; [|exact Hlo]. apply pow2_le. lia.
Qed.

(** On the grid nothing positive is rounded to zero. *)
Lemma binary64_positive x : on_grid x -> 0 < x -> 0 < binary64 x.
Proof.
  intros Hg Hx. rewrite (binary64_pos x Hx).
  pose proof (exponent_below x Hx (grid_least x Hg Hx)) as He.
  unfold round_magnitude. set (e := exponent x) in *.
  pose proof (pow2_pos e) as Hp.
  assert (1 <= round_half_even (x / pow2 e))%Z as Hm.
  { rewrite <- (round_half_even_Z 1). apply round_half_even_mono.
    change (inject_Z 1) with 1. apply Qle_shift_div_l; [exact Hp|].
    now rewrite Qmult_1_l. }
  rewrite Zle_Qle in Hm. change (inject_Z 1) with 1 in Hm.
  set (m := inject_Z (round_half_even (x / pow2 e))) in *.
  set (p := pow2 e) in *.
  apply Qlt_le_trans with (1 * p); [now rewrite Qmult_1_l|].
  apply Qmult_le_compat_r; [exact Hm|]. now apply Qlt_le_weak.
Qed.

(** The sign of a difference of binary64 values survives the rounding. *)
Lemma binary64_difference_sign a b :
  representable a -> representable b ->
  (0 < binary64 (a - b) <-> b < a).
Proof.
  intros Ha Hb. split.
  - intros H. destruct (Qlt_le_dec b a) as [Hlt|Hle]; [exact Hlt|]. exfalso.
    assert (a - b <= 0) as Hd by lra.
    pose proof (binary64_nonpos _ Hd). lra.
  - intros H. apply binary64_positive; [|lra].
    apply on_grid_minus; now apply representable_on_grid.
Qed.

Lemma binary64_close x :
  ~ x == 0 ->
  Qabs (binary64 x - x) <= (1 # 2) * pow2 (exponent (Qabs x)).
Proof.
  intros Hx. destruct (binary64_cases x) as [[H _]|[[H E]|[H E]]]; [contradiction| |].
  - rewrite E. pose proof (round_magnitude_close x) as [Hlo Hhi].
    rewrite (ilog2_exponent_comp (Qabs x) x).
    + apply Qabs_Qle_condition. split; lra.
    + rewrite Qabs_pos; lra.
    + apply Qabs_pos; lra.
  - rewrite E. pose proof (round_magnitude_close (- x)) as [Hlo Hhi].
    rewrite (ilog2_exponent_comp (Qabs x) (- x)).
    + apply Qabs_Qle_condition. split; lra.
    + rewrite Qabs_neg; lra.
    + apply Qabs_neg; lra.
Qed.

Lemma on_grid_opp x : on_grid x -> on_grid (- x).
Proof.
  intros [z E]. exists (- z)%Z. rewrite E, inject_Z_opp. ring.
Qed.

Lemma round_magnitude_relative a :
  0 < a -> on_grid a ->
  a - a * pow2 (-53) <= round_magnitude a <= a + a * pow2 (-53).
Proof.
  intros Ha [z Ez]. destruct (exponent_cases a) as [E|E].
  - assert (round_magnitude a == a) as ->.
    { unfold round_magnitude. rewrite E. now apply (round_at_exact a _ z). }
    pose proof (pow2_pos (-53)) as Hp. set (p := pow2 (-53)) in *.
    assert (0 <= a * p) by (apply Qmult_le_0_compat; lra). split; lra.
  - pose proof (round_magnitude_close a) as [Hlo Hhi].
    destruct (ilog2_spec a Ha) as [Hl _].
    assert ((1 # 2) * pow2 (exponent a) <= a * pow2 (-53)) as Hb.
    { rewrite <- pow2_pred, E.
      replace (ilog2 a - 52 - 1)%Z with (ilog2 a + -53)%Z by lia.
      rewrite pow2_plus. apply Qmult_le_compat_r; [exact Hl|].
      apply Qlt_le_weak, pow2_pos. }
    set (h := (1 # 2) * pow2 (exponent a)) in *.
    set (r := a * pow2 (-53)) in *. split; lra.
Qed.

(** The relative error of rounding a value of the grid, as a difference
    of binary64 values is one. *)
Lemma binary64_relative x :
  on_grid x -> Qabs (binary64 x - x) <= Qabs x * pow2 (-53).
Proof.
  intros Hg. destruct (binary64_cases x) as [[H ->]|[[H ->]|[H ->]]].
  - rewrite H. vm_compute. discriminate.
  - destruct (round_magnitude_relative x H Hg) as [Hlo Hhi].
    rewrite (Qabs_pos x) by lra. apply Qabs_Qle_condition.
    set (r := x * pow2 (-53)) in *. split; lra.
  - assert (0 < - x) as Hp by lra.
    destruct (round_magnitude_relative (- x) Hp (on_grid_opp x Hg)) as [Hlo Hhi].
    rewrite (Qabs_neg x) by lra. apply Qabs_Qle_condition.
    set (r := - x * pow2 (-53)) in *. split; lra.
Qed.

(** The error of rounding below a power of two. *)
Lemma binary64_close_below x k :
  Qabs x < pow2 k -> (-1021 <= k)%Z ->
  Qabs (binary64 x - x) <= pow2 (k - 54).
Proof.
  intros Hx Hk. destruct (Qeq_dec x 0) as [E|N].
  - rewrite (binary64_zero x E), E. apply Qlt_le_weak, pow2_pos.
  - eapply Qle_trans; [apply (binary64_close x N)|].
    rewrite <- pow2_pred. apply pow2_le.
    assert (0 < Qabs x) as Ha.
    { destruct (Q_dec x 0) as [[H|H]|H]; [| |contradiction].
      - rewrite Qabs_neg; lra.
      - rewrite Qabs_pos; lra. }
    destruct (ilog2_spec _ Ha) as [Hlo _].
    assert (pow2 (ilog2 (Qabs x)) < pow2 k) as Hlt by (eapply Qle_lt_trans; eassumption).
    apply pow2_lt_inv in Hlt. unfold exponent. lia.
Qed.

End Binary64Rounding.

(** ** Maps that may throw *)

Section ArrayMap.
Context {A B : Type} (f : A -> completion B).

Lemma Array_map_cons x l :
  Array_map f (x :: l)
  = match f x with
    | Return y =>
        match Array_map f l with
        | Return ys => Return (y :: ys)
        | Throw e => Throw e
        end
    | Throw e => Throw e
    end.
Proof. reflexivity. Qed.

Lemma Array_map_Return l : forall ys,
  Array_map f l = Return ys <-> Forall2 (fun x y => f x = Return y) l ys.
Proof.
  induction l as [|x l IH]; intros ys.
  - split; [intros [= <-]; constructor|]. intros H. by inversion H.
  - rewrite Array_map_cons. split.
    + destruct (f x) as [y|e] eqn:Hx; [|discriminate].
      destruct (Array_map f l) as [ys'|e] eqn:Hl; [|discriminate].
      intros [= <-]. constructor; [exact Hx|]. by apply IH.
    + intros H. inversion H as [|? y ? ys' Hx Hl]; subst.
      apply IH in Hl. by rewrite Hx, Hl.
Qed.

Lemma Array_map_length l ys : Array_map f l = Return ys -> length ys = length l.
Proof.
  intros H. apply Array_map_Return in H. symmetry.
  induction H; simpl; [reflexivity|]. by f_equal.
Qed.

(** A map returns when its function does on every element. *)
Lemma Array_map_returns l :
  (forall x, In x l -> exists y, f x = Return y) ->
  exists ys, Array_map f l = Return ys.
Proof.
  induction l as [|x l IH]; intros H; [by eexists|].
  destruct (H x (or_introl eq_refl)) as [y Hy].
  destruct IH as [ys Hys]; [intros x' Hx'; apply H; by right|].
  rewrite Array_map_cons, Hy, Hys. by eexists.
Qed.

(** What a map throws, one of its elements threw; and it throws [e] when
    an element does and no element throws anything else. *)
Lemma Array_map_Throw l e :
  Array_map f l = Throw e -> exists x, In x l /\ f x = Throw e.
Proof.
  induction l as [|x l IH]; [discriminate|]. rewrite Array_map_cons.
  destruct (f x) as [y|e'] eqn:Hx.
  - destruct (Array_map f l) as [ys|e'] eqn:Hl; [discriminate|].
    intros [= ->]. destruct (IH eq_refl) as (x' & Hin & Hx').
    exists x'. split; [by right|exact Hx'].
  - intros [= ->]. exists x. split; [by left|exact Hx].
Qed.

Lemma Array_map_throws l e :
  (forall x e', In x l -> f x = Throw e' -> e' = e) ->
  (exists x, In x l /\ f x = Throw e) ->
  Array_map f l = Throw e.
Proof.
  intros Hall (x & Hin & Hx).
  destruct (Array_map f l) as [ys|e'] eqn:Hl.
  - apply Array_map_Return in Hl. exfalso. clear Hall.
    induction Hl as [|x' y l' ys' Hx' Hl' IH]; [done|].
    destruct Hin as [->|Hin]; [congruence|by apply IH].
  - destruct (Array_map_Throw l e' Hl) as (x' & Hin' & Hx').
    f_equal. by apply (Hall x').
Qed.

End ArrayMap.

(** ** The coverage delta *)

Section Delta.
Import ComparisonTools Binary64Spec DeltaSpec.
Local Open Scope Q_scope.

(** The difference of two numbers is a binary64 number, the exact
    difference up to one rounding. *)
Lemma minus_representable x y : representable (JS.minus x y).
Proof. apply binary64_representable. Qed.

Lemma minus_rounds x y :
  rounds (JS.minus x y) (delta (JS.binary64 y) (JS.binary64 x)).
Proof.
  unfold rounds, delta, JS.minus. apply binary64_relative.
  apply on_grid_minus; apply representable_on_grid, binary64_representable.
Qed.

Lemma minus_binary64 x y :
  representable x -> representable y -> JS.minus x y = JS.binary64 (x - y).
Proof.
  intros Hx Hy. unfold JS.minus. apply binary64_comp.
  by rewrite (binary64_exact x Hx), (binary64_exact y Hy).
Qed.

Lemma minus_rounds_exact x y :
  representable x -> representable y -> rounds (JS.minus x y) (delta y x).
Proof.
  intros Hx Hy. rewrite (minus_binary64 x y Hx Hy).
  unfold rounds, delta. apply binary64_relative.
  apply on_grid_minus; by apply representable_on_grid.
Qed.

Lemma minus_exact x y :
  representable x -> representable y -> representable (delta y x) ->
  JS.minus x y == delta y x.
Proof.
  intros Hx Hy Hd. rewrite (minus_binary64 x y Hx Hy). by apply binary64_exact.
Qed.

Lemma render_change_renders (d : JS.number) : renders d (render_change (Some d)).
Proof.
  destruct (toFixed_shape d 1) as (a & b & E & Hne & Ha & Hb & Hl & Hv).
  exists a, b. split; [|done].
  unfold render_change, JS.ge_zero. rewrite E.
  destruct (Qle_bool 0 d); by rewrite !append_assoc.
Qed.

Lemma render_change_plus (d : JS.number) :
  Format.starts_with "+" (render_change (Some d)) <-> 0 <= d.
Proof.
  destruct (render_change_renders d) as (a & b & -> & _).
  rewrite <- Qle_bool_iff. destruct (Qle_bool 0 d).
  - split; [done|]. intros _. by eexists.
  - split; [|done]. intros [rest [=]].
Qed.

Lemma render_percentage_null v :
  is_null v = true -> render_percentage v = Throw Tool.TypeError_toFixed_null.
Proof. by destruct v as [[|c]|]. Qed.

Lemma render_percentage_returns v :
  is_null v = false -> exists s, render_percentage v = Return s.
Proof. destruct v as [[|c]|]; [done| |]; intros _; by eexists. Qed.

(** The [change] field of an entry. *)
Lemma changed_file_change file entry :
  changed_file file = Return entry ->
  ChangedFile.change entry = render_change (file_change file).
Proof.
  unfold changed_file, mbind, completion_bind, mret, completion_ret. cbv zeta.
  destruct (render_percentage _) as [base|]; [|discriminate].
  destruct (render_percentage _) as [head|]; [|discriminate].
  by intros [= <-].
Qed.

Lemma changed_file_throws file :
  has_null file = true ->
  changed_file file = Throw Tool.TypeError_toFixed_null.
Proof.
  unfold has_null, changed_file, mbind at 3, completion_bind. cbv zeta. intros H.
  destruct (is_null (FileTotals.base _ ≫= _)) eqn:Hb.
  - by rewrite (render_percentage_null _ Hb).
  - simpl in H. rewrite (render_percentage_null _ H).
    by destruct (render_percentage_returns _ Hb) as [s ->].
Qed.

Lemma changed_file_returns file :
  has_null file = false -> exists entry, changed_file file = Return entry.
Proof.
  unfold has_null, changed_file, mbind at 3, completion_bind. cbv zeta. intros H.
  apply orb_false_iff in H as [Hb Hh].
  destruct (render_percentage_returns _ Hb) as [b ->].
  destruct (render_percentage_returns _ Hh) as [h ->]. by eexists.
Qed.

Lemma changed_file_Throw file e :
  changed_file file = Throw e ->
  has_null file = true /\ e = Tool.TypeError_toFixed_null.
Proof.
  intros H. destruct (has_null file) eqn:Hn.
  - rewrite (changed_file_throws file Hn) in H. by injection H as <-.
  - destruct (changed_file_returns file Hn) as [entry He]. congruence.
Qed.

(** The digits of a rendering are the hundredths nearest to the
    magnitude of the delta. *)
Lemma units_close d :
  (Qabs d - (1 # 200) <= inject_Z (Format.units d 2) / 100
   <= Qabs d + (1 # 200))%Q.
Proof.
  unfold Format.units. change (inject_Z (10 ^ Z.of_nat 2)) with 100%Q.
  pose proof (Qfloor_le (Qabs d * 100 + (1 # 2))) as Hlo.
  pose proof (Qlt_floor (Qabs d * 100 + (1 # 2))) as Hhi.
  rewrite inject_Z_plus in Hhi. change (inject_Z 1) with 1%Q in Hhi.
  set (u := inject_Z (Qfloor (Qabs d * 100 + (1 # 2)))) in *.
  set (a := Qabs d) in *. clearbody u a.
  unfold Qdiv. change (/ 100)%Q with (1 # 100)%Q. split; lra.
Qed.

(** When the map over the changed files throws, and what. *)
Lemma changedFiles_throws result :
  existsb has_null (List.filter is_changed (CoverageComparison.files result)) = true ->
  changedFiles result = Throw Tool.TypeError_toFixed_null.
Proof.
  intros H. apply existsb_exists in H as (file & Hin & Hn).
  unfold changedFiles.
  rewrite (Array_map_throws changed_file _ Tool.TypeError_toFixed_null);
    [reflexivity| |].
  - intros x e' _ Hx. by apply changed_file_Throw in Hx as [_ ->].
  - exists file. split; [exact Hin|]. by apply changed_file_throws.
Qed.

Lemma changedFiles_returns result :
  existsb has_null (List.filter is_changed (CoverageComparison.files result)) = false ->
  exists l, changedFiles result = Return l.
Proof.
  intros H. unfold changedFiles.
  destruct (Array_map_returns changed_file
              (List.filter is_changed (CoverageComparison.files result)))
    as [entries ->]; [|by eexists].
  intros x Hx. apply changed_file_returns.
  destruct (has_null x) eqn:Hn; [|reflexivity].
  assert (existsb has_null
            (List.filter is_changed (CoverageComparison.files result)) = true)
    by (apply existsb_exists; by exists x).
  congruence.
Qed.

End Delta.

(** C2, with the inputs where the code departs from it. The delta is the
    binary64 difference of head and base: a binary64 number, the exact
    difference up to one rounding (a relative error of at most 2^-53), and
    the exact difference whenever that is a binary64 number. Per file, the
    [change] field renders this delta when both percentages are numbers,
    and is ["N/A"] when one is [undefined] and none is [null]; a [null]
    percentage passes the test of [!== undefined], and the entry throws a
    [TypeError]. Overall, with a head percentage that is a number the
    [change] of the totals renders the delta, or is ["N/A"] when the base
    percentage is absent; with a head percentage that is absent no
    ["N/A"] is rendered: the summary throws, as it does when the map over
    the changed files throws, and the tool returns the error result. A
    rendered delta (below 10^21 in magnitude, where [toFixed] writes
    decimal notation) is a sign, ["+"] if and only if the delta is [>= 0]
    and ["-"] otherwise, the digits of the delta rounded to two decimals,
    within 0.005 of its magnitude, and ["%"]. *)
Theorem C2_coverage_delta :
  (forall base head : JS.number,
      Binary64Spec.representable (JS.minus head base)
      /\ DeltaSpec.rounds (JS.minus head base)
           (DeltaSpec.delta (JS.binary64 base) (JS.binary64 head))
      /\ (Binary64Spec.representable base -> Binary64Spec.representable head ->
          DeltaSpec.rounds (JS.minus head base) (DeltaSpec.delta base head)
          /\ (Binary64Spec.representable (DeltaSpec.delta base head) ->
              (JS.minus head base == DeltaSpec.delta base head)%Q)))
  /\ (forall file : ComparisonFile.t,
        let base := FileTotals.base (ComparisonFile.totals file) ≫= CoverageTotals.coverage in
        let head := FileTotals.head (ComparisonFile.totals file) ≫= CoverageTotals.coverage in
        match base, head with
        | Some JS.null, _ | _, Some JS.null =>
            ComparisonTools.changed_file file = Throw Tool.TypeError_toFixed_null
        | Some (JS.just b), Some (JS.just h) =>
            exists entry : ComparisonTools.ChangedFile.t,
              ComparisonTools.changed_file file = Return entry
              /\ ComparisonTools.ChangedFile.change entry
                 = ComparisonTools.render_change (Some (JS.minus h b))
        | _, _ =>
            exists entry : ComparisonTools.ChangedFile.t,
              ComparisonTools.changed_file file = Return entry
              /\ ComparisonTools.ChangedFile.change entry = "N/A"
        end)
  /\ (forall result : CoverageComparison.t,
        match ComparisonTools.changedFiles result,
              CoverageTotals.coverage
                (ComparisonTotals.head (CoverageComparison.totals result)) with
        | Throw e, _ => ComparisonTools.summary result = Throw e
        | Return _, None => ComparisonTools.summary result = Throw Tool.TypeError_toFixed
        | Return _, Some JS.null =>
            ComparisonTools.summary result = Throw Tool.TypeError_toFixed_null
        | Return _, Some (JS.just h) =>
            exists s : ComparisonTools.Summary.t,
              ComparisonTools.summary result = Return s
              /\ ComparisonTools.Summary.coverage_totals_change s
                 = match JS.nullish
                           (ComparisonTotals.base (CoverageComparison.totals result)
                            ≫= CoverageTotals.coverage) with
                   | Some b => ComparisonTools.render_change (Some (JS.minus h b))
                   | None => "N/A"
                   end
        end)
  /\ (forall result : CoverageComparison.t,
        if existsb DeltaSpec.has_null
             (List.filter ComparisonTools.is_changed (CoverageComparison.files result))
        then ComparisonTools.changedFiles result = Throw Tool.TypeError_toFixed_null
        else exists l, ComparisonTools.changedFiles result = Return l)
  /\ (forall d : JS.number,
        (Qabs d < inject_Z (10 ^ 21))%Q ->
        DeltaSpec.renders d (ComparisonTools.render_change (Some d))
        /\ (Format.starts_with "+" (ComparisonTools.render_change (Some d))
            <-> (0 <= d)%Q)
        /\ (Qabs d - (1 # 200) <= inject_Z (Format.units d 2) / 100
            <= Qabs d + (1 # 200))%Q)
  /\ ComparisonTools.render_change None = "N/A"
  /\ (forall (JSON_stringify : ComparisonTools.Summary.t -> string)
             (backend : Request.t -> completion CoverageComparison.t)
             (args : ComparisonTools.CompareArgs.t) (w w1 : World.t)
             (client : CodecovClient.t) (result : CoverageComparison.t) (e : exn),
        Client.getCodecovClient w = (Return client, w1) ->
        (forall request, backend request = Return result) ->
        ComparisonTools.summary result = Throw e ->
        fst (ComparisonTools.codecov_compare_coverage JSON_stringify backend args w)
        = Tool.error_result (message_of e "Unknown error")).
Proof.
  split; [|split; [|split; [|split; [|split; [|split]]]]].
  - intros base head. split; [apply minus_representable|].
    split; [apply minus_rounds|]. intros Hb Hh.
    split; [by apply minus_rounds_exact|]. by apply minus_exact.
  - intros file. cbv zeta.
    pose proof (changed_file_change file) as Hchange.
    pose proof (changed_file_throws file) as Hthrow.
    pose proof (changed_file_returns file) as Hret.
    unfold DeltaSpec.has_null, ComparisonTools.file_change in *.
    cbv zeta in Hchange. revert Hchange Hthrow Hret.
    destruct (FileTotals.base _ ≫= _) as [[|b]|];
      destruct (FileTotals.head _ ≫= _) as [[|h]|];
      cbn [DeltaSpec.is_null orb JS.Number]; intros Hchange Hthrow Hret;
      try (by apply Hthrow);
      destruct (Hret eq_refl) as [entry He]; exists entry;
      (split; [exact He|by rewrite (Hchange entry He)]).
  - intros result. unfold ComparisonTools.summary, mbind, completion_bind.
    destruct (ComparisonTools.changedFiles result) as [l|e]; [|reflexivity].
    destruct (CoverageTotals.coverage _) as [[|h]|]; [reflexivity| |reflexivity].
    eexists. split; [reflexivity|].
    cbn [ComparisonTools.Summary.coverage_totals_change].
    by destruct (JS.nullish _).
  - intros result.
    destruct (existsb _ _) eqn:E;
      [by apply changedFiles_throws|by apply changedFiles_returns].
  - intros d _. split; [apply render_change_renders|].
    split; [apply render_change_plus|apply units_close].
  - reflexivity.
  - intros JSON_stringify backend args w w1 client result e Hc Hb Hs.
    unfold ComparisonTools.codecov_compare_coverage, Tool.handler, mbind, M_bind.
    rewrite Hc.
    unfold Client.compareCoverage, try_catch, Client.get, Tool.lift,
      ComparisonTools.compare_text.
    cbv zeta. rewrite Hb, Hs. reflexivity.
Qed.

Lemma C2_witness :
  let totals c := CoverageTotals.mk 1 100 50 50 0 c 0 0 0 None in
  let result :=
    CoverageComparison.mk (Some "0123456789") "abcdefghij"
      (ComparisonTotals.mk (Some (totals (Some (JS.just 50%Q)))) (totals None) None)
      [] [] false in
  let w := World.mk (Some "token") None [] in
  ComparisonTools.summary result = Throw Tool.TypeError_toFixed
  /\ fst (ComparisonTools.codecov_compare_coverage (fun _ => "{}")
            (fun _ => Return result)
            (ComparisonTools.CompareArgs.mk "owner" "repo" None None None None) w)
     = Tool.error_result "Cannot read properties of undefined (reading 'toFixed')".
Proof.
  cbv zeta. split.
  - exact (proj1 (proj2 (proj2 C2_coverage_delta))
             (CoverageComparison.mk (Some "0123456789") "abcdefghij"
                (ComparisonTotals.mk
                   (Some (CoverageTotals.mk 1 100 50 50 0 (Some (JS.just 50%Q)) 0 0 0 None))
                   (CoverageTotals.mk 1 100 50 50 0 None 0 0 0 None) None)
                [] [] false)).
  - exact (proj2 (proj2 (proj2 (proj2 (proj2 (proj2 C2_coverage_delta)))))
             (fun _ => "{}")
             (fun _ =>
                Return
                  (CoverageComparison.mk (Some "0123456789") "abcdefghij"
                     (ComparisonTotals.mk
                        (Some (CoverageTotals.mk 1 100 50 50 0 (Some (JS.just 50%Q))
                                                 0 0 0 None))
                        (CoverageTotals.mk 1 100 50 50 0 None 0 0 0 None) None)
                     [] [] false))
             (ComparisonTools.CompareArgs.mk "owner" "repo" None None None None)
             (World.mk (Some "token") None [])
             (World.mk (Some "token") (Some (CodecovClient.mk "token" "github")) [])
             (CodecovClient.mk "token" "github")
             _ Tool.TypeError_toFixed eq_refl (fun _ => eq_refl) eq_refl).
Defined.

(** ** The ranking of changed files *)

Section ParseFloat.

Lemma span_digits_append a : forall rest,
  Format.all_digits a = true ->
  match rest with
  | String c _ => JS.is_digit c = false
  | EmptyString => True
  end ->
  JS.span_digits (a +:+ rest) = (a, rest).
Proof.
  unfold Format.all_digits.
  induction a as [|c a IH]; intros rest Ha Hrest.
  - simpl. destruct rest as [|c rest]; [reflexivity|].
    simpl. by rewrite Hrest.
  - simpl in Ha. apply andb_true_iff in Ha as [Hc Ha].
    simpl. rewrite Hc, (IH rest Ha Hrest). reflexivity.
Qed.

Lemma parse_unsigned_fixed (a b : string) :
  a <> "" -> Format.all_digits a = true -> Format.all_digits b = true ->
  JS.parse_unsigned (a +:+ "." +:+ b +:+ "%")
  = Some (inject_Z (JS.digits_value 0 a)
          + inject_Z (JS.digits_value 0 b)
            / inject_Z (10 ^ Z.of_nat (String.length b)))%Q.
Proof.
  intros Hne Ha Hb. unfold JS.parse_unsigned.
  rewrite (span_digits_append a ("." +:+ b +:+ "%") Ha) by reflexivity.
  change ("." +:+ b +:+ "%") with (String "." (b +:+ "%")). cbv iota beta.
  rewrite (span_digits_append b "%" Hb) by reflexivity. cbn [fst].
  destruct a as [|c a]; [done|]. reflexivity.
Qed.

(** Reading a rendered delta back gives the delta rounded to two
    decimals, as a binary64 number. *)
Lemma decimal_render_change (d : JS.number) :
  exists v : Q,
    JS.decimal_prefix (ComparisonTools.render_change (Some d)) = Some v
    /\ (v == Format.rounded d 2)%Q.
Proof.
  destruct (toFixed_shape d 1) as (a & b & E & Hne & Ha & Hb & Hl & Hv).
  unfold ComparisonTools.render_change, JS.ge_zero, Format.rounded.
  rewrite E. rewrite digits_value_append, digits_value_shift, Hl in Hv.
  assert (Hq : (inject_Z (JS.digits_value 0 a)
                + inject_Z (JS.digits_value 0 b) / inject_Z (10 ^ Z.of_nat 2)
                == inject_Z (Format.units d 2) / inject_Z (10 ^ Z.of_nat 2))%Q).
  { rewrite <- Hv. change (10 ^ Z.of_nat 2)%Z with 100%Z.
    rewrite inject_Z_plus, inject_Z_mult. field. }
  assert (Hs : forall sign : ascii,
             String sign "" +:+ (a +:+ "." +:+ b) +:+ "%"
             = String sign (a +:+ "." +:+ b +:+ "%")).
  { intros sign. rewrite !append_assoc. reflexivity. }
  destruct (Qle_bool 0 d).
  - eexists. split.
    + change ("" +:+ a +:+ "." +:+ b) with (a +:+ "." +:+ b). rewrite Hs.
      unfold JS.decimal_prefix.
      change (JS.skip_white (String "+" ?s)) with (String "+" s).
      cbv iota. rewrite (parse_unsigned_fixed a b Hne Ha Hb), Hl. reflexivity.
    + rewrite Hq. change (10 ^ Z.of_nat 2)%Z with 100%Z. field.
  - eexists. split.
    + change ("" +:+ ("-" +:+ a +:+ "." +:+ b) +:+ "%")
        with ("-" +:+ (a +:+ "." +:+ b) +:+ "%"). rewrite Hs.
      unfold JS.decimal_prefix.
      change (JS.skip_white (String "-" ?s)) with (String "-" s).
      cbv iota. rewrite (parse_unsigned_fixed a b Hne Ha Hb), Hl. reflexivity.
    + rewrite Hq. change (10 ^ Z.of_nat 2)%Z with 100%Z. field.
Qed.

Lemma parseFloat_render_change (d : JS.number) :
  JS.parseFloat (ComparisonTools.render_change (Some d))
  = Some (JS.binary64 (Format.rounded d 2)).
Proof.
  unfold JS.parseFloat. destruct (decimal_render_change d) as (v & -> & Hv).
  cbn [fmap option_fmap option_map]. f_equal. by apply binary64_comp.
Qed.

(** [|| 0] leaves a binary64 number as it is. *)
Lemma or_zero_binary64 (x : Q) :
  JS.or_zero (Some (JS.binary64 x)) = JS.binary64 x.
Proof.
  unfold JS.or_zero. destruct (Qeq_bool (JS.binary64 x) 0) eqn:E; [|reflexivity].
  apply Qeq_bool_iff in E. rewrite <- (binary64_canonical x).
  change 0%Q with (Qred 0). by apply Qred_complete.
Qed.

(** The key by which an entry is sorted. *)
Lemma sort_key_entry f entry :
  ComparisonTools.changed_file f = Return entry ->
  ComparisonTools.sort_key entry = RankingSpec.compared_delta f.
Proof.
  intros He. unfold ComparisonTools.sort_key, RankingSpec.compared_delta,
    RankingSpec.displayed_delta.
  rewrite (changed_file_change f entry He).
  destruct (ComparisonTools.file_change f) as [d|]; [|reflexivity].
  by rewrite parseFloat_render_change, or_zero_binary64.
Qed.

(** The displayed delta is a number of hundredths, within half a
    hundredth of the delta. *)
Lemma rounded_close x :
  (x - (1 # 200) <= Format.rounded x 2 <= x + (1 # 200))%Q.
Proof.
  unfold Format.rounded, Format.units.
  change (inject_Z (10 ^ Z.of_nat 2)) with 100%Q.
  pose proof (Qfloor_le (Qabs x * 100 + (1 # 2))) as Hlo.
  pose proof (Qlt_floor (Qabs x * 100 + (1 # 2))) as Hhi.
  rewrite inject_Z_plus in Hhi. change (inject_Z 1) with 1%Q in Hhi.
  set (u := inject_Z (Qfloor (Qabs x * 100 + (1 # 2)))) in *.
  destruct (Qle_bool 0 x) eqn:Hx.
  - apply Qle_bool_iff in Hx. rewrite (Qabs_pos x Hx) in Hlo, Hhi.
    clearbody u. unfold Qdiv. change (/ 100)%Q with (1 # 100)%Q. split; lra.
  - assert (x <= 0)%Q as Hneg.
    { destruct (Qlt_le_dec 0 x) as [H|H]; [|exact H].
      apply Qlt_le_weak, Qle_bool_iff in H. congruence. }
    rewrite (Qabs_neg x Hneg) in Hlo, Hhi.
    clearbody u. unfold Qdiv. change (/ 100)%Q with (1 # 100)%Q. split; lra.
Qed.

Lemma rounded_hundredths x :
  exists z : Z, (Format.rounded x 2 == inject_Z z / 100)%Q.
Proof.
  unfold Format.rounded. change (inject_Z (10 ^ Z.of_nat 2)) with 100%Q.
  destruct (Qle_bool 0 x).
  - exists (Format.units x 2). field.
  - exists (- Format.units x 2)%Z. rewrite inject_Z_opp. field.
Qed.

Lemma displayed_close f :
  (RankingSpec.delta_or_zero f - (1 # 200) <= RankingSpec.displayed_delta f
   <= RankingSpec.delta_or_zero f + (1 # 200))%Q.
Proof.
  unfold RankingSpec.delta_or_zero, RankingSpec.displayed_delta.
  destruct (ComparisonTools.file_change f) as [d|]; simpl;
    [apply rounded_close|split; lra].
Qed.

Lemma displayed_hundredths f :
  exists z : Z, (RankingSpec.displayed_delta f == inject_Z z / 100)%Q.
Proof.
  unfold RankingSpec.displayed_delta.
  destruct (ComparisonTools.file_change f) as [d|]; [apply rounded_hundredths|].
  exists 0%Z. reflexivity.
Qed.

End ParseFloat.

Section Sort.
Context {A : Type} (key : A -> Q) (comparefn : A -> A -> JS.number).

(** The comparator is positive exactly on a descent of the key. *)
Hypothesis comparefn_sign :
  forall a b, JS.gt_zero (comparefn a b) = true <-> (key b < key a)%Q.

(** The order that such a comparator sorts into. *)
Local Abbreviation le_key := (fun a b : A => (key a <= key b)%Q).

Lemma sort_insert_perm x l :
  Permutation (JS.sort_insert comparefn x l) (x :: l).
Proof.
  induction l as [|y l IH]; simpl; [reflexivity|].
  destruct (JS.gt_zero (comparefn x y)); [|reflexivity].
  rewrite IH. apply perm_swap.
Qed.

Lemma Array_sort_perm l : Permutation (JS.Array_sort comparefn l) l.
Proof.
  induction l as [|x l IH]; simpl; [reflexivity|].
  rewrite sort_insert_perm. by constructor.
Qed.

Lemma sort_insert_hd x y l :
  le_key y x -> HdRel le_key y l -> HdRel le_key y (JS.sort_insert comparefn x l).
Proof.
  intros Hyx Hhd. destruct l as [|z l]; simpl; [by constructor|].
  destruct (JS.gt_zero (comparefn x z)); [|by constructor].
  constructor. by apply HdRel_inv in Hhd.
Qed.

Lemma sort_insert_sorted x l :
  Sorted le_key l -> Sorted le_key (JS.sort_insert comparefn x l).
Proof.
  induction l as [|y l IH]; intros Hs; simpl; [by repeat constructor|].
  apply Sorted_inv in Hs as [Hs Hhd].
  destruct (JS.gt_zero (comparefn x y)) eqn:E.
  - apply comparefn_sign in E. constructor; [by apply IH|].
    apply sort_insert_hd; [|exact Hhd]. by apply Qlt_le_weak.
  - constructor; [by constructor|]. constructor.
    apply Qnot_lt_le. intros H. apply comparefn_sign in H. congruence.
Qed.

Lemma Array_sort_sorted l : Sorted le_key (JS.Array_sort comparefn l).
Proof.
  induction l as [|x l IH]; simpl; [constructor|]. by apply sort_insert_sorted.
Qed.

(** The sort is stable: the elements of one key keep their order. *)
Lemma sort_insert_stable (k : Q) x l :
  List.filter (fun a => Qeq_bool (key a) k) (JS.sort_insert comparefn x l)
  = List.filter (fun a => Qeq_bool (key a) k) (x :: l).
Proof.
  induction l as [|y l IH]; [reflexivity|]. cbn [JS.sort_insert].
  destruct (JS.gt_zero (comparefn x y)) eqn:E; [|reflexivity].
  apply comparefn_sign in E. cbn [List.filter] in IH |- *. rewrite IH.
  destruct (Qeq_bool (key y) k) eqn:Hy; [|reflexivity].
  destruct (Qeq_bool (key x) k) eqn:Hx; [|reflexivity].
  apply Qeq_bool_iff in Hx, Hy. rewrite Hx, Hy in E.
  by apply Qlt_irrefl in E.
Qed.

Lemma Array_sort_stable (k : Q) l :
  List.filter (fun a => Qeq_bool (key a) k) (JS.Array_sort comparefn l)
  = List.filter (fun a => Qeq_bool (key a) k) l.
Proof.
  induction l as [|x l IH]; [reflexivity|]. cbn [JS.Array_sort].
  rewrite sort_insert_stable. cbn [List.filter]. by rewrite IH.
Qed.

End Sort.

Section SortRelated.
Context {A B : Type} (R : A -> B -> Prop).
Context (comparefnA : A -> A -> JS.number) (comparefnB : B -> B -> JS.number).

(** Related elements compare alike. *)
Hypothesis comparefn_related :
  forall a b a' b', R a b -> R a' b' -> comparefnB b b' = comparefnA a a'.

Lemma sort_insert_related x y l l' :
  R x y -> Forall2 R l l' ->
  Forall2 R (JS.sort_insert comparefnA x l) (JS.sort_insert comparefnB y l').
Proof.
  intros Hxy Hl. induction Hl as [|a b l l' Hab Hl IH]; simpl.
  - by repeat constructor.
  - rewrite (comparefn_related x y a b Hxy Hab).
    destruct (JS.gt_zero (comparefnA x a)); by repeat constructor.
Qed.

Lemma Array_sort_related l l' :
  Forall2 R l l' ->
  Forall2 R (JS.Array_sort comparefnA l) (JS.Array_sort comparefnB l').
Proof.
  induction 1 as [|a b l l' Hab Hl IH]; simpl; [constructor|].
  by apply sort_insert_related.
Qed.

End SortRelated.

Section Ranking.
Import ComparisonTools RankingSpec.

Lemma Sorted_weaken {A} (P : A -> Prop) (R R' : A -> A -> Prop) l :
  (forall a b, P a -> P b -> R a b -> R' a b) ->
  Forall P l -> Sorted R l -> Sorted R' l.
Proof.
  intros HR HP. induction 1 as [|a l Hs IH Hhd]; [constructor|].
  apply Forall_cons in HP as [Ha HP]. constructor; [by apply IH|].
  destruct Hhd as [|b l Hab]; constructor.
  apply Forall_cons in HP as [Hb _]. by apply HR.
Qed.

(** The comparator of the sort, on the files. *)
Local Abbreviation compare_files :=
  (fun f g : ComparisonFile.t => JS.minus (compared_delta f) (compared_delta g)).

Lemma compare_files_sign f g :
  JS.gt_zero (compare_files f g) = true
  <-> (compared_delta g < compared_delta f)%Q.
Proof.
  unfold JS.minus, compared_delta. rewrite !binary64_idempotent.
  rewrite <- (binary64_difference_sign _ _ (binary64_representable _)
                (binary64_representable _)).
  unfold JS.gt_zero. rewrite negb_true_iff, <- not_true_iff_false, Qle_bool_iff.
  split; [apply Qnot_le_lt|apply Qlt_not_le].
Qed.

Lemma by_change_related f entry f' entry' :
  changed_file f = Return entry -> changed_file f' = Return entry' ->
  by_change entry entry' = compare_files f f'.
Proof.
  intros He He'. unfold by_change. cbv zeta.
  by rewrite (sort_key_entry f entry He), (sort_key_entry f' entry' He').
Qed.

(** The sorted entries are the entries of the sorted files. *)
Lemma changedFiles_sorted result l :
  changedFiles result = Return l ->
  Array_map changed_file
    (JS.Array_sort compare_files
       (List.filter is_changed (CoverageComparison.files result)))
  = Return l.
Proof.
  unfold changedFiles, mbind, completion_bind.
  destruct (Array_map changed_file _) as [entries|] eqn:He; [|discriminate].
  intros [= <-]. apply Array_map_Return in He. apply Array_map_Return.
  apply (Array_sort_related (fun f entry => changed_file f = Return entry));
    [|exact He].
  intros a b a' b'. apply by_change_related.
Qed.

Lemma changedFiles_compared result l :
  changedFiles result = Return l ->
  ranked_by compared_delta (CoverageComparison.files result) l.
Proof.
  intros Hl. eexists. split; [exact (changedFiles_sorted result l Hl)|].
  split; [apply Array_sort_perm|].
  apply (Array_sort_sorted compared_delta), compare_files_sign.
Qed.

Lemma changedFiles_length result l :
  changedFiles result = Return l ->
  length l = length (List.filter is_changed (CoverageComparison.files result)).
Proof.
  intros Hl. destruct (changedFiles_compared result l Hl) as (ranked & Hm & Hperm & _).
  rewrite (Array_map_length _ _ _ Hm). by apply Permutation_length.
Qed.

(** For deltas of moderate size the binary64 number that is compared
    orders as the displayed delta does. *)
Lemma moderate_close f :
  moderate f ->
  (Qabs (compared_delta f - displayed_delta f) <= 1 # 256)%Q.
Proof.
  unfold moderate, compared_delta. intros Hm.
  pose proof (displayed_close f) as [Hlo Hhi].
  assert (JS.pow2 (46 - 54) == 1 # 256)%Q as <- by reflexivity.
  apply binary64_close_below; [|lia].
  assert (JS.pow2 46 == inject_Z (2 ^ 46))%Q as -> by reflexivity.
  apply Qabs_Qle_condition in Hm as [Hm1 Hm2].
  assert (inject_Z (10 ^ 13) + (1 # 200) < inject_Z (2 ^ 46))%Q as Hb by reflexivity.
  set (d := delta_or_zero f) in *. set (x := displayed_delta f) in *.
  set (B := inject_Z (10 ^ 13)) in *. set (C := inject_Z (2 ^ 46)) in *.
  apply Qabs_case; intros _; lra.
Qed.

Lemma moderate_order f g :
  moderate f -> moderate g ->
  (compared_delta f <= compared_delta g)%Q ->
  (displayed_delta f <= displayed_delta g)%Q.
Proof.
  intros Hf Hg Hle. apply Qnot_lt_le. intros Hlt.
  destruct (displayed_hundredths f) as [zf Ef].
  destruct (displayed_hundredths g) as [zg Eg].
  assert (inject_Z zg + 1 <= inject_Z zf)%Q as Hz.
  { rewrite Ef, Eg in Hlt.
    assert (zg < zf)%Z as Hzz.
    { apply Z.lt_nge. intros H. rewrite Zle_Qle in H.
      set (a := inject_Z zf) in *. set (b := inject_Z zg) in *.
      unfold Qdiv in Hlt. change (/ 100)%Q with (1 # 100)%Q in Hlt. lra. }
    assert (zg + 1 <= zf)%Z as H1 by lia.
    rewrite Zle_Qle, inject_Z_plus in H1. exact H1. }
  apply moderate_close, Qabs_Qle_condition in Hf as [Hf1 Hf2].
  apply moderate_close, Qabs_Qle_condition in Hg as [Hg1 Hg2].
  rewrite Ef in Hf1, Hf2. rewrite Eg in Hg1, Hg2.
  set (a := inject_Z zf) in *. set (b := inject_Z zg) in *.
  set (kf := compared_delta f) in *. set (kg := compared_delta g) in *.
  unfold Qdiv in *. change (/ 100)%Q with (1 # 100)%Q in *. lra.
Qed.

Lemma changedFiles_ranked result l :
  Forall moderate (List.filter is_changed (CoverageComparison.files result)) ->
  changedFiles result = Return l ->
  ranked_by displayed_delta (CoverageComparison.files result) l.
Proof.
  intros Hm Hl.
  destruct (changedFiles_compared result l Hl) as (ranked & Hr & Hperm & Hsorted).
  exists ranked. split; [exact Hr|]. split; [exact Hperm|].
  apply (Sorted_weaken moderate (fun f g => (compared_delta f <= compared_delta g)%Q));
    [| |exact Hsorted].
  - intros f g. apply moderate_order.
  - eapply Permutation_Forall; [|exact Hm]. by symmetry.
Qed.

Lemma is_changed_iff f :
  is_changed f = true
  <-> ComparisonFile.has_diff f = true \/ ComparisonFile.change_summary f <> None.
Proof.
  unfold is_changed. rewrite orb_true_iff.
  destruct (ComparisonFile.change_summary f); split; intros [H|H];
    auto; congruence.
Qed.

End Ranking.

Lemma summary_lists result s :
  ComparisonTools.summary result = Return s ->
  exists l : list ComparisonTools.ChangedFile.t,
    ComparisonTools.changedFiles result = Return l
    /\ ComparisonTools.Summary.changed_files s = firstn 20 l
    /\ ComparisonTools.Summary.files_changed s = length l.
Proof.
  unfold ComparisonTools.summary, mbind, completion_bind.
  destruct (ComparisonTools.changedFiles result) as [l|]; [|discriminate].
  destruct (CoverageTotals.coverage _) as [[|h]|]; [discriminate| |discriminate].
  intros [= <-]. exists l. by repeat split.
Qed.




(** ** Absent percentages *)

(** C4, at the inputs where the code departs from it. When the [coverage]
    field is absent, the [getCoverageTotals] summary, the [getFileCoverage]
    summary (also when [totals] is absent altogether) and both patch
    summaries of the comparison render the percentage as ["undefined%"],
    not as ["N/A"]; the sibling renderings of the repository and commit
    lists and of the per-file base and head percentages give ["N/A"].
    The comparison produces its patch summaries whenever it produces a
    result: it throws when a changed file has a [null] base or head
    percentage, or when the head percentage of the totals is absent. *)
Theorem C4_absent_coverage_renders_undefined :
  (forall (files lines hits misses partials branches methods complexity_total : Z)
          (complexity_ratio : option JS.number) (commit_sha : string),
      CoverageTools.TotalsSummary.coverage_percentage
        (CoverageTools.totals_summary
           (TotalsResponse.mk
              (CoverageTotals.mk files lines hits misses partials None branches
                                 methods complexity_total complexity_ratio)
              commit_sha))
      = "undefined%")
  /\ (forall (name commit_sha commit_file_url : string)
             (line_coverage : option (list LineCoverage.t)),
        CoverageTools.FileSummary.coverage_percentage
          (CoverageTools.file_summary
             (FileCoverageReport.mk name None line_coverage commit_sha commit_file_url))
        = "undefined%")
  /\ (forall (name commit_sha commit_file_url : string)
             (line_coverage : option (list LineCoverage.t))
             (files lines hits misses partials branches methods complexity_total : Z)
             (complexity_ratio : option JS.number),
        CoverageTools.FileSummary.coverage_percentage
          (CoverageTools.file_summary
             (FileCoverageReport.mk name
                (Some (CoverageTotals.mk files lines hits misses partials None branches
                                         methods complexity_total complexity_ratio))
                line_coverage commit_sha commit_file_url))
        = "undefined%")
  /\ (forall (name : string) (base head : option CoverageTotals.t)
             (hits misses partials : Z) (has_diff : bool)
             (stats : option FileStats.t) (change_summary : option FileChangeSummary.t),
        let file :=
          ComparisonFile.mk name
            (FileTotals.mk base head (Some (PatchTotals.mk hits misses partials None)))
            has_diff stats change_summary in
        if DeltaSpec.has_null file
        then ComparisonTools.changed_file file = Throw Tool.TypeError_toFixed_null
        else exists entry : ComparisonTools.ChangedFile.t,
               ComparisonTools.changed_file file = Return entry
               /\ ComparisonTools.PatchEntry.coverage
                    <$> ComparisonTools.ChangedFile.patch entry
                  = Some "undefined%")
  /\ (forall (base_commit : option string) (head_commit : string)
             (base : option CoverageTotals.t) (head : CoverageTotals.t)
             (files : list ComparisonFile.t) (untracked : list string)
             (has_unmerged_base_commits : bool) (hits misses partials : Z),
        match ComparisonTools.summary
                (CoverageComparison.mk base_commit head_commit
                   (ComparisonTotals.mk base head
                      (Some (PatchTotals.mk hits misses partials None)))
                   files untracked has_unmerged_base_commits) with
        | Return s =>
            ComparisonTools.Summary.patch_coverage s
            = inl (ComparisonTools.PatchCoverage.mk "undefined%" hits misses partials)
        | Throw _ =>
            JS.nullish (CoverageTotals.coverage head) = None
            \/ existsb DeltaSpec.has_null (List.filter ComparisonTools.is_changed files)
               = true
        end)
  /\ "undefined%" <> "N/A"
  /\ RepositoryTools.coverage_or_NA None = Return "N/A"
  /\ ComparisonTools.render_percentage None = Return "N/A".
Proof.
  split; [reflexivity|]. split; [reflexivity|]. split; [reflexivity|].
  split; [|split; [|split; [discriminate|split; reflexivity]]].
  - intros. destruct (DeltaSpec.has_null file) eqn:Hn.
    + by apply changed_file_throws.
    + destruct (changed_file_returns file Hn) as [entry He]. exists entry.
      split; [exact He|]. revert He.
      unfold ComparisonTools.changed_file, mbind, completion_bind, mret, completion_ret.
      cbv zeta.
      destruct (ComparisonTools.render_percentage _) as [b|]; [|discriminate].
      destruct (ComparisonTools.render_percentage _) as [h|]; [|discriminate].
      by intros [= <-].
  - intros. unfold ComparisonTools.summary, mbind, completion_bind.
    destruct (ComparisonTools.changedFiles _) as [l|e] eqn:Hl.
    + cbn [CoverageComparison.totals ComparisonTotals.head ComparisonTotals.patch].
      destruct (CoverageTotals.coverage head) as [[|h]|]; [by left|reflexivity|by left].
    + right.
      match type of Hl with
      | ComparisonTools.changedFiles ?r = _ =>
          destruct (existsb DeltaSpec.has_null
                      (List.filter ComparisonTools.is_changed (CoverageComparison.files r)))
            eqn:Hn; [exact Hn|];
          destruct (changedFiles_returns r Hn) as [l' Hl']; congruence
      end.
Qed.

(** ** Errors *)

Section Errors.
Import Registry.

Lemma handleError_classified error :
  Client.handleError error = ApiError (classified error).
Proof.
  unfold classified. destruct error as [m|e|ax|]; try reflexivity.
  unfold Client.handleError. repeat case_bool_decide; reflexivity.
Qed.

(** A request that the backend fails leaves the method by [handleError]. *)
Lemma request_throws {T} (backend : Request.t -> completion T) e0 url params w :
  backend (Request.mk url params) = Throw e0 ->
  try_catch (Client.get backend url params)
            (fun error => throw (Client.handleError error)) w
  = (Throw (Client.handleError e0),
     World.mk (World.CODECOV_API_TOKEN w) (World.clientInstance w)
              (World.requests w ++ [Request.mk url params])).
Proof. intros H. unfold try_catch, Client.get. rewrite H. reflexivity. Qed.

(** The frame of every handler: whatever the [try] block throws becomes
    one error result. *)
Lemma handler_throw (body : M string) w e w' :
  body w = (Throw e, w') ->
  Tool.handler body w = (Tool.error_result (message_of e "Unknown error"), w').
Proof. intros H. unfold Tool.handler. rewrite H. reflexivity. Qed.

Lemma handler_one_result (body : M string) w :
  length (Tool.content (fst (Tool.handler body w))) = 1.
Proof. unfold Tool.handler. destruct (body w) as [[text|e] w']; reflexivity. Qed.

Lemma run_one_result i w : length (Tool.content (fst (run i w))) = 1.
Proof. destruct i; apply handler_one_result. Qed.

Lemma run_throws i e0 w client w1 :
  backend_throws i e0 ->
  Client.getCodecovClient w = (Return client, w1) ->
  fst (run i w) = Tool.error_result (CodecovApiError.message (classified e0)).
Proof.
  intros Hb Hc.
  destruct i; simpl in Hb |- *;
    unfold CoverageTools.codecov_get_coverage_totals,
      CoverageTools.codecov_get_file_coverage,
      CoverageTools.codecov_get_coverage_tree,
      RepositoryTools.codecov_list_repositories,
      RepositoryTools.codecov_get_repository,
      RepositoryTools.codecov_list_commits,
      RepositoryTools.codecov_list_pulls,
      ComparisonTools.codecov_compare_coverage;
    unfold Tool.handler, mbind, M_bind; rewrite Hc;
    unfold Client.getCoverageTotals, Client.getFileCoverage,
      Client.getCoverageTree, Client.listRepositories, Client.getRepository,
      Client.listCommits, Client.listPullRequests, Client.compareCoverage;
    cbv zeta; rewrite (request_throws _ e0) by apply Hb;
    rewrite handleError_classified; reflexivity.
Qed.

Lemma run_no_client i w e w1 :
  Client.getCodecovClient w = (Throw e, w1) ->
  run i w = (Tool.error_result (message_of e "Unknown error"), w1).
Proof.
  intros Hc.
  destruct i; simpl;
    unfold CoverageTools.codecov_get_coverage_totals,
      CoverageTools.codecov_get_file_coverage,
      CoverageTools.codecov_get_coverage_tree,
      RepositoryTools.codecov_list_repositories,
      RepositoryTools.codecov_get_repository,
      RepositoryTools.codecov_list_commits,
      RepositoryTools.codecov_list_pulls,
      ComparisonTools.codecov_compare_coverage;
    unfold Tool.handler, mbind, M_bind; rewrite Hc; reflexivity.
Qed.

End Errors.

Section ErrorTable.
Import Registry.

Lemma classified_other status body message :
  status <> 401%Z -> status <> 403%Z -> status <> 404%Z -> status <> 429%Z ->
  classified (http_failure status body message)
  = CodecovApiError.mk
      (or_default (backend_detail body)
                  (or_default (Some message) "Unknown API error"))
      (Some status) (backend_detail body).
Proof.
  intros H1 H2 H3 H4. unfold classified, http_failure, Client.handleError.
  cbn [AxiosError.response_ AxiosError.status AxiosError.message fmap option_fmap
       option_map].
  repeat (case_bool_decide; [congruence|]). reflexivity.
Qed.

Lemma run_error_result i e0 w :
  backend_throws i e0 ->
  exists message : string, fst (run i w) = Tool.error_result message.
Proof.
  intros Hb. destruct (Client.getCodecovClient w) as [[client|e] w1] eqn:Hc.
  - eexists. exact (run_throws i e0 w client w1 Hb Hc).
  - eexists. by rewrite (run_no_client i w e w1 Hc).
Qed.

Lemma error_text_newline message :
  MessageSpec.has_newline ("Error: " +:+ message) <-> MessageSpec.has_newline message.
Proof.
  unfold MessageSpec.has_newline. cbn [String.append list_ascii_of_string In].
  split; [|tauto]. intros H.
  repeat (destruct H as [H|H]; [discriminate H|]). exact H.
Qed.

End ErrorTable.

(** C5, as the code has it. Whichever of the eight operations is invoked,
    when the backend fails its request the operation returns one result,
    the text ["Error: <message>"] with [isError] set: nothing is thrown
    past the handler. The text is a single line exactly when the message
    is: the fixed messages are, a detail or message that the backend or
    the transport supplies is copied as it is, line breaks included. With a client at hand the message is the one that
    [handleError] gives the failure: fixed texts for the statuses 401, 403,
    404 and 429, for any other status the detail or message of the backend
    when it has one and else the message of the transport, the message of
    the transport alone when there was no response, and the message of any
    other error. The frame is the same for whatever else the [try] block
    of a handler throws. *)
Theorem C5_failures_become_error_results
    (i : Registry.invocation) (e0 : exn) (w : World.t) :
  Registry.backend_throws i e0 ->
  length (Tool.content (fst (Registry.run i w))) = 1
  /\ (exists message : string,
        fst (Registry.run i w) = Tool.error_result message)
  /\ (forall (client : CodecovClient.t) (w1 : World.t),
        Client.getCodecovClient w = (Return client, w1) ->
        fst (Registry.run i w)
        = Tool.error_result (CodecovApiError.message (Registry.classified e0)))
  /\ (forall (body : option ApiErrorBody.t) (message : string),
        CodecovApiError.message (Registry.classified (Registry.http_failure 401 body message))
          = "Authentication failed. Check your CODECOV_API_TOKEN."
        /\ CodecovApiError.message (Registry.classified (Registry.http_failure 403 body message))
          = "Access denied. You may not have permission to access this resource."
        /\ CodecovApiError.message (Registry.classified (Registry.http_failure 404 body message))
          = "Resource not found. Check the owner, repo, or path."
        /\ CodecovApiError.message (Registry.classified (Registry.http_failure 429 body message))
          = "Rate limit exceeded. Try again later.")
  /\ (forall (status : Z) (body : option ApiErrorBody.t) (message : string),
        CodecovApiError.statusCode (Registry.classified (Registry.http_failure status body message))
          = Some status
        /\ CodecovApiError.detail (Registry.classified (Registry.http_failure status body message))
          = Registry.backend_detail body
        /\ (status <> 401%Z -> status <> 403%Z -> status <> 404%Z -> status <> 429%Z ->
            CodecovApiError.message
              (Registry.classified (Registry.http_failure status body message))
            = or_default (Registry.backend_detail body)
                         (or_default (Some message) "Unknown API error")))
  /\ (forall message : string,
        CodecovApiError.message
          (Registry.classified (Axios (AxiosError.mk None message)))
        = or_default (Some message) "Unknown API error")
  /\ (forall message : string,
        CodecovApiError.message (Registry.classified (Error message)) = message)
  /\ CodecovApiError.message (Registry.classified NotAnError) = "Unknown error occurred"
  /\ (forall (body : M string) (e : exn) (w0 w1 : World.t),
        body w0 = (Throw e, w1) ->
        Tool.handler body w0
        = (Tool.error_result (message_of e "Unknown error"), w1))
  /\ (forall message : string,
        map Tool.text (Tool.content (Tool.error_result message))
          = ["Error: " +:+ message]
        /\ Tool.isError (Tool.error_result message) = Some true
        /\ (MessageSpec.has_newline ("Error: " +:+ message)
            <-> MessageSpec.has_newline message))
  /\ Forall (fun message : string => ~ MessageSpec.has_newline message)
        ["Authentication failed. Check your CODECOV_API_TOKEN.";
         "Access denied. You may not have permission to access this resource.";
         "Resource not found. Check the owner, repo, or path.";
         "Rate limit exceeded. Try again later.";
         "Unknown API error"; "Unknown error occurred"; "Unknown error"].
Proof.
  intros Hb. split; [apply run_one_result|]. split; [exact (run_error_result i e0 w Hb)|].
  split; [intros client w1 Hc; exact (run_throws i e0 w client w1 Hb Hc)|].
  split; [intros; repeat split; reflexivity|].
  split; [|split; [reflexivity|split; [reflexivity|split; [reflexivity|]]];
          split; [intros body e w0 w1; apply handler_throw|];
          split; [intros message; split; [reflexivity|split; [reflexivity|]];
                  apply error_text_newline|];
          repeat constructor; unfold MessageSpec.has_newline;
          cbn [list_ascii_of_string In]; intros H;
          repeat (destruct H as [H|H]; [discriminate H|]); exact H].
  intros status body message. split; [|split].
  - unfold Registry.classified, Registry.http_failure, Client.handleError.
    cbn [AxiosError.response_ AxiosError.status fmap option_fmap option_map].
    repeat case_bool_decide; reflexivity.
  - unfold Registry.classified, Registry.http_failure, Client.handleError.
    cbn [AxiosError.response_ AxiosError.status fmap option_fmap option_map].
    repeat case_bool_decide; reflexivity.
  - intros H1 H2 H3 H4. by rewrite classified_other.
Qed.

Lemma C5_witness :
  let w := World.mk (Some "token") None [] in
  let e0 := Registry.http_failure 404 None "Request failed with status code 404" in
  let i :=
    Registry.codecov_get_file_coverage
      (fun _ => "{}") (fun _ => Throw e0)
      (CoverageTools.FileArgs.mk "owner" "repo" "src/a.ts" None None None) in
  Registry.backend_throws i e0
  /\ fst (Registry.run i w)
     = Tool.error_result "Resource not found. Check the owner, repo, or path.".
Proof.
  cbv zeta.
  assert (H : Registry.backend_throws
                (Registry.codecov_get_file_coverage
                   (fun _ => "{}")
                   (fun _ => Throw (Registry.http_failure 404 None
                                      "Request failed with status code 404"))
                   (CoverageTools.FileArgs.mk "owner" "repo" "src/a.ts" None None None))
                (Registry.http_failure 404 None "Request failed with status code 404"))
    by (intros request; reflexivity).
  split; [exact H|].
  exact (proj1 (proj2 (proj2 (C5_failures_become_error_results _ _
           (World.mk (Some "token") None []) H))) _ _ eq_refl).
Defined.

(** C5 as the specification states it, a single line whatever the failure,
    fails: a status 500 whose body carries a two-line [detail] gives a
    two-line text. *)
Lemma C5_counterexample :
  let detail := "line one" +:+ String "010" "line two" in
  let e0 :=
    Registry.http_failure 500 (Some (ApiErrorBody.mk (Some detail) None))
                          "Request failed with status code 500" in
  let i :=
    Registry.codecov_get_file_coverage
      (fun _ => "{}") (fun _ => Throw e0)
      (CoverageTools.FileArgs.mk "owner" "repo" "src/a.ts" None None None) in
  let result := fst (Registry.run i (World.mk (Some "token") None [])) in
  Registry.backend_throws i e0
  /\ result = Tool.error_result detail
  /\ map Tool.text (Tool.content result) = ["Error: line one" +:+ String "010" "line two"]
  /\ Forall MessageSpec.has_newline (map Tool.text (Tool.content result)).
Proof.
  cbv zeta. split; [intros request; reflexivity|]. split; [reflexivity|].
  split; [reflexivity|]. constructor; [|constructor].
  unfold MessageSpec.has_newline. vm_compute. repeat (first [left; reflexivity|right]).
Qed.

(** ** Construction of the client *)

Section Construction.

Lemma truthy_string_absent (token : option string) :
  token = None \/ token = Some "" -> truthy_string token = false.
Proof. intros [-> | ->]; reflexivity. Qed.

Lemma getCodecovClient_absent w :
  World.clientInstance w = None ->
  truthy_string (World.CODECOV_API_TOKEN w) = false ->
  exists message : string,
    Client.getCodecovClient w = (Throw (Error message), w).
Proof.
  intros Hi Ht. unfold Client.getCodecovClient. rewrite Hi, Ht. by eexists.
Qed.

Lemma run_all_no_client session w message :
  Client.getCodecovClient w = (Throw (Error message), w) ->
  Registry.run_all session w
  = (map (fun _ => Tool.error_result message) session, w).
Proof.
  intros Hc. induction session as [|i rest IH]; [reflexivity|].
  cbn [Registry.run_all map].
  rewrite (run_no_client i w _ w Hc), IH. reflexivity.
Qed.

End Construction.

(** C6. With no client constructed yet and the token absent from the
    environment (missing or empty), [getCodecovClient] throws a plain error
    and leaves the process as it was: no request has been issued. Every
    operation invoked in that state returns the error result and issues no
    request either, and so does every operation of a whole session, since
    the client slot stays empty. The constructor throws on the empty token
    whatever the default service. *)
Theorem C6_missing_token_fails_before_any_request (w : World.t) :
  World.clientInstance w = None ->
  World.CODECOV_API_TOKEN w = None \/ World.CODECOV_API_TOKEN w = Some "" ->
  (exists message : string,
      Client.getCodecovClient w = (Throw (Error message), w)
      /\ forall i : Registry.invocation,
           Registry.run i w = (Tool.error_result message, w))
  /\ (forall i : Registry.invocation,
        World.requests (snd (Registry.run i w)) = World.requests w)
  /\ (forall session : list Registry.invocation,
        snd (Registry.run_all session w) = w
        /\ Forall (fun result => Tool.isError result = Some true)
                  (fst (Registry.run_all session w)))
  /\ (forall (defaultService : option string) (w' : World.t),
        Client.new "" defaultService w'
        = (Throw (Error "CODECOV_API_TOKEN is required. Set it as an environment variable."),
           w')).
Proof.
  intros Hi Ht. apply truthy_string_absent in Ht.
  destruct (getCodecovClient_absent w Hi Ht) as (message & Hc).
  split; [|split; [|split]].
  - exists message. split; [exact Hc|]. intros i. apply (run_no_client i w _ w Hc).
  - intros i. by rewrite (run_no_client i w _ w Hc).
  - intros session. rewrite (run_all_no_client session w message Hc).
    split; [reflexivity|]. cbn [fst].
    induction session as [|i rest IH]; constructor; [reflexivity|exact IH].
  - reflexivity.
Qed.

Lemma C6_witness :
  let w := World.mk (Some "") None [] in
  World.clientInstance w = None
  /\ (World.CODECOV_API_TOKEN w = None \/ World.CODECOV_API_TOKEN w = Some "")
  /\ forall i : Registry.invocation,
       World.requests (snd (Registry.run i w)) = [].
Proof.
  cbv zeta. split; [reflexivity|]. split; [right; reflexivity|].
  exact (proj1 (proj2 (C6_missing_token_fails_before_any_request
                         (World.mk (Some "") None []) eq_refl (or_intror eq_refl)))).
Defined.

(** ** Query parameters *)

Section Query.
Import Client QuerySpec.

Lemma lookup_set_string_eq key v (params : gmap string param) :
  set_string key v params !! key
  = match sent_string v with Some p => Some p | None => params !! key end.
Proof.
  unfold set_string, sent_string, truthy_string.
  destruct v as [s|]; [|reflexivity].
  destruct (String.eqb s ""); simpl; [reflexivity|]. by rewrite lookup_insert_eq.
Qed.

Lemma lookup_set_string_ne key k v (params : gmap string param) :
  key <> k -> set_string key v params !! k = params !! k.
Proof.
  intros Hne. unfold set_string. destruct v as [s|]; [|reflexivity].
  destruct (truthy_string (Some s)); [|reflexivity]. by rewrite lookup_insert_ne.
Qed.

Lemma lookup_set_number_eq key v (params : gmap string param) :
  set_number key v params !! key
  = match sent_number v with Some p => Some p | None => params !! key end.
Proof.
  unfold set_number, sent_number, truthy_number.
  destruct v as [z|]; [|reflexivity].
  destruct (z =? 0)%Z; simpl; [reflexivity|]. by rewrite lookup_insert_eq.
Qed.

Lemma lookup_set_number_ne key k v (params : gmap string param) :
  key <> k -> set_number key v params !! k = params !! k.
Proof.
  intros Hne. unfold set_number. destruct v as [z|]; [|reflexivity].
  destruct (truthy_number (Some z)); [|reflexivity]. by rewrite lookup_insert_ne.
Qed.

Lemma lookup_set_boolean_eq key v (params : gmap string param) :
  set_defined_boolean key v params !! key
  = match sent_boolean v with Some p => Some p | None => params !! key end.
Proof.
  unfold set_defined_boolean. destruct v as [b|]; [|reflexivity].
  simpl. by rewrite lookup_insert_eq.
Qed.

Lemma lookup_set_boolean_ne key k v (params : gmap string param) :
  key <> k -> set_defined_boolean key v params !! k = params !! k.
Proof.
  intros Hne. unfold set_defined_boolean. destruct v as [b|]; [|reflexivity].
  by rewrite lookup_insert_ne.
Qed.

Lemma page_size_sent v : page_size v = sent_page_size v.
Proof.
  unfold page_size, sent_page_size, truthy_number.
  destruct v as [z|]; [|reflexivity]. by destruct (z =? 0)%Z.
Qed.

Lemma issues_request {T} (backend : Request.t -> completion T) url params w :
  issues (try_catch (get backend url params)
                    (fun error => throw (handleError error))) w params.
Proof.
  exists url. unfold try_catch, get.
  destruct (backend (Request.mk url params)); reflexivity.
Qed.

End Query.

Section ListQueries.
Import Client QuerySpec.

Lemma listCommits_params client backend owner repo options w :
  exists params : gmap string param,
    issues (listCommits client backend owner repo options) w params
    /\ params !! "page_size"
       = Some (PNumber (sent_page_size (options ≫= ListCommitsOptions.pageSize)))
    /\ params !! "page" = sent_number (options ≫= ListCommitsOptions.page)
    /\ params !! "branch" = sent_string (options ≫= ListCommitsOptions.branch)
    /\ forall k : string,
         k <> "page_size" -> k <> "page" -> k <> "branch" -> params !! k = None.
Proof.
  unfold listCommits. cbv zeta. eexists. split; [apply issues_request|].
  split; [|split; [|split]].
  - rewrite lookup_set_string_ne, lookup_set_number_ne by done.
    by rewrite lookup_singleton_eq, page_size_sent.
  - rewrite lookup_set_string_ne, lookup_set_number_eq by done.
    rewrite lookup_singleton_ne by done. by destruct (sent_number _).
  - rewrite lookup_set_string_eq, lookup_set_number_ne by done.
    rewrite lookup_singleton_ne by done. by destruct (sent_string _).
  - intros k H1 H2 H3.
    rewrite lookup_set_string_ne, lookup_set_number_ne by done.
    by rewrite lookup_singleton_ne.
Qed.

Lemma listPullRequests_params client backend owner repo options w :
  exists params : gmap string param,
    issues (listPullRequests client backend owner repo options) w params
    /\ params !! "page_size"
       = Some (PNumber (sent_page_size (options ≫= ListPullRequestsOptions.pageSize)))
    /\ params !! "page" = sent_number (options ≫= ListPullRequestsOptions.page)
    /\ params !! "state" = sent_string (options ≫= ListPullRequestsOptions.state)
    /\ forall k : string,
         k <> "page_size" -> k <> "page" -> k <> "state" -> params !! k = None.
Proof.
  unfold listPullRequests. cbv zeta. eexists. split; [apply issues_request|].
  split; [|split; [|split]].
  - rewrite lookup_set_string_ne, lookup_set_number_ne by done.
    by rewrite lookup_singleton_eq, page_size_sent.
  - rewrite lookup_set_string_ne, lookup_set_number_eq by done.
    rewrite lookup_singleton_ne by done. by destruct (sent_number _).
  - rewrite lookup_set_string_eq, lookup_set_number_ne by done.
    rewrite lookup_singleton_ne by done. by destruct (sent_string _).
  - intros k H1 H2 H3.
    rewrite lookup_set_string_ne, lookup_set_number_ne by done.
    by rewrite lookup_singleton_ne.
Qed.

Lemma lookup_set_names_eq v (params : gmap string param) :
  set_names v params !! "names"
  = match sent_names v with Some p => Some p | None => params !! "names" end.
Proof.
  unfold set_names, sent_names. destruct v as [[|name names]|]; try reflexivity.
  simpl. by rewrite lookup_insert_eq.
Qed.

Lemma lookup_set_names_ne k v (params : gmap string param) :
  "names" <> k -> set_names v params !! k = params !! k.
Proof.
  intros Hne. unfold set_names. destruct v as [names|]; [|reflexivity].
  destruct (0 <? length names)%nat; [|reflexivity]. by rewrite lookup_insert_ne.
Qed.

Lemma listRepositories_params client backend owner options w :
  exists params : gmap string param,
    issues (listRepositories client backend owner options) w params
    /\ params !! "page_size"
       = Some (PNumber (sent_page_size (options ≫= ListRepositoriesOptions.pageSize)))
    /\ params !! "page" = sent_number (options ≫= ListRepositoriesOptions.page)
    /\ params !! "active" = sent_boolean (options ≫= ListRepositoriesOptions.active)
    /\ params !! "names" = sent_names (options ≫= ListRepositoriesOptions.names)
    /\ forall k : string,
         k <> "page_size" -> k <> "page" -> k <> "active" -> k <> "names" ->
         params !! k = None.
Proof.
  unfold listRepositories. cbv zeta.
  eexists. split; [apply issues_request|].
  split; [|split; [|split; [|split]]].
  - rewrite lookup_set_names_ne, lookup_set_boolean_ne, lookup_set_number_ne by done.
    by rewrite lookup_singleton_eq, page_size_sent.
  - rewrite lookup_set_names_ne, lookup_set_boolean_ne, lookup_set_number_eq by done.
    rewrite lookup_singleton_ne by done. by destruct (sent_number _).
  - rewrite lookup_set_names_ne, lookup_set_boolean_eq, lookup_set_number_ne by done.
    rewrite lookup_singleton_ne by done. by destruct (sent_boolean _).
  - rewrite lookup_set_names_eq, lookup_set_boolean_ne, lookup_set_number_ne by done.
    rewrite lookup_singleton_ne by done. by destruct (sent_names _).
  - intros k H1 H2 H3 H4.
    rewrite lookup_set_names_ne, lookup_set_boolean_ne, lookup_set_number_ne by done.
    by rewrite lookup_singleton_ne.
Qed.

End ListQueries.

Section Sent.
Import QuerySpec.

Lemma sent_number_iff v :
  is_Some (sent_number v) <-> exists z : Z, v = Some z /\ z <> 0%Z.
Proof.
  unfold sent_number. destruct v as [z|].
  - destruct (Z.eqb_spec z 0); split.
    + by intros [? [=]].
    + intros (? & [= <-] & ?). done.
    + intros _. by exists z.
    + by eexists.
  - split; [by intros [? [=]]|]. by intros (? & [=] & _).
Qed.

Lemma sent_string_iff v :
  is_Some (sent_string v) <-> exists s : string, v = Some s /\ s <> "".
Proof.
  unfold sent_string. destruct v as [s|].
  - destruct (String.eqb_spec s ""); split.
    + by intros [? [=]].
    + intros (? & [= <-] & ?). done.
    + intros _. by exists s.
    + by eexists.
  - split; [by intros [? [=]]|]. by intros (? & [=] & _).
Qed.

Lemma sent_names_iff v :
  is_Some (sent_names v) <-> exists names : list string, v = Some names /\ names <> [].
Proof.
  unfold sent_names. destruct v as [[|name names]|].
  - split; [by intros [? [=]]|]. by intros (? & [= <-] & ?).
  - split; [|by eexists]. intros _. by exists (name :: names).
  - split; [by intros [? [=]]|]. by intros (? & [=] & _).
Qed.

End Sent.

(** C7, as the code has it. The request of each list operation carries
    [page_size], equal to the caller's [pageSize] when that is supplied and
    not zero and to the default 25 otherwise. [page] is sent if and only if
    it is supplied and not zero, [branch] and [state] if and only if they
    are supplied and not empty, [active] if and only if it is supplied, and
    [names] if and only if a non-empty array is supplied, as its elements
    joined by commas. No other parameter is sent. *)
Theorem C7_list_query_parameters :
  (forall client backend owner options w,
      exists params : gmap string param,
        QuerySpec.issues (Client.listRepositories client backend owner options) w params
        /\ params !! "page_size"
           = Some (PNumber (QuerySpec.sent_page_size
                              (options ≫= Client.ListRepositoriesOptions.pageSize)))
        /\ params !! "page"
           = QuerySpec.sent_number (options ≫= Client.ListRepositoriesOptions.page)
        /\ params !! "active"
           = QuerySpec.sent_boolean (options ≫= Client.ListRepositoriesOptions.active)
        /\ params !! "names"
           = QuerySpec.sent_names (options ≫= Client.ListRepositoriesOptions.names)
        /\ forall k : string,
             k <> "page_size" -> k <> "page" -> k <> "active" -> k <> "names" ->
             params !! k = None)
  /\ (forall client backend owner repo options w,
        exists params : gmap string param,
          QuerySpec.issues (Client.listCommits client backend owner repo options) w params
          /\ params !! "page_size"
             = Some (PNumber (QuerySpec.sent_page_size
                                (options ≫= Client.ListCommitsOptions.pageSize)))
          /\ params !! "page"
             = QuerySpec.sent_number (options ≫= Client.ListCommitsOptions.page)
          /\ params !! "branch"
             = QuerySpec.sent_string (options ≫= Client.ListCommitsOptions.branch)
          /\ forall k : string,
               k <> "page_size" -> k <> "page" -> k <> "branch" -> params !! k = None)
  /\ (forall client backend owner repo options w,
        exists params : gmap string param,
          QuerySpec.issues (Client.listPullRequests client backend owner repo options)
                           w params
          /\ params !! "page_size"
             = Some (PNumber (QuerySpec.sent_page_size
                                (options ≫= Client.ListPullRequestsOptions.pageSize)))
          /\ params !! "page"
             = QuerySpec.sent_number (options ≫= Client.ListPullRequestsOptions.page)
          /\ params !! "state"
             = QuerySpec.sent_string (options ≫= Client.ListPullRequestsOptions.state)
          /\ forall k : string,
               k <> "page_size" -> k <> "page" -> k <> "state" -> params !! k = None)
  /\ (forall v : option Z,
        (QuerySpec.sent_page_size v
         = match v with
           | Some z => if decide (z = 0%Z) then 25%Z else z
           | None => 25%Z
           end)
        /\ (is_Some (QuerySpec.sent_number v) <-> exists z : Z, v = Some z /\ z <> 0%Z)
        /\ forall z : Z, QuerySpec.sent_number v = Some (PNumber z) -> v = Some z)
  /\ (forall v : option string,
        (is_Some (QuerySpec.sent_string v) <-> exists s : string, v = Some s /\ s <> "")
        /\ forall s : string, QuerySpec.sent_string v = Some (PString s) -> v = Some s)
  /\ (forall v : option bool, QuerySpec.sent_boolean v = PBoolean <$> v)
  /\ (forall v : option (list string),
        (is_Some (QuerySpec.sent_names v)
         <-> exists names : list string, v = Some names /\ names <> [])
        /\ forall names : list string,
             v = Some names -> names <> [] ->
             QuerySpec.sent_names v = Some (PString (JS.join "," names))).
Proof.
  split; [intros; apply listRepositories_params|].
  split; [intros; apply listCommits_params|].
  split; [intros; apply listPullRequests_params|].
  split; [|split; [|split; [reflexivity|]]].
  - intros v. split; [|split; [apply sent_number_iff|]].
    + unfold QuerySpec.sent_page_size. destruct v as [z|]; [|reflexivity].
      destruct (Z.eqb_spec z 0); case_decide; done.
    + intros z. unfold QuerySpec.sent_number. destruct v as [z'|]; [|done].
      destruct (z' =? 0)%Z; [done|]. by intros [= ->].
  - intros v. split; [apply sent_string_iff|].
    intros s. unfold QuerySpec.sent_string. destruct v as [s'|]; [|done].
    destruct (String.eqb s' ""); [done|]. by intros [= ->].
  - intros v. split; [apply sent_names_iff|].
    intros names -> Hne. destruct names; [done|reflexivity].
Qed.

Lemma C7_witness :
  let client := CodecovClient.mk "token" "github" in
  let w := World.mk (Some "token") (Some client) [] in
  let backend : Request.t -> completion (PaginatedResponse.t Commit.t) :=
    fun _ => Throw NotAnError in
  let options := Client.ListCommitsOptions.mk None (Some 2%Z) (Some 50%Z) (Some "main") in
  exists params : gmap string param,
    QuerySpec.issues (Client.listCommits client backend "owner" "repo" (Some options)) w
                     params
    /\ params !! "page_size" = Some (PNumber 50)
    /\ params !! "page" = Some (PNumber 2)
    /\ params !! "branch" = Some (PString "main")
    /\ params !! "state" = None.
Proof.
  cbv zeta.
  destruct (proj1 (proj2 C7_list_query_parameters)
              (CodecovClient.mk "token" "github")
              (fun _ => Throw NotAnError : completion (PaginatedResponse.t Commit.t))
              "owner" "repo"
              (Some (Client.ListCommitsOptions.mk None (Some 2%Z) (Some 50%Z) (Some "main")))
              (World.mk (Some "token") (Some (CodecovClient.mk "token" "github")) []))
    as (params & Hissues & Hsize & Hpage & Hbranch & Hother).
  exists params. split; [exact Hissues|]. split; [exact Hsize|].
  split; [exact Hpage|]. split; [exact Hbranch|].
  apply Hother; discriminate.
Defined.

(** C7 as the specification states it fails on values that are supplied
    but falsy: a [pageSize] of 0 is replaced by 25, and a [page] of 0 and
    an empty [branch] are left out. The empty [branch] passes the input
    schema of [codecov_list_commits]. *)
Lemma C7_counterexample :
  let client := CodecovClient.mk "token" "github" in
  let w := World.mk (Some "token") (Some client) [] in
  let backend : Request.t -> completion (PaginatedResponse.t Commit.t) :=
    fun _ => Throw NotAnError in
  let options := Client.ListCommitsOptions.mk None (Some 0%Z) (Some 0%Z) (Some "") in
  let args :=
    RepositoryTools.ListCommitsArgs.mk "owner" "repo" None (Some "") None (Some 25%Z) in
  (exists request : Request.t,
      World.requests (snd (Client.listCommits client backend "owner" "repo" (Some options) w))
      = [request]
      /\ Request.params request !! "page_size" = Some (PNumber 25)
      /\ Request.params request !! "page_size" <> Some (PNumber 0)
      /\ Request.params request !! "page" = None
      /\ Request.params request !! "branch" = None)
  /\ (exists request : Request.t,
        World.requests
          (snd (RepositoryTools.codecov_list_commits (fun _ => "{}") backend args w))
        = [request]
        /\ Request.params request !! "branch" = None).
Proof.
  cbv zeta. split.
  - eexists. split; [reflexivity|]. vm_compute. repeat split; congruence.
  - eexists. split; [reflexivity|]. vm_compute. reflexivity.
Qed.

(** ** The rendered tree *)

Section Tree.
Import CoverageTools TreeSpec.

(** Induction on a tree, with the property at hand for every child. *)
Lemma tree_ind (P : CoverageTreeNode.t -> Prop) :
  (forall node, Forall P (children_of node) -> P node) ->
  forall node, P node.
Proof.
  intros step.
  fix IH 1. intros [name full_path coverage lines hits partials misses children].
  apply step. unfold children_of. simpl.
  destruct children as [children|]; [|constructor].
  simpl. induction children as [|child rest IHrest]; constructor.
  - apply IH.
  - exact IHrest.
Qed.

Lemma preorder_unfold node depth :
  preorder node depth
  = (node, depth) :: flat_map (fun child => preorder child (S depth)) (children_of node).
Proof.
  destruct node as [name full_path coverage lines hits partials misses children].
  unfold children_of. simpl. f_equal.
  destruct children as [children|]; [|reflexivity]. simpl.
  induction children as [|child rest IH]; [reflexivity|].
  simpl. by rewrite IH.
Qed.

Lemma size_unfold node :
  size node = S (list_sum (map size (children_of node))).
Proof.
  destruct node as [name full_path coverage lines hits partials misses children].
  unfold children_of. simpl. f_equal.
  destruct children as [children|]; [|reflexivity]. simpl.
  induction children as [|child rest IH]; [reflexivity|].
  simpl. by rewrite IH.
Qed.

Lemma each_fold depth children : forall line,
  (fix each (children : list CoverageTreeNode.t) (line : string) : string :=
     match children with
     | [] => line
     | child :: rest =>
         each rest (line +:+ String "010" (formatNode child (S depth)))
     end) children line
  = append_children children depth line.
Proof.
  unfold append_children.
  induction children as [|c cs IH]; intros line; [reflexivity|]. apply IH.
Qed.

Lemma formatNode_unfold node depth :
  formatNode node depth
  = append_children (children_of node) depth (node_line node depth).
Proof.
  destruct node as [name full_path coverage lines hits partials misses children].
  unfold children_of.
  destruct children as [[|child rest]|]; reflexivity.
Qed.

Lemma concat_cons x l : String.concat newline (x :: l) = x +:+ prefixed l.
Proof.
  revert x. induction l as [|y l IH]; intros x.
  - simpl. by rewrite append_nil_r.
  - change (String.concat newline (x :: y :: l))
      with (x +:+ newline +:+ String.concat newline (y :: l)).
    rewrite IH. reflexivity.
Qed.

Lemma prefixed_app l1 l2 : prefixed (l1 ++ l2) = prefixed l1 +:+ prefixed l2.
Proof.
  induction l1 as [|x l1 IH]; simpl; [reflexivity|].
  by rewrite IH, !append_assoc.
Qed.

Lemma lines_unfold node depth :
  lines node depth
  = node_line node depth
    :: flat_map (fun child => lines child (S depth)) (children_of node).
Proof.
  unfold lines. rewrite preorder_unfold. simpl. f_equal.
  induction (children_of node) as [|c cs IH]; [reflexivity|].
  simpl. by rewrite map_app, IH.
Qed.

Lemma prefixed_lines node depth :
  prefixed (lines node depth) = newline +:+ String.concat newline (lines node depth).
Proof. rewrite lines_unfold, concat_cons. reflexivity. Qed.

Lemma append_children_lines depth children : forall line,
  Forall (fun child => forall depth,
            formatNode child depth = String.concat newline (lines child depth))
         children ->
  append_children children depth line
  = line +:+ prefixed (flat_map (fun child => lines child (S depth)) children).
Proof.
  unfold append_children.
  induction children as [|c cs IH]; intros line Hall; simpl.
  - by rewrite append_nil_r.
  - apply Forall_cons in Hall as [Hc Hcs].
    rewrite (IH _ Hcs), prefixed_app, prefixed_lines, <- Hc.
    by rewrite !append_assoc.
Qed.

Lemma formatNode_lines node : forall depth,
  formatNode node depth = String.concat newline (lines node depth).
Proof.
  induction node as [node IH] using tree_ind. intros depth.
  rewrite formatNode_unfold, (append_children_lines _ _ _ IH).
  by rewrite lines_unfold, concat_cons.
Qed.

Lemma length_lines node : forall depth, length (lines node depth) = size node.
Proof.
  induction node as [node IH] using tree_ind. intros depth.
  rewrite lines_unfold, size_unfold. simpl. f_equal.
  induction IH as [|c cs Hc Hcs IHcs]; [reflexivity|].
  simpl. by rewrite length_app, Hc, IHcs.
Qed.

Lemma isDir_iff node :
  isDir node = true <-> children_of node <> [].
Proof.
  unfold isDir, children_of.
  destruct (CoverageTreeNode.children node) as [[|c cs]|]; simpl; split; done.
Qed.

End Tree.

Section TreeText.
Import CoverageTools TreeSpec.

Lemma format_tree_fold result : forall formatted,
  fold_left (fun formatted node => formatted +:+ formatNode node 0 +:+ newline)
            result formatted
  = formatted +:+ String.concat "" (map (fun node => formatNode node 0 +:+ newline) result).
Proof.
  induction result as [|node rest IH]; intros formatted.
  - simpl. by rewrite append_nil_r.
  - cbn [fold_left map]. rewrite IH. destruct rest as [|node' rest].
    + cbn [map String.concat]. by rewrite append_nil_r, ?append_assoc.
    + cbn [map].
      change (String.concat "" (?x :: ?y :: ?l))
        with (x +:+ "" +:+ String.concat "" (y :: l)).
      change ("" +:+ ?s) with s. by rewrite !append_assoc.
Qed.

Lemma format_tree_text result :
  format_tree result
  = "Coverage Tree:" +:+ newline +:+ newline
    +:+ String.concat "" (map (fun node => formatNode node 0 +:+ newline) result).
Proof. unfold format_tree. rewrite format_tree_fold. reflexivity. Qed.

Lemma getCodecovClient_instance w client w1 :
  Client.getCodecovClient w = (Return client, w1) ->
  World.clientInstance w1 = Some client.
Proof.
  unfold Client.getCodecovClient, Client.new, throw, mret, M_ret.
  destruct (World.clientInstance w) as [instance|] eqn:Hi.
  - by intros [= <- <-].
  - destruct (negb (truthy_string (World.CODECOV_API_TOKEN w))); [done|].
    destruct (String.eqb _ ""); [done|]. by intros [= <- <-].
Qed.

Lemma getCodecovClient_reuse w client :
  World.clientInstance w = Some client ->
  Client.getCodecovClient w = (Return client, w).
Proof. intros Hi. unfold Client.getCodecovClient. by rewrite Hi. Qed.

Lemma getCodecovClient_throw w e w1 :
  Client.getCodecovClient w = (Throw e, w1) -> w1 = w.
Proof.
  unfold Client.getCodecovClient, Client.new, throw, mret, M_ret.
  destruct (World.clientInstance w) as [instance|]; [done|].
  destruct (negb (truthy_string (World.CODECOV_API_TOKEN w))); [by intros [= _ <-]|].
  destruct (String.eqb _ ""); [by intros [= _ <-]|done].
Qed.

Lemma getCoverageTree_world client backend owner repo options w :
  World.clientInstance
    (snd (Client.getCoverageTree client backend owner repo options w))
  = World.clientInstance w
  /\ forall w',
       fst (Client.getCoverageTree client backend owner repo options w')
       = fst (Client.getCoverageTree client backend owner repo options w).
Proof.
  unfold Client.getCoverageTree, try_catch, Client.get, throw. cbv zeta.
  split; [|intros w']; destruct (backend _); reflexivity.
Qed.

(** Running the tool again on the process it left behind gives the same
    result when the backend gives the same answer. *)
Lemma tree_tool_twice backend args w :
  let first := codecov_get_coverage_tree backend args w in
  fst (codecov_get_coverage_tree backend args (snd first)) = fst first.
Proof.
  cbv zeta. unfold codecov_get_coverage_tree, Tool.handler, mbind, M_bind.
  destruct (Client.getCodecovClient w) as [[client|e] w1] eqn:Hc.
  - apply getCodecovClient_instance in Hc.
    match goal with
    | |- context [Client.getCoverageTree client backend ?o ?r ?opts w1] =>
        destruct (getCoverageTree_world client backend o r opts w1) as [Hi Hsame];
        destruct (Client.getCoverageTree client backend o r opts w1)
          as [outcome w2] eqn:Ht
    end.
    simpl in Hi. rewrite Hc in Hi.
    destruct outcome as [tree|e]; simpl;
      rewrite (getCodecovClient_reuse w2 client Hi);
      specialize (Hsame w2); simpl in Hsame;
      match goal with
      | |- context [Client.getCoverageTree client backend ?o ?r ?opts w2] =>
          destruct (Client.getCoverageTree client backend o r opts w2)
            as [outcome' w3]
      end;
      simpl in Hsame; subst outcome'; reflexivity.
  - pose proof (getCodecovClient_throw w e w1 Hc) as ->. simpl. by rewrite Hc.
Qed.

End TreeText.



(** ** The untracked-files warning *)

(** C9. The text of a comparison is the serialized summary followed by the
    warning block, and the block is empty if and only if there are no
    untracked files. A non-empty block is the heading, then the first 10
    paths in their order, one per line, [min 10 count] of them, and then,
    if and only if there are more than 10, the line ["... and N more"]
    with [N = count - 10]. *)
Theorem C9_untracked_warning (untracked : list string) :
  (forall (JSON_stringify : ComparisonTools.Summary.t -> string)
          (result : CoverageComparison.t) (s : ComparisonTools.Summary.t),
      CoverageComparison.untracked result = untracked ->
      ComparisonTools.summary result = Return s ->
      ComparisonTools.compare_text JSON_stringify result
      = Return (JSON_stringify s +:+ ComparisonTools.untracked_warning untracked))
  /\ (ComparisonTools.untracked_warning untracked = "" <-> untracked = [])
  /\ (untracked <> [] ->
      exists suffix : string,
        ComparisonTools.untracked_warning untracked
        = ComparisonTools.untracked_header
          +:+ String.concat TreeSpec.newline (firstn 10 untracked) +:+ suffix
        /\ length (firstn 10 untracked) = Nat.min 10 (length untracked)
        /\ (length untracked <= 10 -> suffix = "")
        /\ (10 < length untracked ->
            suffix = TreeSpec.newline +:+ "... and "
                     +:+ JS.String_of_integer (Z.of_nat (length untracked - 10))
                     +:+ " more")).
Proof.
  split; [|split].
  - intros JSON_stringify result s Hu Hs. unfold ComparisonTools.compare_text.
    by rewrite Hs, Hu.
  - unfold ComparisonTools.untracked_warning.
    destruct untracked as [|path paths]; [done|]. split; [|done].
    change (0 <? length (path :: paths))%nat with true. cbv iota. discriminate.
  - intros Hne. unfold ComparisonTools.untracked_warning.
    destruct untracked as [|path paths]; [done|].
    change (0 <? length (path :: paths))%nat with true. cbv iota.
    eexists. split; [reflexivity|]. split; [apply length_firstn|].
    destruct (Nat.ltb_spec 10 (length (path :: paths))) as [Hlt|Hle].
    + split; [lia|]. intros _. rewrite Nat2Z.inj_sub by lia. reflexivity.
    + split; [done|lia].
Qed.

Lemma C9_witness :
  let untracked := List.repeat "new.ts" 15 in
  untracked <> []
  /\ ComparisonTools.untracked_warning untracked
     = ComparisonTools.untracked_header
       +:+ String.concat TreeSpec.newline (List.repeat "new.ts" 10)
       +:+ TreeSpec.newline +:+ "... and 5 more".
Proof.
  cbv zeta.
  assert (H : List.repeat "new.ts" 15 <> []) by discriminate.
  split; [exact H|].
  destruct (proj2 (proj2 (C9_untracked_warning (List.repeat "new.ts" 15))) H)
    as (suffix & Htext & _ & _ & Hsuffix).
  rewrite Htext, Hsuffix; [reflexivity|].
  simpl. repeat constructor.
Defined.

(** ** The commit list *)

Section Message.
Import MessageSpec.

Lemma split_first_line s :
  exists pieces : list string,
    JS.split "010" s = first_line s :: pieces.
Proof.
  induction s as [|c s (pieces & IH)]; simpl; [by eexists|].
  destruct (Ascii.eqb c "010"); [by eexists|].
  rewrite IH. by eexists.
Qed.

Lemma first_line_no_newline s : ~ has_newline (first_line s).
Proof.
  unfold has_newline. induction s as [|c s IH]; simpl; [tauto|].
  destruct (Ascii.eqb_spec c "010"); simpl; [tauto|].
  intros [H|H]; [congruence|tauto].
Qed.

Lemma first_line_prefix s :
  s = first_line s
  \/ exists rest : string, s = first_line s +:+ TreeSpec.newline +:+ rest.
Proof.
  induction s as [|c s IH]; simpl; [by left|].
  destruct (Ascii.eqb_spec c "010") as [->|Hne].
  - right. by exists s.
  - destruct IH as [IH|(rest & IH)].
    + left. by rewrite <- IH.
    + right. exists rest.
      change (String c s = String c (first_line s +:+ TreeSpec.newline +:+ rest)).
      by rewrite <- IH.
Qed.

Lemma first_line_multi s : has_newline s -> first_line s <> s.
Proof. intros H E. rewrite <- E in H. by apply first_line_no_newline in H. Qed.

(** The [message] field of an entry. *)
Lemma commit_entry_message commit entry :
  RepositoryTools.commit_entry commit = Return entry ->
  RepositoryTools.CommitEntry.message entry
  = (Commit.message commit ≫= fun m => JS.split "010" m !! 0%nat).
Proof.
  unfold RepositoryTools.commit_entry, mbind at 1, completion_bind, mret, completion_ret.
  destruct (RepositoryTools.coverage_or_NA _) as [coverage|]; [|discriminate].
  by intros [= <-].
Qed.

Lemma commit_entry_first_line commit entry :
  RepositoryTools.commit_entry commit = Return entry ->
  RepositoryTools.CommitEntry.message entry = first_line <$> Commit.message commit.
Proof.
  intros H. rewrite (commit_entry_message commit entry H).
  destruct (Commit.message commit) as [message|]; [|reflexivity].
  cbn [mbind option_bind fmap option_fmap option_map].
  by destruct (split_first_line message) as (pieces & ->).
Qed.

Lemma commit_entry_returns commit :
  DeltaSpec.is_null (Commit.totals commit ≫= CoverageTotals.coverage) = false ->
  exists entry, RepositoryTools.commit_entry commit = Return entry.
Proof.
  unfold RepositoryTools.commit_entry, RepositoryTools.coverage_or_NA.
  destruct (Commit.totals commit ≫= CoverageTotals.coverage) as [[|c]|];
    [discriminate| |]; intros _; by eexists.
Qed.

End Message.



(** * Further properties of the client, the tools and the entry point *)

(** ** The process across invocations *)

Section Process.
Import Registry RequestSpec.

Lemma getCodecovClient_world w client w1 :
  Client.getCodecovClient w = (Return client, w1) ->
  World.CODECOV_API_TOKEN w1 = World.CODECOV_API_TOKEN w
  /\ World.requests w1 = World.requests w
  /\ World.clientInstance w1 = Some client
  /\ (World.clientInstance w = None ->
      World.CODECOV_API_TOKEN w = Some (CodecovClient.apiToken client)
      /\ CodecovClient.apiToken client <> ""
      /\ CodecovClient.defaultService client = Constants.DEFAULT_SERVICE).
Proof.
  unfold Client.getCodecovClient, Client.new, throw, mret, M_ret.
  destruct (World.clientInstance w) as [instance|] eqn:Hi.
  - intros [= <- <-]. by rewrite Hi.
  - destruct (World.CODECOV_API_TOKEN w) as [token|] eqn:Ht; [|done].
    simpl. destruct (String.eqb_spec token ""); [done|]. simpl.
    intros [= <- <-]. simpl. by rewrite Ht.
Qed.

(** What an invocation leaves of the process, and the one request it
    issues when it has a client. *)
Lemma run_world i w :
  match Client.getCodecovClient w with
  | (Return client, w1) =>
      exists params : gmap string param,
        snd (run i w)
        = World.mk (World.CODECOV_API_TOKEN w) (Some client)
            (World.requests w
             ++ [Request.mk
                   ("/" +:+ Client.getService client (service_of i) +:+ "/"
                    +:+ owner_of i +:+ "/" +:+ resource_of i)
                   params])
  | (Throw _, _) => snd (run i w) = w
  end.
Proof.
  destruct (Client.getCodecovClient w) as [[client|e] w1] eqn:Hc.
  - destruct (getCodecovClient_world w client w1 Hc) as (Ht & Hr & Hi & _).
    rewrite <- Ht, <- Hr, <- Hi.
    destruct i; simpl;
      unfold CoverageTools.codecov_get_coverage_totals,
        CoverageTools.codecov_get_file_coverage,
        CoverageTools.codecov_get_coverage_tree,
        RepositoryTools.codecov_list_repositories,
        RepositoryTools.codecov_get_repository,
        RepositoryTools.codecov_list_commits,
        RepositoryTools.codecov_list_pulls,
        ComparisonTools.codecov_compare_coverage;
      unfold Tool.handler, mbind, M_bind; rewrite Hc;
      unfold Client.getCoverageTotals, Client.getFileCoverage,
        Client.getCoverageTree, Client.listRepositories, Client.getRepository,
        Client.listCommits, Client.listPullRequests, Client.compareCoverage,
        try_catch, Client.get, throw, mret, M_ret, Tool.lift;
      cbv zeta; eexists;
      match goal with
      | |- context [?b (Request.mk ?url ?params)] =>
          destruct (b (Request.mk url params))
      end;
      try match goal with
      | |- context [ComparisonTools.compare_text ?s ?r] =>
          destruct (ComparisonTools.compare_text s r)
      | |- context [RepositoryTools.repos_summary ?r] =>
          destruct (RepositoryTools.repos_summary r)
      | |- context [RepositoryTools.commits_summary ?r] =>
          destruct (RepositoryTools.commits_summary r)
      end;
      reflexivity.
  - by rewrite (run_no_client i w e w1 Hc), (getCodecovClient_throw w e w1 Hc).
Qed.

End Process.

Section Session.
Import Registry RequestSpec.

Lemma run_all_cons i rest w :
  snd (run_all (i :: rest) w) = snd (run_all rest (snd (run i w)))
  /\ fst (run_all (i :: rest) w)
     = fst (run i w) :: fst (run_all rest (snd (run i w))).
Proof.
  cbn [run_all]. destruct (run i w) as [result w1]. cbn [snd fst].
  destruct (run_all rest w1) as [results w2]. done.
Qed.

Lemma run_all_results session : forall w,
  length (fst (run_all session w)) = length session.
Proof.
  induction session as [|i rest IH]; intros w; [reflexivity|].
  rewrite (proj2 (run_all_cons i rest w)). cbn [length]. by rewrite IH.
Qed.

Lemma run_all_requests session : forall w client,
  World.clientInstance w = Some client ->
  exists issued : list Request.t,
    snd (run_all session w)
    = World.mk (World.CODECOV_API_TOKEN w) (Some client) (World.requests w ++ issued)
    /\ length issued = length session.
Proof.
  induction session as [|i rest IH]; intros w client Hi.
  - exists []. rewrite app_nil_r. destruct w; simpl in *. by subst.
  - rewrite (proj1 (run_all_cons i rest w)).
    pose proof (run_world i w) as Hrun.
    rewrite (getCodecovClient_reuse w client Hi) in Hrun.
    destruct Hrun as (params & Hrun). rewrite Hrun.
    match goal with
    | |- context [run_all rest ?w'] =>
        destruct (IH w' client eq_refl) as (issued & -> & Hlen)
    end.
    cbn [World.CODECOV_API_TOKEN World.requests].
    eexists (_ :: issued). rewrite <- app_assoc. split; [reflexivity|].
    cbn [length]. by rewrite Hlen.
Qed.

Lemma run_well_formed i w : well_formed w -> well_formed (snd (run i w)).
Proof.
  intros Hwf. pose proof (run_world i w) as Hrun.
  destruct (Client.getCodecovClient w) as [[client|e] w1] eqn:Hc.
  - destruct Hrun as (params & ->). unfold well_formed. cbn.
    destruct (getCodecovClient_world w client w1 Hc) as (_ & _ & _ & Hnew).
    unfold well_formed in Hwf.
    destruct (World.clientInstance w) as [instance|] eqn:Hi.
    + rewrite (getCodecovClient_reuse w instance Hi) in Hc.
      by injection Hc as <- _.
    + by destruct (Hnew eq_refl) as (_ & ? & ?).
  - by rewrite Hrun.
Qed.

End Session.

(** X1. A session of invocations served by a process that can obtain its
    client issues exactly one request per invocation, whatever the backend
    answers (there is neither a retry nor a cache), returns one result per
    invocation, and leaves the token of the environment and the client of
    the slot as they are. *)
Theorem X1_one_request_per_invocation
    (session : list Registry.invocation) (w w1 : World.t) (client : CodecovClient.t) :
  Client.getCodecovClient w = (Return client, w1) ->
  length (fst (Registry.run_all session w)) = length session
  /\ (session <> [] ->
      exists issued : list Request.t,
        snd (Registry.run_all session w)
        = World.mk (World.CODECOV_API_TOKEN w) (Some client)
                   (World.requests w ++ issued)
        /\ length issued = length session).
Proof.
  intros Hc. split; [apply run_all_results|].
  destruct session as [|i rest]; [done|]. intros _.
  rewrite (proj1 (run_all_cons i rest w)).
  pose proof (run_world i w) as Hrun. rewrite Hc in Hrun.
  destruct Hrun as (params & ->).
  match goal with
  | |- context [Registry.run_all rest ?w'] =>
      destruct (run_all_requests rest w' client eq_refl) as (issued & -> & Hlen)
  end.
  cbn [World.CODECOV_API_TOKEN World.requests].
  eexists (_ :: issued). rewrite <- app_assoc. split; [reflexivity|].
  cbn [length]. by rewrite Hlen.
Qed.

Lemma X1_witness :
  let w := World.mk (Some "token") None [] in
  let args := RepositoryTools.RepoArgs.mk "owner" "repo" None in
  let i :=
    Registry.codecov_get_repository (fun _ => "{}") (fun _ => Throw NotAnError) args in
  length (World.requests (snd (Registry.run_all [i; i; i] w))) = 3.
Proof.
  cbv zeta.
  destruct (proj2 (X1_one_request_per_invocation
                     [Registry.codecov_get_repository (fun _ => "{}")
                        (fun _ => Throw NotAnError)
                        (RepositoryTools.RepoArgs.mk "owner" "repo" None);
                      Registry.codecov_get_repository (fun _ => "{}")
                        (fun _ => Throw NotAnError)
                        (RepositoryTools.RepoArgs.mk "owner" "repo" None);
                      Registry.codecov_get_repository (fun _ => "{}")
                        (fun _ => Throw NotAnError)
                        (RepositoryTools.RepoArgs.mk "owner" "repo" None)]
                     (World.mk (Some "token") None []) _ _ eq_refl) ltac:(discriminate))
    as (issued & Hw & Hlen).
  rewrite Hw. cbn [World.requests app]. exact Hlen.
Defined.

(** X2. The client is a singleton: the first successful [getCodecovClient]
    builds it from the token of the environment with the default service
    ["github"], stores it in the slot and issues no request; from then on
    the same client is returned whatever the environment holds, and no
    invocation of a session replaces it. *)
Theorem X2_client_singleton (w w1 : World.t) (client : CodecovClient.t) :
  Client.getCodecovClient w = (Return client, w1) ->
  World.clientInstance w1 = Some client
  /\ World.requests w1 = World.requests w
  /\ (World.clientInstance w = None ->
      World.CODECOV_API_TOKEN w = Some (CodecovClient.apiToken client)
      /\ CodecovClient.apiToken client <> ""
      /\ CodecovClient.defaultService client = "github")
  /\ (forall (token : option string) (requests : list Request.t),
        Client.getCodecovClient (World.mk token (Some client) requests)
        = (Return client, World.mk token (Some client) requests))
  /\ (forall session : list Registry.invocation,
        World.clientInstance (snd (Registry.run_all session w1)) = Some client).
Proof.
  intros Hc. destruct (getCodecovClient_world w client w1 Hc) as (Ht & Hr & Hi & Hnew).
  split; [exact Hi|]. split; [exact Hr|]. split; [exact Hnew|].
  split; [intros; by apply getCodecovClient_reuse|].
  intros session. by destruct (run_all_requests session w1 client Hi) as (issued & -> & _).
Qed.

Lemma X2_witness :
  let w := World.mk (Some "token") None [] in
  let client := CodecovClient.mk "token" "github" in
  Client.getCodecovClient w = (Return client, World.mk (Some "token") (Some client) [])
  /\ Client.getCodecovClient (World.mk None (Some client) [])
     = (Return client, World.mk None (Some client) []).
Proof.
  cbv zeta. split; [reflexivity|].
  exact (proj1 (proj2 (proj2 (proj2
           (X2_client_singleton (World.mk (Some "token") None []) _
              (CodecovClient.mk "token" "github") eq_refl)))) None []).
Defined.

Section Urls.
Import Registry RequestSpec.

Lemma client_default_service w client w1 :
  well_formed w ->
  Client.getCodecovClient w = (Return client, w1) ->
  CodecovClient.defaultService client = "github".
Proof.
  intros Hwf Hc. unfold well_formed in Hwf.
  destruct (World.clientInstance w) as [instance|] eqn:Hi.
  - rewrite (getCodecovClient_reuse w instance Hi) in Hc.
    injection Hc as <- _. by destruct Hwf.
  - destruct (getCodecovClient_world w client w1 Hc) as (_ & _ & _ & Hnew).
    by destruct (Hnew Hi) as (_ & _ & ?).
Qed.

Lemma serviceSchema_valid v s :
  Schemas.serviceSchema v = Schemas.Valid s ->
  s = v /\ In (or_default s "github") Schemas.VALID_SERVICES.
Proof.
  unfold Schemas.serviceSchema. destruct v as [x|].
  - destruct (existsb (String.eqb x) Schemas.VALID_SERVICES) eqn:E; [|done].
    intros [= <-]. split; [done|].
    apply existsb_exists in E as (y & Hy & Heq).
    apply String.eqb_eq in Heq as ->.
    unfold or_default, truthy_string.
    destruct (String.eqb_spec y ""); simpl; [by left|exact Hy].
  - intros [= <-]. split; [done|]. by left.
Qed.

End Urls.

(** X3. Every request goes to [/{service}/{owner}/{resource}], where the
    resource is [repos/] for the owner's repositories and
    [repos/{repo}/...] with [totals/], [file_report/{encoded path}/],
    [report/tree], [compare/], [commits/] or [pulls/] otherwise, and where
    the service is the one of the input when that is a non-empty string and
    ["github"] otherwise. For an input that passes the service schema the
    service is one of the three valid services. The process keeps the
    condition this rests on: the client in the slot has the default service
    ["github"] and a non-empty token. *)
Theorem X3_request_url
    (i : Registry.invocation) (w w1 : World.t) (client : CodecovClient.t) :
  RequestSpec.well_formed w ->
  Client.getCodecovClient w = (Return client, w1) ->
  (exists params : gmap string param,
      World.requests (snd (Registry.run i w))
      = World.requests w
        ++ [Request.mk
              ("/" +:+ or_default (RequestSpec.service_of i) "github" +:+ "/"
               +:+ RequestSpec.owner_of i +:+ "/" +:+ RequestSpec.resource_of i)
              params])
  /\ (forall s : option string,
        Schemas.serviceSchema (RequestSpec.service_of i) = Schemas.Valid s ->
        In (or_default (RequestSpec.service_of i) "github") Schemas.VALID_SERVICES)
  /\ RequestSpec.well_formed (snd (Registry.run i w))
  /\ (forall token : option string,
        RequestSpec.well_formed (Index.initial_world token)).
Proof.
  intros Hwf Hc. split; [|split; [|split]].
  - pose proof (run_world i w) as Hrun. rewrite Hc in Hrun.
    destruct Hrun as (params & ->). exists params. cbn [World.requests].
    unfold Client.getService. by rewrite (client_default_service w client w1 Hwf Hc).
  - intros s Hs. by destruct (serviceSchema_valid _ _ Hs) as [-> ?].
  - by apply run_well_formed.
  - intros token. exact I.
Qed.

Lemma X3_witness :
  let w := World.mk (Some "token") None [] in
  let args := CoverageTools.FileArgs.mk "owner" "repo" "src/a b.ts" None None None in
  let i :=
    Registry.codecov_get_file_coverage (fun _ => "{}") (fun _ => Throw NotAnError) args in
  exists params : gmap string param,
    World.requests (snd (Registry.run i w))
    = [Request.mk "/github/owner/repos/repo/file_report/src%2Fa%20b.ts/" params].
Proof.
  cbv zeta.
  exact (proj1 (X3_request_url
                  (Registry.codecov_get_file_coverage (fun _ => "{}")
                     (fun _ => Throw NotAnError)
                     (CoverageTools.FileArgs.mk "owner" "repo" "src/a b.ts" None None None))
                  (World.mk (Some "token") None []) _ _ I eq_refl)).
Defined.

(** ** The other queries *)

Section Queries.
Import Client QuerySpec.

Lemma getCoverageTotals_params client backend owner repo options w :
  exists params : gmap string param,
    issues (getCoverageTotals client backend owner repo options) w params
    /\ params !! "sha" = sent_string (options ≫= RefOptions.sha)
    /\ params !! "branch" = sent_string (options ≫= RefOptions.branch)
    /\ forall k : string, k <> "sha" -> k <> "branch" -> params !! k = None.
Proof.
  unfold getCoverageTotals. cbv zeta. eexists. split; [apply issues_request|].
  split; [|split].
  - rewrite lookup_set_string_ne, lookup_set_string_eq by done.
    rewrite lookup_empty. by destruct (sent_string _).
  - rewrite lookup_set_string_eq, lookup_set_string_ne by done.
    rewrite lookup_empty. by destruct (sent_string _).
  - intros k H1 H2. by rewrite !lookup_set_string_ne, lookup_empty.
Qed.

Lemma getFileCoverage_params client backend owner repo path options w :
  exists params : gmap string param,
    issues (getFileCoverage client backend owner repo path options) w params
    /\ params !! "sha" = sent_string (options ≫= RefOptions.sha)
    /\ params !! "branch" = sent_string (options ≫= RefOptions.branch)
    /\ forall k : string, k <> "sha" -> k <> "branch" -> params !! k = None.
Proof.
  unfold getFileCoverage. cbv zeta. eexists. split; [apply issues_request|].
  split; [|split].
  - rewrite lookup_set_string_ne, lookup_set_string_eq by done.
    rewrite lookup_empty. by destruct (sent_string _).
  - rewrite lookup_set_string_eq, lookup_set_string_ne by done.
    rewrite lookup_empty. by destruct (sent_string _).
  - intros k H1 H2. by rewrite !lookup_set_string_ne, lookup_empty.
Qed.

Lemma getCoverageTree_params client backend owner repo options w :
  exists params : gmap string param,
    issues (getCoverageTree client backend owner repo options) w params
    /\ params !! "sha" = sent_string (options ≫= TreeOptions.sha)
    /\ params !! "branch" = sent_string (options ≫= TreeOptions.branch)
    /\ params !! "path" = sent_string (options ≫= TreeOptions.path)
    /\ params !! "depth" = sent_number (options ≫= TreeOptions.depth)
    /\ forall k : string,
         k <> "sha" -> k <> "branch" -> k <> "path" -> k <> "depth" ->
         params !! k = None.
Proof.
  unfold getCoverageTree. cbv zeta. eexists. split; [apply issues_request|].
  split; [|split; [|split; [|split]]].
  - rewrite lookup_set_number_ne, !lookup_set_string_ne, lookup_set_string_eq by done.
    rewrite lookup_empty. by destruct (sent_string _).
  - rewrite lookup_set_number_ne, lookup_set_string_ne, lookup_set_string_eq,
      lookup_set_string_ne by done.
    rewrite lookup_empty. by destruct (sent_string _).
  - rewrite lookup_set_number_ne, lookup_set_string_eq, !lookup_set_string_ne by done.
    rewrite lookup_empty. by destruct (sent_string _).
  - rewrite lookup_set_number_eq, !lookup_set_string_ne by done.
    rewrite lookup_empty. by destruct (sent_number _).
  - intros k H1 H2 H3 H4.
    by rewrite lookup_set_number_ne, !lookup_set_string_ne, lookup_empty.
Qed.

Lemma compareCoverage_params client backend owner repo options w :
  exists params : gmap string param,
    issues (compareCoverage client backend owner repo options) w params
    /\ params !! "base" = sent_string (CompareOptions.base options)
    /\ params !! "head" = sent_string (CompareOptions.head options)
    /\ params !! "pullid" = sent_number (CompareOptions.pullid options)
    /\ forall k : string,
         k <> "base" -> k <> "head" -> k <> "pullid" -> params !! k = None.
Proof.
  unfold compareCoverage. cbv zeta. eexists. split; [apply issues_request|].
  split; [|split; [|split]].
  - rewrite lookup_set_number_ne, lookup_set_string_ne, lookup_set_string_eq by done.
    rewrite lookup_empty. by destruct (sent_string _).
  - rewrite lookup_set_number_ne, lookup_set_string_eq, lookup_set_string_ne by done.
    rewrite lookup_empty. by destruct (sent_string _).
  - rewrite lookup_set_number_eq, !lookup_set_string_ne by done.
    rewrite lookup_empty. by destruct (sent_number _).
  - intros k H1 H2 H3.
    by rewrite lookup_set_number_ne, !lookup_set_string_ne, lookup_empty.
Qed.

Lemma getRepository_params client backend owner repo service w :
  issues (getRepository client backend owner repo service) w ∅.
Proof. unfold getRepository. cbv zeta. apply issues_request. Qed.

End Queries.

(** X4. The queries of the operations that are not lists. [sha] and
    [branch] (and [path] of the tree) are sent if and only if a non-empty
    string is supplied, [depth] and [pullid] if and only if a non-zero
    number is supplied, and nothing else is sent; [getRepository] sends no
    parameter at all. The comparison forwards [base], [head] and [pullid]
    independently of each other: a [pullid] does not suppress a [base] or
    a [head] that comes with it. *)
Theorem X4_reference_query_parameters :
  (forall client backend owner repo options w,
      exists params : gmap string param,
        QuerySpec.issues (Client.getCoverageTotals client backend owner repo options)
                         w params
        /\ params !! "sha" = QuerySpec.sent_string (options ≫= Client.RefOptions.sha)
        /\ params !! "branch"
           = QuerySpec.sent_string (options ≫= Client.RefOptions.branch)
        /\ forall k : string, k <> "sha" -> k <> "branch" -> params !! k = None)
  /\ (forall client backend owner repo path options w,
        exists params : gmap string param,
          QuerySpec.issues
            (Client.getFileCoverage client backend owner repo path options) w params
          /\ params !! "sha" = QuerySpec.sent_string (options ≫= Client.RefOptions.sha)
          /\ params !! "branch"
             = QuerySpec.sent_string (options ≫= Client.RefOptions.branch)
          /\ forall k : string, k <> "sha" -> k <> "branch" -> params !! k = None)
  /\ (forall client backend owner repo options w,
        exists params : gmap string param,
          QuerySpec.issues (Client.getCoverageTree client backend owner repo options)
                           w params
          /\ params !! "sha" = QuerySpec.sent_string (options ≫= Client.TreeOptions.sha)
          /\ params !! "branch"
             = QuerySpec.sent_string (options ≫= Client.TreeOptions.branch)
          /\ params !! "path"
             = QuerySpec.sent_string (options ≫= Client.TreeOptions.path)
          /\ params !! "depth"
             = QuerySpec.sent_number (options ≫= Client.TreeOptions.depth)
          /\ forall k : string,
               k <> "sha" -> k <> "branch" -> k <> "path" -> k <> "depth" ->
               params !! k = None)
  /\ (forall client backend owner repo options w,
        exists params : gmap string param,
          QuerySpec.issues (Client.compareCoverage client backend owner repo options)
                           w params
          /\ params !! "base"
             = QuerySpec.sent_string (Client.CompareOptions.base options)
          /\ params !! "head"
             = QuerySpec.sent_string (Client.CompareOptions.head options)
          /\ params !! "pullid"
             = QuerySpec.sent_number (Client.CompareOptions.pullid options)
          /\ forall k : string,
               k <> "base" -> k <> "head" -> k <> "pullid" -> params !! k = None)
  /\ (forall client backend owner repo service w,
        QuerySpec.issues (Client.getRepository client backend owner repo service) w ∅).
Proof.
  split; [intros; apply getCoverageTotals_params|].
  split; [intros; apply getFileCoverage_params|].
  split; [intros; apply getCoverageTree_params|].
  split; [intros; apply compareCoverage_params|].
  intros; apply getRepository_params.
Qed.

Lemma X4_witness :
  let client := CodecovClient.mk "token" "github" in
  let w := World.mk (Some "token") (Some client) [] in
  let backend : Request.t -> completion CoverageComparison.t :=
    fun _ => Throw NotAnError in
  let options := Client.CompareOptions.mk None (Some "main") (Some "feature") (Some 7%Z) in
  exists params : gmap string param,
    QuerySpec.issues (Client.compareCoverage client backend "owner" "repo" options) w params
    /\ params !! "base" = Some (PString "main")
    /\ params !! "head" = Some (PString "feature")
    /\ params !! "pullid" = Some (PNumber 7)
    /\ params !! "sha" = None.
Proof.
  cbv zeta.
  destruct (proj1 (proj2 (proj2 (proj2 X4_reference_query_parameters)))
              (CodecovClient.mk "token" "github")
              (fun _ => Throw NotAnError : completion CoverageComparison.t)
              "owner" "repo"
              (Client.CompareOptions.mk None (Some "main") (Some "feature") (Some 7%Z))
              (World.mk (Some "token") (Some (CodecovClient.mk "token" "github")) []))
    as (params & Hissues & Hbase & Hhead & Hpullid & Hother).
  exists params. split; [exact Hissues|]. split; [exact Hbase|].
  split; [exact Hhead|]. split; [exact Hpullid|]. apply Hother; discriminate.
Defined.

(** ** Validated input *)

Section Validated.
Import Schemas InputSpec.

Lemma handler_world body w : snd (Tool.handler body w) = snd (body w).
Proof. unfold Tool.handler. by destruct (body w) as [[text|e] w']. Qed.

(** A tool leaves the process as the client's call does. *)
Lemma tool_world {A} (call : CodecovClient.t -> M A) (finish : A -> M string)
      w client w1 :
  Client.getCodecovClient w = (Return client, w1) ->
  (forall a w', snd (finish a w') = w') ->
  snd (Tool.handler (client ← Client.getCodecovClient; result ← call client;
                     finish result) w)
  = snd (call client w1).
Proof.
  intros Hc Hfinish. rewrite handler_world. unfold mbind, M_bind. rewrite Hc.
  destruct (call client w1) as [[a|e] w2]; [apply Hfinish|reflexivity].
Qed.

Lemma tool_issues_of {A} (call : CodecovClient.t -> M A) (finish : A -> M string)
      w client w1 params :
  Client.getCodecovClient w = (Return client, w1) ->
  (forall a w', snd (finish a w') = w') ->
  QuerySpec.issues (call client) w1 params ->
  tool_issues (Tool.handler (client ← Client.getCodecovClient;
                             result ← call client; finish result)) w params.
Proof.
  intros Hc Hfinish [url Hurl]. exists url.
  rewrite (tool_world call finish w client w1 Hc Hfinish), Hurl.
  by destruct (getCodecovClient_world w client w1 Hc) as (_ & -> & _).
Qed.

Lemma is_int_floor n : is_int n = true -> inject_Z (Qfloor n) == n.
Proof. unfold is_int. apply Qeq_bool_iff. Qed.

Lemma positive_floor n :
  is_int n = true -> JS.gt_zero n = true -> (0 < Qfloor n)%Z.
Proof.
  intros Hint Hpos. apply is_int_floor in Hint.
  unfold JS.gt_zero in Hpos. apply negb_true_iff in Hpos.
  apply Z.lt_nge. intros Hle. rewrite Zle_Qle in Hle.
  rewrite Hint in Hle. apply Qle_bool_iff in Hle.
  change (inject_Z 0) with 0%Q in Hle. congruence.
Qed.

Lemma bounded_floor n lo hi :
  is_int n = true -> Qle_bool (inject_Z lo) n = true ->
  Qle_bool n (inject_Z hi) = true -> (lo <= Qfloor n <= hi)%Z.
Proof.
  intros Hint Hlo Hhi. apply is_int_floor in Hint.
  apply Qle_bool_iff in Hlo, Hhi. rewrite <- Hint in Hlo, Hhi.
  rewrite <- Zle_Qle in Hlo, Hhi. lia.
Qed.

Lemma pageSchema_valid v page :
  pageSchema v = Valid page -> as_supplied v (QuerySpec.sent_number page).
Proof.
  unfold pageSchema, as_supplied. destruct v as [n|]; [|by intros [= <-]].
  destruct (is_int n) eqn:Hint; [|discriminate].
  destruct (JS.gt_zero n) eqn:Hpos; [|discriminate].
  simpl. intros [= <-]. exists (Qfloor n). split; [|by apply is_int_floor].
  pose proof (positive_floor n Hint Hpos). simpl.
  by destruct (Z.eqb_spec (Qfloor n) 0); [lia|].
Qed.

Lemma pullidSchema_valid v pullid :
  pullidSchema v = Valid pullid -> as_supplied v (QuerySpec.sent_number pullid).
Proof. apply pageSchema_valid. Qed.

Lemma depthSchema_valid v depth :
  depthSchema v = Valid depth ->
  as_supplied v (QuerySpec.sent_number depth)
  /\ forall z, depth = Some z -> (1 <= z <= 10)%Z.
Proof.
  unfold depthSchema, as_supplied. destruct v as [n|]; [|by intros [= <-]].
  destruct (is_int n) eqn:Hint; [|discriminate].
  destruct (Qle_bool 1 n) eqn:Hlo; [|discriminate].
  destruct (Qle_bool n 10) eqn:Hhi; [|discriminate].
  simpl. intros [= <-].
  pose proof (bounded_floor n 1 10 Hint Hlo Hhi) as Hb.
  split; [|by intros z [= <-]].
  exists (Qfloor n). split; [|by apply is_int_floor].
  unfold QuerySpec.sent_number.
  by destruct (Z.eqb_spec (Qfloor n) 0); [lia|].
Qed.

Lemma pageSizeSchema_valid v p :
  pageSizeSchema v = Valid p ->
  page_size_as_supplied v (Some (PNumber (QuerySpec.sent_page_size (Some p)))).
Proof.
  unfold pageSizeSchema, page_size_as_supplied.
  destruct v as [n|].
  - destruct (is_int n) eqn:Hint; [|discriminate].
    destruct (Qle_bool 1 n) eqn:Hlo; [|discriminate].
    destruct (Qle_bool n (inject_Z Constants.MAX_PAGE_SIZE)) eqn:Hhi; [|discriminate].
    simpl. intros [= <-].
    pose proof (bounded_floor n 1 Constants.MAX_PAGE_SIZE Hint Hlo Hhi) as Hb.
    exists (Qfloor n). split; [|split; [exact Hb|by apply is_int_floor]].
    unfold QuerySpec.sent_page_size. unfold Constants.MAX_PAGE_SIZE in Hb.
    by destruct (Z.eqb_spec (Qfloor n) 0); [lia|].
  - intros [= <-]. exists Constants.DEFAULT_PAGE_SIZE. by repeat split.
Qed.

Lemma stateSchema_valid v state :
  stateSchema v = Valid state ->
  state = v /\ QuerySpec.sent_string state = PString <$> v.
Proof.
  unfold stateSchema. destruct v as [s|]; [|by intros [= <-]].
  simpl. rewrite !orb_false_r.
  destruct (String.eqb_spec s "open") as [->|_]; [by intros [= <-]|].
  destruct (String.eqb_spec s "closed") as [->|_]; [by intros [= <-]|].
  destruct (String.eqb_spec s "merged") as [->|_]; [by intros [= <-]|].
  discriminate.
Qed.

Lemma and_then_valid {A B} (p : parsed A) (k : A -> parsed B) b :
  and_then p k = Valid b -> exists a, p = Valid a /\ k a = Valid b.
Proof. destruct p as [a|]; [|discriminate]. intros H. by exists a. Qed.

Lemma nonEmptyString_valid v s : nonEmptyString v = Valid s -> s = v /\ v <> "".
Proof.
  unfold nonEmptyString. destruct v; simpl; [discriminate|]. by intros [= <-].
Qed.

End Validated.

Ltac valid_steps H :=
  repeat (let a := fresh "field" in
          let Ha := fresh "Hfield" in
          apply and_then_valid in H; destruct H as (a & Ha & H)).

Section ValidatedTools.
Import Schemas InputSpec.

Context (w w1 : World.t) (client : CodecovClient.t).
Hypothesis Hclient : Client.getCodecovClient w = (Return client, w1).

Lemma list_commits_validated JSON_stringify backend raw args :
  listCommitsSchema raw = Valid args ->
  exists params : gmap string param,
    tool_issues (RepositoryTools.codecov_list_commits JSON_stringify backend args)
                w params
    /\ page_size_as_supplied (RawListCommits.page_size raw) (params !! "page_size")
    /\ as_supplied (RawListCommits.page raw) (params !! "page").
Proof.
  intros H. valid_steps H. injection H as <-.
  unfold RepositoryTools.codecov_list_commits. simpl.
  match goal with
  | |- context [Client.listCommits _ backend ?owner ?repo ?options] =>
      destruct (listCommits_params client backend owner repo options w1)
        as (params & Hissues & Hsize & Hpage & _)
  end.
  exists params. split; [|split].
  - eapply (tool_issues_of
              (fun client => Client.listCommits client backend _ _ _)
              (fun result => summary ← Tool.lift (RepositoryTools.commits_summary result);
                             mret (JSON_stringify summary)));
      [exact Hclient| |exact Hissues].
    intros a w'. unfold mbind, M_bind, Tool.lift.
    by destruct (RepositoryTools.commits_summary a).
  - rewrite Hsize. by apply pageSizeSchema_valid.
  - rewrite Hpage. by apply pageSchema_valid.
Qed.

Lemma list_pulls_validated JSON_stringify backend raw args :
  listPullsSchema raw = Valid args ->
  exists params : gmap string param,
    tool_issues (RepositoryTools.codecov_list_pulls JSON_stringify backend args)
                w params
    /\ page_size_as_supplied (RawListPulls.page_size raw) (params !! "page_size")
    /\ as_supplied (RawListPulls.page raw) (params !! "page")
    /\ params !! "state" = PString <$> RawListPulls.state raw.
Proof.
  intros H. valid_steps H. injection H as <-.
  unfold RepositoryTools.codecov_list_pulls. simpl.
  match goal with
  | |- context [Client.listPullRequests _ backend ?owner ?repo ?options] =>
      destruct (listPullRequests_params client backend owner repo options w1)
        as (params & Hissues & Hsize & Hpage & Hstate & _)
  end.
  exists params. split; [|split; [|split]].
  - eapply (tool_issues_of
              (fun client => Client.listPullRequests client backend _ _ _)
              (fun result => mret _)); [exact Hclient|done|exact Hissues].
  - rewrite Hsize. by apply pageSizeSchema_valid.
  - rewrite Hpage. by apply pageSchema_valid.
  - rewrite Hstate. by eapply stateSchema_valid.
Qed.

Lemma list_repositories_validated JSON_stringify backend raw args :
  listRepositoriesSchema raw = Valid args ->
  exists params : gmap string param,
    tool_issues (RepositoryTools.codecov_list_repositories JSON_stringify backend args)
                w params
    /\ page_size_as_supplied (RawListRepositories.page_size raw)
                             (params !! "page_size")
    /\ as_supplied (RawListRepositories.page raw) (params !! "page").
Proof.
  intros H. valid_steps H. injection H as <-.
  unfold RepositoryTools.codecov_list_repositories. simpl.
  match goal with
  | |- context [Client.listRepositories _ backend ?owner ?options] =>
      destruct (listRepositories_params client backend owner options w1)
        as (params & Hissues & Hsize & Hpage & _)
  end.
  exists params. split; [|split].
  - eapply (tool_issues_of
              (fun client => Client.listRepositories client backend _ _)
              (fun result => summary ← Tool.lift (RepositoryTools.repos_summary result);
                             mret (JSON_stringify summary)));
      [exact Hclient| |exact Hissues].
    intros a w'. unfold mbind, M_bind, Tool.lift.
    by destruct (RepositoryTools.repos_summary a).
  - rewrite Hsize. by apply pageSizeSchema_valid.
  - rewrite Hpage. by apply pageSchema_valid.
Qed.

Lemma coverage_tree_validated backend raw args :
  getCoverageTreeSchema raw = Valid args ->
  exists params : gmap string param,
    tool_issues (CoverageTools.codecov_get_coverage_tree backend args) w params
    /\ as_supplied (RawTree.depth raw) (params !! "depth").
Proof.
  intros H. valid_steps H. injection H as <-.
  unfold CoverageTools.codecov_get_coverage_tree. simpl.
  match goal with
  | |- context [Client.getCoverageTree _ backend ?owner ?repo ?options] =>
      destruct (getCoverageTree_params client backend owner repo options w1)
        as (params & Hissues & _ & _ & _ & Hdepth & _)
  end.
  exists params. split.
  - eapply (tool_issues_of
              (fun client => Client.getCoverageTree client backend _ _ _)
              (fun result => mret _)); [exact Hclient|done|exact Hissues].
  - rewrite Hdepth. by apply depthSchema_valid.
Qed.

Lemma compare_coverage_validated JSON_stringify backend raw args :
  compareCoverageSchema raw = Valid args ->
  exists params : gmap string param,
    tool_issues (ComparisonTools.codecov_compare_coverage JSON_stringify backend args)
                w params
    /\ as_supplied (RawCompare.pullid raw) (params !! "pullid").
Proof.
  intros H. valid_steps H. injection H as <-.
  unfold ComparisonTools.codecov_compare_coverage. simpl.
  match goal with
  | |- context [Client.compareCoverage _ backend ?owner ?repo ?options] =>
      destruct (compareCoverage_params client backend owner repo options w1)
        as (params & Hissues & _ & _ & Hpullid & _)
  end.
  exists params. split.
  - eapply (tool_issues_of
              (fun client => Client.compareCoverage client backend _ _ _)
              (fun result => Tool.lift _)); [exact Hclient|done|exact Hissues].
  - rewrite Hpullid. by apply pullidSchema_valid.
Qed.

End ValidatedTools.

(** X5. On the arguments that a tool's input schema yields, the numeric
    query parameters go out as the caller supplied them. When a client is
    available, each of the tools with a numeric argument issues one request
    in which [page_size] is the supplied page size, or 25 when none was
    supplied, and lies between 1 and 100; [page], [depth] and [pullid] are
    the supplied numbers and are absent exactly when none was supplied; and
    the [state] of a pull-request list is the supplied state. (The guards by
    truthiness of the client cannot drop a number that the schema lets
    through.) *)
Theorem X5_validated_numbers_are_sent (w w1 : World.t) (client : CodecovClient.t) :
  Client.getCodecovClient w = (Return client, w1) ->
  (forall JSON_stringify backend raw args,
      Schemas.listRepositoriesSchema raw = Schemas.Valid args ->
      exists params : gmap string param,
        InputSpec.tool_issues
          (RepositoryTools.codecov_list_repositories JSON_stringify backend args) w params
        /\ InputSpec.page_size_as_supplied (Schemas.RawListRepositories.page_size raw)
                                           (params !! "page_size")
        /\ InputSpec.as_supplied (Schemas.RawListRepositories.page raw)
                                 (params !! "page"))
  /\ (forall JSON_stringify backend raw args,
        Schemas.listCommitsSchema raw = Schemas.Valid args ->
        exists params : gmap string param,
          InputSpec.tool_issues
            (RepositoryTools.codecov_list_commits JSON_stringify backend args) w params
          /\ InputSpec.page_size_as_supplied (Schemas.RawListCommits.page_size raw)
                                             (params !! "page_size")
          /\ InputSpec.as_supplied (Schemas.RawListCommits.page raw) (params !! "page"))
  /\ (forall JSON_stringify backend raw args,
        Schemas.listPullsSchema raw = Schemas.Valid args ->
        exists params : gmap string param,
          InputSpec.tool_issues
            (RepositoryTools.codecov_list_pulls JSON_stringify backend args) w params
          /\ InputSpec.page_size_as_supplied (Schemas.RawListPulls.page_size raw)
                                             (params !! "page_size")
          /\ InputSpec.as_supplied (Schemas.RawListPulls.page raw) (params !! "page")
          /\ params !! "state" = PString <$> Schemas.RawListPulls.state raw)
  /\ (forall backend raw args,
        Schemas.getCoverageTreeSchema raw = Schemas.Valid args ->
        exists params : gmap string param,
          InputSpec.tool_issues
            (CoverageTools.codecov_get_coverage_tree backend args) w params
          /\ InputSpec.as_supplied (Schemas.RawTree.depth raw) (params !! "depth"))
  /\ (forall JSON_stringify backend raw args,
        Schemas.compareCoverageSchema raw = Schemas.Valid args ->
        exists params : gmap string param,
          InputSpec.tool_issues
            (ComparisonTools.codecov_compare_coverage JSON_stringify backend args)
            w params
          /\ InputSpec.as_supplied (Schemas.RawCompare.pullid raw) (params !! "pullid")).
Proof.
  intros Hclient.
  split; [intros; by eapply list_repositories_validated|].
  split; [intros; by eapply list_commits_validated|].
  split; [intros; by eapply list_pulls_validated|].
  split; [intros; by eapply coverage_tree_validated|].
  intros; by eapply compare_coverage_validated.
Qed.

Lemma X5_witness :
  let w := Index.initial_world (Some "token") in
  let raw := Schemas.RawListPulls.mk "owner" "repo" None (Some (3 # 1)) (Some (50 # 1))
               (Some "open") in
  let args := RepositoryTools.ListPullsArgs.mk "owner" "repo" None (Some 3%Z)
                (Some 50%Z) (Some "open") in
  Schemas.listPullsSchema raw = Schemas.Valid args
  /\ exists params : gmap string param,
       InputSpec.tool_issues
         (RepositoryTools.codecov_list_pulls (fun _ => "")
            (fun _ => Throw NotAnError) args) w params
       /\ InputSpec.page_size_as_supplied (Some (50 # 1)) (params !! "page_size")
       /\ InputSpec.as_supplied (Some (3 # 1)) (params !! "page")
       /\ params !! "state" = Some (PString "open").
Proof.
  cbv zeta. split; [reflexivity|].
  exact (proj1 (proj2 (proj2
           (X5_validated_numbers_are_sent
              (Index.initial_world (Some "token"))
              (World.mk (Some "token") (Some (CodecovClient.mk "token" "github")) [])
              (CodecovClient.mk "token" "github") eq_refl)))
           (fun _ => "") (fun _ => Throw NotAnError)
           (Schemas.RawListPulls.mk "owner" "repo" None (Some (3 # 1)) (Some (50 # 1))
              (Some "open"))
           (RepositoryTools.ListPullsArgs.mk "owner" "repo" None (Some 3%Z)
              (Some 50%Z) (Some "open"))
           eq_refl).
Defined.

(** ** The file path in the URL *)

Section Encoding.
Import Client RequestSpec.

Lemma hex_digit_plain n : delimiter (hex_digit n) = false.
Proof.
  destruct n as [|p]; [reflexivity|].
  do 4 (try destruct p as [p|p|]); reflexivity.
Qed.

Lemma unreserved_plain c : unreserved c = true -> delimiter c = false.
Proof.
  destruct c as [[] [] [] [] [] [] [] []]; vm_compute; congruence.
Qed.

Lemma encodeURIComponent_plain s : has_delimiter (encodeURIComponent s) = false.
Proof.
  induction s as [|c s IH]; [reflexivity|]. simpl.
  destruct (unreserved c) eqn:Hc; simpl.
  - by rewrite (unreserved_plain c Hc), IH.
  - by rewrite !hex_digit_plain, IH.
Qed.

Lemma decode_plain fuel c rest :
  c <> "%"%char -> decode (S fuel) (String c rest) = String c (decode fuel rest).
Proof.
  intros Hc. destruct c as [[] [] [] [] [] [] [] []]; try reflexivity.
  by destruct Hc.
Qed.

Lemma decode_escape c :
  ascii_of_N (16 * hex_value (hex_digit (N_of_ascii c / 16))
              + hex_value (hex_digit (N_of_ascii c mod 16))) = c.
Proof. destruct c as [[] [] [] [] [] [] [] []]; reflexivity. Qed.

Lemma decode_encodeURIComponent s :
  forall fuel, (String.length (encodeURIComponent s) <= fuel)%nat ->
               decode fuel (encodeURIComponent s) = s.
Proof.
  induction s as [|c s IH]; intros fuel Hfuel.
  - by destruct fuel.
  - simpl in *. destruct (unreserved c) eqn:Hc; simpl in Hfuel.
    + destruct fuel as [|fuel]; [lia|].
      rewrite decode_plain; [f_equal; apply IH; lia|].
      intros ->. discriminate.
    + destruct fuel as [|fuel]; [lia|].
      cbn [decode]. rewrite decode_escape. f_equal. apply IH. lia.
Qed.

End Encoding.

(** X6. The file path takes exactly one segment of the request URL. The
    request of [getFileCoverage] goes to
    [/{service}/{owner}/repos/{repo}/file_report/{e}/], where [e], the
    encoded path, holds none of the characters that delimit the parts of a
    URL ([/], [?], [#], [&], [=], space), whatever the path holds, and
    decodes to the path; so two paths that differ give two URLs that
    differ. *)
Theorem X6_file_path_is_one_segment :
  (forall client backend owner repo path options w,
      exists (e : string) (params : gmap string param),
        World.requests
          (snd (Client.getFileCoverage client backend owner repo path options w))
        = World.requests w
          ++ [Request.mk
                ("/" +:+ Client.getService client (options ≫= Client.RefOptions.service)
                 +:+ "/" +:+ owner +:+ "/repos/" +:+ repo +:+ "/file_report/"
                 +:+ e +:+ "/")
                params]
        /\ RequestSpec.has_delimiter e = false
        /\ RequestSpec.decodeURIComponent e = path)
  /\ (forall path1 path2,
        Client.encodeURIComponent path1 = Client.encodeURIComponent path2 ->
        path1 = path2).
Proof.
  split.
  - intros client backend owner repo path options w.
    exists (Client.encodeURIComponent path).
    unfold Client.getFileCoverage, try_catch, Client.get. cbv zeta.
    eexists. split; [|split].
    + match goal with
      | |- context [backend ?r] => destruct (backend r); reflexivity
      end.
    + apply encodeURIComponent_plain.
    + by apply decode_encodeURIComponent.
  - intros path1 path2 H.
    rewrite <- (decode_encodeURIComponent path1 _ (le_n _)).
    rewrite <- (decode_encodeURIComponent path2 _ (le_n _)).
    by rewrite H.
Qed.

Lemma X6_witness :
  Client.encodeURIComponent "src/a b.ts" = "src%2Fa%20b.ts"
  /\ "src/a b.ts" = "src/a b.ts".
Proof.
  split; [reflexivity|].
  exact (proj2 X6_file_path_is_one_segment "src/a b.ts" "src/a b.ts" eq_refl).
Defined.

(** ** The command line *)

Section CommandLine.
Import Index.

Lemma valid_port_range v : valid_port (Some v) = true -> (1 <= v <= 65535)%Z.
Proof. unfold valid_port. intros H. apply andb_true_iff in H. lia. Qed.

Lemma parseArgs_loop_port n :
  forall args transport_ port transport' port',
    (length args <= n)%nat -> (1 <= port <= 65535)%Z ->
    parseArgs_loop args transport_ port = Returns (transport', port') ->
    (1 <= port' <= 65535)%Z.
Proof.
  induction n as [|n IH]; intros args t p t' p' Hn Hp.
  - destruct args; [|simpl in Hn; lia]. by intros [= <- <-].
  - destruct args as [|arg rest]; [by intros [= <- <-]|].
    simpl in Hn. cbn [parseArgs_loop].
    destruct (is_flag arg "--transport" "-t").
    { destruct rest as [|value rest']; [discriminate|]. simpl in Hn.
      destruct (String.eqb value "stdio"); [apply IH; [lia|done]|].
      destruct (String.eqb value "http"); [apply IH; [lia|done]|discriminate]. }
    destruct (is_flag arg "--port" "-p").
    { destruct rest as [|value rest']; [discriminate|]. simpl in Hn.
      cbv zeta. destruct (parseInt value) as [v|]; [|discriminate].
      destruct (valid_port (Some v)) eqn:Hv; [|discriminate].
      apply IH; [lia|by apply valid_port_range]. }
    destruct (is_flag arg "--help" "-h"); [discriminate|].
    apply IH; [lia|done].
Qed.

Lemma parseArgs_loop_exit n :
  forall args transport_ port code,
    (length args <= n)%nat ->
    parseArgs_loop args transport_ port = Exit code ->
    code = 1%Z
    \/ code = 0%Z /\ exists arg, In arg args /\ is_flag arg "--help" "-h" = true.
Proof.
  induction n as [|n IH]; intros args t p code Hn.
  - destruct args; [discriminate|simpl in Hn; lia].
  - destruct args as [|arg rest]; [discriminate|].
    simpl in Hn. cbn [parseArgs_loop].
    destruct (is_flag arg "--transport" "-t").
    { destruct rest as [|value rest']; [intros [= <-]; by left|]. simpl in Hn.
      destruct (String.eqb value "stdio").
      { intros H. apply IH in H; [|lia]. destruct H as [->|(-> & a & Ha & Hf)]; [by left|].
        right. split; [done|]. exists a. split; [|done]. by do 2 right. }
      destruct (String.eqb value "http"); [|intros [= <-]; by left].
      intros H. apply IH in H; [|lia]. destruct H as [->|(-> & a & Ha & Hf)]; [by left|].
      right. split; [done|]. exists a. split; [|done]. by do 2 right. }
    destruct (is_flag arg "--port" "-p").
    { destruct rest as [|value rest']; [intros [= <-]; by left|]. simpl in Hn.
      cbv zeta. destruct (parseInt value) as [v|]; [|intros [= <-]; by left].
      destruct (valid_port (Some v)); [|intros [= <-]; by left].
      intros H. apply IH in H; [|lia]. destruct H as [->|(-> & a & Ha & Hf)]; [by left|].
      right. split; [done|]. exists a. split; [|done]. by do 2 right. }
    destruct (is_flag arg "--help" "-h") eqn:Hhelp.
    { intros [= <-]. right. split; [done|]. exists arg. split; [by left|done]. }
    intros H. apply IH in H; [|lia]. destruct H as [->|(-> & a & Ha & Hf)]; [by left|].
    right. split; [done|]. exists a. split; [|done]. by right.
Qed.

Lemma parseArgs_port args env_PORT config :
  parseArgs args env_PORT = Returns config -> (1 <= port_of config <= 65535)%Z.
Proof.
  unfold parseArgs.
  destruct (parseArgs_loop args stdio DEFAULT_PORT)
    as [[transport_ port]|code] eqn:Hloop; [|discriminate].
  assert (1 <= DEFAULT_PORT <= 65535)%Z as Hdefault by (unfold DEFAULT_PORT; lia).
  pose proof (parseArgs_loop_port _ args _ _ _ _ (le_n _) Hdefault Hloop) as Hport.
  intros [= <-]. cbn [port_of].
  destruct transport_; [done|].
  destruct (truthy_string env_PORT); [|done].
  destruct (parseInt (default "" env_PORT)) as [v|] eqn:Hv; [|done].
  destruct (valid_port (Some v)) eqn:Hvalid; [|done].
  by apply valid_port_range.
Qed.

End CommandLine.

(** X7. What [parseArgs] returns. The port it returns is always a port
    number, from 1 to 65535. Whether it returns or ends the process, and
    the transport it returns, do not depend on the environment variable
    [PORT]; with the stdio transport nothing does. With the HTTP transport
    a [PORT] that reads as a port number is the port returned, also when a
    [--port] option is given: the environment wins over the command line.
    A [PORT] that does not read as a port number is passed over. *)
Theorem X7_parseArgs_port (args : list string) (env_PORT : option string)
    (config : Index.Config) :
  Index.parseArgs args env_PORT = Index.Returns config ->
  (1 <= Index.port_of config <= 65535)%Z
  /\ (forall env_PORT' : option string,
        exists port' : Z,
          Index.parseArgs args env_PORT'
          = Index.Returns (Index.mkConfig (Index.transport_of config) port'))
  /\ (Index.transport_of config = Index.stdio ->
      forall env_PORT' : option string,
        Index.parseArgs args env_PORT' = Index.Returns config)
  /\ (Index.transport_of config = Index.http ->
      forall (value : string) (v : Z),
        env_PORT = Some value -> value <> "" ->
        Index.parseInt value = Some v -> (1 <= v <= 65535)%Z ->
        Index.port_of config = v)
  /\ (Index.transport_of config = Index.http ->
      Index.valid_port (Index.parseInt (default "" env_PORT)) = false ->
      Index.parseArgs args None = Index.Returns config).
Proof.
  intros Hargs. split; [by eapply parseArgs_port|]. revert Hargs.
  unfold Index.parseArgs.
  destruct (Index.parseArgs_loop args Index.stdio Index.DEFAULT_PORT)
    as [[transport_ port]|code] eqn:Hloop; [|discriminate].
  intros [= <-]. cbn [Index.port_of Index.transport_of].
  split; [|split; [|split]].
  - intros env'. by eexists.
  - by intros ->.
  - intros -> value v -> Hne Hv Hrange. simpl.
    destruct (String.eqb_spec value ""); [done|]. simpl. rewrite Hv.
    unfold Index.valid_port.
    by destruct (Z.ltb_spec 0 v); [destruct (Z.ltb_spec v 65536); [|lia]|lia].
  - intros -> Hinvalid. simpl. f_equal. f_equal.
    destruct (truthy_string env_PORT); [|done].
    destruct (Index.parseInt (default "" env_PORT)) as [v|]; [|done].
    by rewrite Hinvalid.
Qed.

Lemma X7_witness :
  let config := Index.mkConfig Index.http 8080 in
  Index.parseArgs ["--port"; "3001"; "-t"; "http"] (Some "8080") = Index.Returns config
  /\ (1 <= Index.port_of config <= 65535)%Z
  /\ Index.port_of config = 8080%Z.
Proof.
  cbv zeta. split; [reflexivity|].
  pose proof (X7_parseArgs_port ["--port"; "3001"; "-t"; "http"] (Some "8080")
                (Index.mkConfig Index.http 8080) eq_refl)
    as (Hrange & _ & _ & Henv & _).
  split; [exact Hrange|].
  apply (Henv eq_refl "8080" 8080%Z eq_refl); [discriminate|reflexivity|lia].
Defined.

(** X8. The start of the process. [main] goes on to a transport only with
    a non-empty [CODECOV_API_TOKEN], and then the first tool invocation of
    the process gets its client, made from that token, without a request;
    the port of an HTTP server is a port number. Without the token [main]
    ends the process with code 1 whatever the command line holds, a
    [--help] option included. The process ends with code 0 only on a help
    option, and with no other code than 0 or 1. *)
Theorem X8_main_startup (env_CODECOV_API_TOKEN env_PORT : option string)
    (args : list string) :
  (forall server : Index.server,
      Index.main env_CODECOV_API_TOKEN env_PORT args = Index.Returns server ->
      (exists token : string,
          env_CODECOV_API_TOKEN = Some token /\ token <> ""
          /\ Client.getCodecovClient (Index.initial_world env_CODECOV_API_TOKEN)
             = (Return (CodecovClient.mk token Constants.DEFAULT_SERVICE),
                World.mk env_CODECOV_API_TOKEN
                  (Some (CodecovClient.mk token Constants.DEFAULT_SERVICE)) []))
      /\ (forall port : Z, server = Index.runHttp port -> (1 <= port <= 65535)%Z))
  /\ (truthy_string env_CODECOV_API_TOKEN = false ->
      Index.main env_CODECOV_API_TOKEN env_PORT args = Index.Exit 1)
  /\ (forall code : Z,
        Index.main env_CODECOV_API_TOKEN env_PORT args = Index.Exit code ->
        code = 1%Z
        \/ code = 0%Z
           /\ exists arg : string,
                In arg args /\ Index.is_flag arg "--help" "-h" = true).
Proof.
  unfold Index.main. split; [|split].
  - intros server.
    destruct env_CODECOV_API_TOKEN as [token|]; [|discriminate]. simpl.
    destruct (String.eqb_spec token "") as [->|Hne]; [discriminate|]. simpl.
    destruct (Index.parseArgs args env_PORT) as [config|code] eqn:Hargs;
      [|discriminate].
    intros Hserver. split.
    + exists token. split; [done|]. split; [done|].
      unfold Client.getCodecovClient, Index.initial_world, Client.new. simpl.
      by destruct (String.eqb_spec token "").
    + intros port ->.
      destruct (parseArgs_port args env_PORT config Hargs) as [Hlo Hhi].
      destruct (Index.transport_of config); [discriminate|].
      injection Hserver as <-. lia.
  - by intros ->.
  - intros code.
    destruct (negb (truthy_string env_CODECOV_API_TOKEN)); [intros [= <-]; by left|].
    unfold Index.parseArgs.
    destruct (Index.parseArgs_loop args Index.stdio Index.DEFAULT_PORT)
      as [[transport_ port]|code'] eqn:Hloop.
    + by destruct transport_.
    + intros [= <-]. by apply (parseArgs_loop_exit _ args _ _ _ (le_n _) Hloop).
Qed.

Lemma X8_witness :
  Index.main (Some "token") None ["-t"; "http"] = Index.Returns (Index.runHttp 3000)
  /\ (exists token : string,
         Some "token" = Some token /\ token <> ""
         /\ Client.getCodecovClient (Index.initial_world (Some "token"))
            = (Return (CodecovClient.mk token Constants.DEFAULT_SERVICE),
               World.mk (Some "token")
                 (Some (CodecovClient.mk token Constants.DEFAULT_SERVICE)) []))
  /\ (1 <= 3000 <= 65535)%Z.
Proof.
  split; [reflexivity|].
  destruct (proj1 (X8_main_startup (Some "token") None ["-t"; "http"])
              (Index.runHttp 3000) eq_refl) as [Hclient Hport].
  split; [exact Hclient|]. exact (Hport 3000%Z eq_refl).
Defined.

(** ** The sessions of the HTTP transport *)

Section Sessions.
Import HttpSessions.

Lemma or_default_truthy v d : d <> "" -> truthy_string (Some (or_default v d)) = true.
Proof.
  intros Hd. unfold or_default, truthy_string.
  destruct v as [s|]; simpl.
  - destruct (String.eqb_spec s ""); simpl; by apply negb_true_iff, String.eqb_neq.
  - by apply negb_true_iff, String.eqb_neq.
Qed.

Lemma messages_lookup sessionId m :
  sessionId <> "" ->
  messages (Some sessionId) m
  = match m !! sessionId with
    | Some connection => handlePostMessage connection
    | None => status 404 "Session not found. Connect to /sse first."
    end.
Proof.
  intros Hne. unfold messages, truthy_string. simpl.
  apply String.eqb_neq in Hne. rewrite Hne. simpl. by destruct (m !! sessionId).
Qed.

End Sessions.

(** X9. The sessions of the HTTP transport. After a connection to [/sse]
    the messages posted with its session id go to that connection, and the
    answers to every other session id are as before; once the connection
    closes, its session id is answered with 404; a post without a session
    id is answered with 400. When a second connection comes in under the
    session id of a first one that is still open, the posts go to the
    second, and the close of the first removes the entry of the second:
    posts for the open second connection are then answered with 404. *)
Theorem X9_session_routing (m : HttpSessions.transports)
    (query_sessionId : option string) (randomUUID : string) (connection : nat) :
  randomUUID <> "" ->
  let sessionId := fst (HttpSessions.sse query_sessionId randomUUID connection m) in
  let m' := snd (HttpSessions.sse query_sessionId randomUUID connection m) in
  sessionId <> ""
  /\ HttpSessions.messages (Some sessionId) m' = HttpSessions.handlePostMessage connection
  /\ (forall other : string,
        other <> sessionId ->
        HttpSessions.messages (Some other) m' = HttpSessions.messages (Some other) m)
  /\ HttpSessions.messages (Some sessionId) (HttpSessions.close sessionId m')
     = HttpSessions.status 404 "Session not found. Connect to /sse first."
  /\ (forall other : string,
        other <> sessionId ->
        HttpSessions.messages (Some other) (HttpSessions.close sessionId m')
        = HttpSessions.messages (Some other) m)
  /\ HttpSessions.messages None m'
     = HttpSessions.status 400 "sessionId query parameter required"
  /\ (forall (randomUUID2 : string) (connection2 : nat),
        let m2 := snd (HttpSessions.sse (Some sessionId) randomUUID2 connection2 m') in
        HttpSessions.messages (Some sessionId) m2
        = HttpSessions.handlePostMessage connection2
        /\ HttpSessions.messages (Some sessionId) (HttpSessions.close sessionId m2)
           = HttpSessions.status 404 "Session not found. Connect to /sse first.").
Proof.
  intros Huuid. cbv zeta. unfold HttpSessions.sse. cbn [fst snd].
  set (sessionId := or_default query_sessionId randomUUID).
  assert (sessionId <> "") as Hne.
  { pose proof (or_default_truthy query_sessionId randomUUID Huuid) as H.
    fold sessionId in H. unfold truthy_string in H.
    apply negb_true_iff in H. by apply String.eqb_neq. }
  split; [exact Hne|]. unfold HttpSessions.close, HttpSessions.transports in *.
  split; [rewrite messages_lookup by done; unfold HttpSessions.transports; by rewrite lookup_insert_eq|].
  split.
  { intros other Hother. unfold HttpSessions.messages, HttpSessions.transports.
    by rewrite lookup_insert_ne. }
  split; [rewrite messages_lookup by done; unfold HttpSessions.transports; by rewrite lookup_delete_eq|].
  split.
  { intros other Hother. unfold HttpSessions.messages, HttpSessions.transports.
    by rewrite lookup_delete_ne, lookup_insert_ne. }
  split; [reflexivity|].
  intros uuid2 connection2. cbv zeta.
  assert (or_default (Some sessionId) uuid2 = sessionId) as ->.
  { unfold or_default, truthy_string. apply String.eqb_neq in Hne. by rewrite Hne. }
  split; [rewrite messages_lookup by done; unfold HttpSessions.transports; by rewrite lookup_insert_eq|].
  rewrite messages_lookup by done; unfold HttpSessions.transports; by rewrite lookup_delete_eq.
Qed.

Lemma X9_witness :
  HttpSessions.messages (Some "abc")
    (snd (HttpSessions.sse (Some "abc") "uuid-2" 2
            (snd (HttpSessions.sse None "abc" 1 ∅))))
  = HttpSessions.handlePostMessage 2
  /\ HttpSessions.messages (Some "abc")
       (HttpSessions.close "abc"
          (snd (HttpSessions.sse (Some "abc") "uuid-2" 2
                  (snd (HttpSessions.sse None "abc" 1 ∅)))))
     = HttpSessions.status 404 "Session not found. Connect to /sse first.".
Proof.
  assert ("abc" <> "") as Hne by discriminate.
  exact (proj2 (proj2 (proj2 (proj2 (proj2 (proj2
           (X9_session_routing ∅ None "abc" 1 Hne)))))) "uuid-2" 2).
Defined.
(** ** The entries of the lists *)

Section Guarded.
Context {A B : Type} (f : A -> completion B) (is_null : A -> bool) (e : exn).
Hypothesis f_throws : forall x, is_null x = true -> f x = Throw e.
Hypothesis f_returns : forall x, is_null x = false -> exists y, f x = Return y.

(** A map whose function throws [e] on the elements that [is_null]
    marks, and returns on the others. *)
Lemma Array_map_guarded l :
  if existsb is_null l then Array_map f l = Throw e
  else exists ys, Array_map f l = Return ys.
Proof.
  destruct (existsb is_null l) eqn:E.
  - apply existsb_exists in E as (x & Hin & Hx).
    apply Array_map_throws; [|exists x; auto].
    intros x' e' _ Hx'. destruct (is_null x') eqn:Hn.
    + rewrite (f_throws x' Hn) in Hx'. by injection Hx'.
    + destruct (f_returns x' Hn) as [y Hy]. congruence.
  - apply Array_map_returns. intros x Hin. apply f_returns.
    destruct (is_null x) eqn:Hn; [|reflexivity].
    assert (existsb is_null l = true) by (apply existsb_exists; by exists x).
    congruence.
Qed.

End Guarded.

Section Lists.
Import RepositoryTools ListSpec.

Lemma toFixed_head x f :
  exists c rest,
    JS.toFixed x (S f) = String c rest /\ (JS.is_digit c = true \/ c = "-"%char).
Proof.
  destruct (toFixed_shape x f) as (a & b & E & Ha & Hda & _).
  rewrite E. destruct (Qle_bool 0 x).
  - destruct a as [|c a]; [done|]. exists c. eexists. split; [reflexivity|].
    left. unfold Format.all_digits in Hda. simpl in Hda.
    by apply andb_true_iff in Hda as [? _].
  - eexists _, _. split; [reflexivity|]. by right.
Qed.

Lemma rendered_not_literal c :
  JS.toFixed c 2 +:+ "%" <> "N/A" /\ JS.toFixed c 2 +:+ "%" <> "undefined%".
Proof.
  destruct (toFixed_head c 1) as (d & rest & -> & [Hd | ->]).
  - split; intros [= -> _]; discriminate.
  - split; discriminate.
Qed.

Lemma rendered_percentage c : percentage (JS.toFixed c 2 +:+ "%").
Proof.
  destruct (toFixed_fixed_point c 1) as (m & E & Hm).
  exists (if Qle_bool 0 c then "" else "-"), m. rewrite E.
  split; [by rewrite append_assoc|]. split; [|done].
  destruct (Qle_bool 0 c); [by left|by right].
Qed.

Lemma coverage_or_NA_absent totals :
  coverage_or_NA totals = Return "N/A" <-> totals ≫= CoverageTotals.coverage = None.
Proof.
  unfold coverage_or_NA.
  destruct (totals ≫= CoverageTotals.coverage) as [[|c]|]; [done| |done].
  split; [|done]. intros [= E]. by apply rendered_not_literal in E.
Qed.

Lemma repo_entry_throws repo :
  DeltaSpec.is_null (Repository.totals repo ≫= CoverageTotals.coverage) = true ->
  repo_entry repo = Throw Tool.TypeError_toFixed_null.
Proof.
  unfold repo_entry, coverage_or_NA.
  by destruct (Repository.totals repo ≫= CoverageTotals.coverage) as [[|c]|].
Qed.

Lemma repo_entry_returns repo :
  DeltaSpec.is_null (Repository.totals repo ≫= CoverageTotals.coverage) = false ->
  exists entry, repo_entry repo = Return entry.
Proof.
  unfold repo_entry, coverage_or_NA.
  destruct (Repository.totals repo ≫= CoverageTotals.coverage) as [[|c]|];
    [discriminate| |]; intros _; by eexists.
Qed.

Lemma repo_entry_fields repo entry :
  repo_entry repo = Return entry ->
  RepoEntry.name entry = Repository.name repo
  /\ coverage_or_NA (Repository.totals repo) = Return (RepoEntry.coverage entry).
Proof.
  unfold repo_entry, mbind, completion_bind, mret, completion_ret.
  destruct (coverage_or_NA _) as [coverage|]; [|discriminate].
  by intros [= <-].
Qed.

Lemma commit_entry_throws commit :
  DeltaSpec.is_null (Commit.totals commit ≫= CoverageTotals.coverage) = true ->
  commit_entry commit = Throw Tool.TypeError_toFixed_null.
Proof.
  unfold commit_entry, coverage_or_NA.
  by destruct (Commit.totals commit ≫= CoverageTotals.coverage) as [[|c]|].
Qed.

Lemma substring0_prefix s : forall n,
  prefix_of (JS.substring0 n s) s
  /\ String.length (JS.substring0 n s) = Nat.min n (String.length s).
Proof.
  unfold JS.substring0, prefix_of.
  induction s as [|c s IH]; intros n.
  - destruct n; split; try reflexivity; by exists "".
  - destruct n as [|n]; simpl.
    + split; [by eexists|reflexivity].
    + destruct (IH n) as [[rest Hrest] Hlen]. split; [|by rewrite Hlen].
      exists rest. simpl. by rewrite <- Hrest.
Qed.

Lemma commit_entry_fields commit entry :
  commit_entry commit = Return entry ->
  CommitEntry.sha entry = Commit.commitid commit
  /\ prefix_of (CommitEntry.short_sha entry) (CommitEntry.sha entry)
  /\ String.length (CommitEntry.short_sha entry)
     = Nat.min 7 (String.length (CommitEntry.sha entry))
  /\ coverage_or_NA (Commit.totals commit) = Return (CommitEntry.coverage entry).
Proof.
  unfold commit_entry, mbind at 1, completion_bind, mret, completion_ret.
  destruct (coverage_or_NA _) as [coverage|]; [|discriminate].
  intros [= <-]. simpl. split; [done|].
  by destruct (substring0_prefix (Commit.commitid commit) 7).
Qed.

Lemma Forall2_impl' {X Y} (P Q : X -> Y -> Prop) l k :
  (forall x y, P x y -> Q x y) -> Forall2 P l k -> Forall2 Q l k.
Proof. intros H F. induction F; constructor; auto. Qed.

End Lists.


(** ** How far the ranking is from the deltas *)

Section Accuracy.
Import ComparisonTools RankingSpec AccuracySpec.

Lemma StronglySorted_weaken {A} (R R' : A -> A -> Prop) l :
  (forall a b, R a b -> R' a b) -> StronglySorted R l -> StronglySorted R' l.
Proof.
  intros HR. induction 1 as [|a l Hl IH Ha]; constructor; [exact IH|].
  clear Hl IH. induction Ha; constructor; auto.
Qed.

Lemma Sorted_ascending_within l :
  Sorted (fun f g => (displayed_delta f <= displayed_delta g)%Q) l ->
  ascending_within (1 # 100) l.
Proof.
  intros H. apply Sorted_StronglySorted in H.
  - eapply StronglySorted_weaken; [|exact H]. intros f g Hfg. cbv beta in *.
    pose proof (displayed_close f). pose proof (displayed_close g). lra.
  - intros f g h Hfg Hgh. by eapply Qle_trans.
Qed.

(** Among deltas of moderate size, the numbers that are compared are
    equal exactly when the displayed deltas are. *)
Lemma compares_displays f g :
  moderate f -> moderate g ->
  compares (compared_delta f) g = displays (displayed_delta f) g.
Proof.
  intros Hf Hg. unfold compares, displays.
  destruct (Qeq_bool (displayed_delta g) (displayed_delta f)) eqn:Hd.
  - apply Qeq_bool_iff in Hd. apply Qeq_bool_iff. unfold compared_delta.
    by rewrite (binary64_comp _ _ Hd).
  - apply not_true_iff_false. intros Hc. apply Qeq_bool_iff in Hc.
    apply not_true_iff_false in Hd. apply Hd, Qeq_bool_iff, Qle_antisym.
    + apply moderate_order; [done|done|]. rewrite Hc. apply Qle_refl.
    + apply moderate_order; [done|done|]. rewrite Hc. apply Qle_refl.
Qed.

Lemma filter_nil {A} (p : A -> bool) l :
  existsb p l = false -> List.filter p l = [].
Proof.
  induction l as [|x l IH]; [reflexivity|]. cbn [existsb List.filter].
  intros H. apply orb_false_iff in H as [-> H]. by apply IH.
Qed.

Lemma displays_proper k k' f : (k == k')%Q -> displays k f = displays k' f.
Proof.
  intros E. unfold displays.
  destruct (Qeq_bool (displayed_delta f) k) eqn:H1;
    destruct (Qeq_bool (displayed_delta f) k') eqn:H2; try reflexivity.
  - apply Qeq_bool_iff in H1. rewrite E in H1. apply Qeq_bool_iff in H1. congruence.
  - apply Qeq_bool_iff in H2. rewrite <- E in H2. apply Qeq_bool_iff in H2.
    congruence.
Qed.

(** A stable sort by the numbers that are compared keeps the order of
    the files that display the same delta. *)
Lemma stable_displays ranked files :
  Permutation ranked files -> Forall moderate files ->
  (forall k, List.filter (compares k) ranked = List.filter (compares k) files) ->
  forall k, List.filter (displays k) ranked = List.filter (displays k) files.
Proof.
  intros Hperm Hm Hstable k.
  pose proof (proj1 (List.Forall_forall _ _) Hm) as Hall.
  destruct (existsb (displays k) files) eqn:E.
  - apply existsb_exists in E as (f0 & Hin & Hk).
    apply Qeq_bool_iff in Hk.
    assert (Hf0 : moderate f0) by (by apply Hall).
    rewrite (filter_ext_in (displays k) (compares (compared_delta f0)) ranked),
      (filter_ext_in (displays k) (compares (compared_delta f0)) files);
      [apply Hstable| |].
    + intros g Hg. rewrite compares_displays; [|done|by apply Hall].
      apply displays_proper. by symmetry.
    + intros g Hg. rewrite compares_displays; [apply displays_proper; by symmetry|done|].
      apply Hall. by eapply Permutation_in.
  - rewrite (filter_nil _ files E). apply filter_nil.
    destruct (existsb (displays k) ranked) eqn:E'; [|reflexivity].
    apply existsb_exists in E' as (f0 & Hin & Hk).
    assert (existsb (displays k) files = true)
      by (apply existsb_exists; exists f0; split; [by eapply Permutation_in|done]).
    congruence.
Qed.

(** The sort keeps the order of the files for which the same number is
    compared. *)
Lemma changedFiles_stable result l :
  changedFiles result = Return l ->
  exists ranked : list ComparisonFile.t,
    Array_map changed_file ranked = Return l
    /\ Permutation ranked (List.filter is_changed (CoverageComparison.files result))
    /\ Sorted (fun f g => (compared_delta f <= compared_delta g)%Q) ranked
    /\ forall k : Q,
         List.filter (compares k) ranked
         = List.filter (compares k)
             (List.filter is_changed (CoverageComparison.files result)).
Proof.
  intros Hl. eexists. split; [exact (changedFiles_sorted result l Hl)|].
  split; [apply Array_sort_perm|]. split.
  - apply (Array_sort_sorted compared_delta), compare_files_sign.
  - intros k. apply (Array_sort_stable compared_delta), compare_files_sign.
Qed.

End Accuracy.



(** ** The summary of a file *)

Section FileSummary.
Import CoverageTools LineSpec.

Lemma String_of_integer_head z :
  exists c rest,
    JS.String_of_integer z = String c rest /\ (JS.is_digit c = true \/ c = "-"%char).
Proof.
  destruct (Z.neg_nonneg_cases z) as [Hneg|Hpos].
  - destruct z as [|p|p]; [lia|lia|]. eexists _, _. split; [reflexivity|]. by right.
  - destruct (String_of_integer_nonneg z Hpos) as (Hne & Hd & _).
    destruct (JS.String_of_integer z) as [|c rest]; [done|].
    exists c, rest. split; [reflexivity|]. left.
    unfold Format.all_digits in Hd. simpl in Hd.
    by apply andb_true_iff in Hd as [? _].
Qed.

Lemma render_head r :
  exists c rest, render r = String c rest /\ (JS.is_digit c = true \/ c = "-"%char).
Proof.
  unfold render. destruct (String_of_integer_head (fst r)) as (c & rest & E & Hc).
  rewrite E. destruct (fst r =? snd r)%Z; eexists _, _; (split; [reflexivity|exact Hc]).
Qed.

Lemma groupLines_none S : groupLines S = "none" <-> S = [].
Proof.
  split; [|by intros ->]. rewrite groupLines_runs.
  destruct S as [|x rest]; [done|]. unfold runs, render_all.
  pose proof (runs_from_nonempty x x rest) as Hne.
  destruct (runs_from x x rest) as [|r rs]; [done|].
  destruct (render_head r) as (c & tail & E & Hc).
  cbn [map String.concat]. rewrite E.
  destruct (map render rs); simpl; intros [= -> _];
    destruct Hc as [Hc|Hc]; discriminate.
Qed.

Lemma StronglySorted_filter {A} (f : A -> Z) (p : A -> bool) l :
  StronglySorted Z.lt (map f l) -> StronglySorted Z.lt (map f (List.filter p l)).
Proof.
  induction l as [|a l IH]; [done|]. cbn [map List.filter].
  intros H. apply StronglySorted_inv in H as [Hl Ha].
  destruct (p a); [|by apply IH]. cbn [map]. constructor; [by apply IH|].
  clear IH Hl. induction l as [|b l IH]; [constructor|].
  cbn [map List.filter] in *. apply Forall_cons in Ha as [Hb Ha].
  destruct (p b); [constructor|]; auto.
Qed.

Lemma Sorted_filter {A} (f : A -> Z) (p : A -> bool) l :
  Sorted Z.lt (map f l) -> Sorted Z.lt (map f (List.filter p l)).
Proof.
  intros H. apply StronglySorted_Sorted, StronglySorted_filter.
  apply Sorted_StronglySorted; [|exact H]. intros x y z. apply Z.lt_trans.
Qed.

Lemma StronglySorted_one_entry {A} (f : A -> Z) l a b :
  StronglySorted Z.lt (map f l) -> In a l -> In b l -> f a = f b -> a = b.
Proof.
  induction l as [|c l IH]; [done|]. cbn [map].
  intros H. apply StronglySorted_inv in H as [Hl Hc].
  assert (forall d, In d l -> (f c < f d)%Z) as Hlt.
  { intros d Hd. rewrite List.Forall_forall in Hc. apply Hc. by apply in_map. }
  intros [<-|Ha] [<-|Hb] E; [done| | |by apply IH].
  - apply Hlt in Hb. lia.
  - apply Hlt in Ha. lia.
Qed.

End FileSummary.


